(** * The key-value store of 20-db: B-tree index, write-ahead log, store

    A shallow embedding of [btree.go], [db.go], the hash helper and the
    write-ahead log, followed by the properties of the storage engine.

    Conventions of the embedding.
    - Go's [int] and [int64] are 64-bit two's complement integers: they are
      [Z] values, and every arithmetic result that can leave the range is
      passed through [wrap64].  [KDB.Size] counts insertions and is kept
      unwrapped.
    - A [*Node] is a value of type [Node]: [Nil] is the nil pointer and
      [Ref ...] a pointer to a struct with the eleven fields of the source in
      their declaration order.  Every node is owned by exactly one parent
      link, so an in-place update of a child is the parent rebuilt around the
      updated child.
    - A [*string] is an [option string].
    - The file system is a finite map from paths to file contents; what the
      operating system may do on its own (refuse an open, fail a write part
      way, fail a sync or a close) is an input of each call, the [Env].  A
      file that has been opened for reading is read to its end, and between
      two calls nobody else touches the disk.
    - [encoding/json] and the clock are outside the repository: the log takes
      the two codec functions as parameters and the time from the [Env].
      Locks are left out, the calls being sequential. *)

From stdpp Require Import base gmap strings list.
From Stdlib Require Import ZArith Lia Ascii String DecimalString.

Local Open Scope Z_scope.

(** ** Machine integers *)

Definition wrap64 (z : Z) : Z := (z + 2 ^ 63) mod 2 ^ 64 - 2 ^ 63.

Definition MaxInt64 : Z := 2 ^ 63 - 1.

(** ** Strings as byte sequences, and the runes of a [range] loop *)

Definition byte_val (c : ascii) : Z := Z.of_N (N_of_ascii c).

Definition RuneError : Z := 65533.

Definition in_range (lo hi b : Z) : bool := (lo <=? b) && (b <=? hi).

(** The width of the encoding announced by a leading byte, with the range
    its second byte must lie in (the table of [unicode/utf8]). *)
Definition first_byte (b0 : Z) : option (nat * Z * Z) :=
  if in_range 194 223 b0 then Some (2%nat, 128, 191)
  else if b0 =? 224 then Some (3%nat, 160, 191)
  else if in_range 225 236 b0 then Some (3%nat, 128, 191)
  else if b0 =? 237 then Some (3%nat, 128, 159)
  else if in_range 238 239 b0 then Some (3%nat, 128, 191)
  else if b0 =? 240 then Some (4%nat, 144, 191)
  else if in_range 241 243 b0 then Some (4%nat, 128, 191)
  else if b0 =? 244 then Some (4%nat, 128, 143)
  else None.

Definition cont (b : Z) : bool := in_range 128 191 b.

Definition low6 (b : Z) : Z := Z.land b 63.

(** [for _, char := range key]: the code points of [key], an invalid or
    truncated encoding yielding [RuneError] and advancing one byte. *)
Fixpoint runes (s : string) : list Z :=
  match s with
  | EmptyString => []
  | String c0 s1 =>
    let b0 := byte_val c0 in
    if b0 <? 128 then b0 :: runes s1
    else
      match first_byte b0, s1 with
      | Some (2%nat, lo, hi), String c1 s2 =>
        let b1 := byte_val c1 in
        if in_range lo hi b1
        then Z.lor (Z.shiftl (Z.land b0 31) 6) (low6 b1) :: runes s2
        else RuneError :: runes s1
      | Some (3%nat, lo, hi), String c1 (String c2 s3) =>
        let b1 := byte_val c1 in
        let b2 := byte_val c2 in
        if in_range lo hi b1 && cont b2
        then Z.lor (Z.shiftl (Z.land b0 15) 12)
                   (Z.lor (Z.shiftl (low6 b1) 6) (low6 b2)) :: runes s3
        else RuneError :: runes s1
      | Some (4%nat, lo, hi), String c1 (String c2 (String c3 s4)) =>
        let b1 := byte_val c1 in
        let b2 := byte_val c2 in
        let b3 := byte_val c3 in
        if in_range lo hi b1 && cont b2 && cont b3
        then Z.lor (Z.shiftl (Z.land b0 7) 18)
                   (Z.lor (Z.shiftl (low6 b1) 12)
                          (Z.lor (Z.shiftl (low6 b2) 6) (low6 b3))) :: runes s4
        else RuneError :: runes s1
      | _, _ => RuneError :: runes s1
      end
  end.

(** ** hash helper *)

Definition HashStringToInt (key : string) : Z :=
  fold_left
    (fun hash char => wrap64 (wrap64 (wrap64 (Z.shiftl hash 5) + hash) + char))
    (runes key) 5381.

(** ** btree.go *)

Inductive Node : Type :=
| Nil : Node
| Ref (cp1 : Node) (key1 : Z) (rp1 : option string)
      (cp2 : Node) (key2 : Z) (rp2 : option string)
      (cp3 : Node) (key3 : Z) (rp3 : option string)
      (cp4 : Node) (size : Z) : Node.

(** [&Node{key1: key, rp1: val, size: 1}] *)
Definition singleton (key : Z) (val : option string) : Node :=
  Ref Nil key val Nil 0 None Nil 0 None Nil 1.

Record splitResult : Type := mkSplit {
  promoted : bool;
  promotedKey : Z;
  promotedVal : option string;
  newRight : Node
}.

(** [splitResult{}] *)
Definition noSplit : splitResult := mkSplit false 0 None Nil.

Definition insertKeyIntoNode (node : Node) (key : Z) (val : option string) : Node :=
  match node with
  | Nil => Nil
  | Ref cp1 key1 rp1 cp2 key2 rp2 cp3 key3 rp3 cp4 size =>
    if size =? 0 then Ref cp1 key val cp2 key2 rp2 cp3 key3 rp3 cp4 1
    else if size =? 1 then
      if key <? key1
      then Ref cp1 key val cp2 key1 rp1 cp3 key3 rp3 cp4 2
      else Ref cp1 key1 rp1 cp2 key val cp3 key3 rp3 cp4 2
    else if size =? 2 then
      if key <? key1
      then Ref cp1 key val cp2 key1 rp1 cp3 key2 rp2 cp4 3
      else if key <? key2
      then Ref cp1 key1 rp1 cp2 key val cp3 key2 rp2 cp4 3
      else Ref cp1 key1 rp1 cp2 key2 rp2 cp3 key val cp4 3
    else node
  end.

Definition is_nil (n : Node) : bool :=
  match n with Nil => true | Ref _ _ _ _ _ _ _ _ _ _ _ => false end.

Definition isLeaf (node : Node) : bool :=
  match node with
  | Nil => false
  | Ref cp1 _ _ cp2 _ _ cp3 _ _ cp4 _ =>
    is_nil cp1 && is_nil cp2 && is_nil cp3 && is_nil cp4
  end.

Definition insertPromotedKey (node : Node) (key : Z) (val : option string)
    (newRight : Node) (afterChildIdx : nat) : Node :=
  match node with
  | Nil => Nil
  | Ref cp1 key1 rp1 cp2 key2 rp2 cp3 key3 rp3 cp4 size =>
    if size =? 1 then
      if Nat.eqb afterChildIdx 0
      then Ref cp1 key val newRight key1 rp1 cp2 key3 rp3 cp4 2
      else Ref cp1 key1 rp1 cp2 key val newRight key3 rp3 cp4 2
    else
      if Nat.eqb afterChildIdx 0
      then Ref cp1 key val newRight key1 rp1 cp2 key2 rp2 cp3 3
      else if Nat.eqb afterChildIdx 1
      then Ref cp1 key1 rp1 cp2 key val newRight key2 rp2 cp3 3
      else Ref cp1 key1 rp1 cp2 key2 rp2 cp3 key val newRight 3
  end.

(** [sort.Slice] on a slice of at most twelve elements is an insertion sort:
    each element in turn moves left past every element it is [less] than.
    [sift] works on the sorted prefix kept last element first. *)
Fixpoint sift {A : Type} (less : A -> A -> bool) (x : A) (prefix : list A) : list A :=
  match prefix with
  | [] => [x]
  | y :: r => if less x y then y :: sift less x r else x :: y :: r
  end.

Definition sortSlice {A : Type} (less : A -> A -> bool) (items : list A) : list A :=
  rev (fold_left (fun prefix x => sift less x prefix) items []).

Definition kv : Type := (Z * option string)%type.

Definition item (items : list kv) (i : nat) : kv := nth i items (0, None).

(** [copy(children[idx+1:], children[idx:]); children[idx] = newChild] on the
    five-slot slice. *)
Definition shiftIn (children : list Node) (idx : nat) (newChild : Node) : list Node :=
  take idx children ++ newChild :: take (4 - idx)%nat (drop idx children).

Definition childAt (children : list Node) (i : nat) : Node := nth i children Nil.

Definition splitNode (node : Node) (newKey : Z) (newVal : option string)
    (newChild : Node) (afterChildIdx : option nat) : Node * splitResult :=
  match node with
  | Nil => (Nil, noSplit)
  | Ref cp1 key1 rp1 cp2 key2 rp2 cp3 key3 rp3 cp4 size =>
    let items :=
      sortSlice (fun a b : kv => a.1 <? b.1)
                [(key1, rp1); (key2, rp2); (key3, rp3); (newKey, newVal)] in
    let i0 := item items 0 in
    let i1 := item items 1 in
    let i2 := item items 2 in
    let i3 := item items 3 in
    match afterChildIdx with
    | Some after =>
      let children := shiftIn [cp1; cp2; cp3; cp4; Nil] (after + 1) newChild in
      (Ref (childAt children 0) i0.1 i0.2 (childAt children 1) 0 None Nil 0 None Nil 1,
       mkSplit true i1.1 i1.2
         (Ref (childAt children 2) i2.1 i2.2 (childAt children 3) i3.1 i3.2
              (childAt children 4) 0 None Nil 2))
    | None =>
      (Ref Nil i0.1 i0.2 Nil 0 None Nil 0 None Nil 1,
       mkSplit true i1.1 i1.2 (Ref Nil i2.1 i2.2 Nil i3.1 i3.2 Nil 0 None Nil 2))
    end
  end.

(** What [insertKey] does once it has picked the child [childIdx] of [node]:
    [child] is that child, [sub] the outcome of the recursive call on it and
    [plug] puts a child back at position [childIdx]. *)
Definition afterDescent (Size : Z) (size : Z) (child : Node)
    (sub : Z * Node * splitResult) (plug : Node -> Node) (childIdx : nat)
    (key : Z) (val : option string) : Z * Node * splitResult :=
  if is_nil child then (Size + 1, plug (singleton key val), noSplit)
  else
    let '(Size', child', res) := sub in
    let node := plug child' in
    if negb (promoted res) then (Size', node, noSplit)
    else if size <? 3 then
      (Size',
       insertPromotedKey node (promotedKey res) (promotedVal res) (newRight res) childIdx,
       noSplit)
    else
      let '(node', up) :=
        splitNode node (promotedKey res) (promotedVal res) (newRight res) (Some childIdx) in
      (Size', node', up).

(** [insertKey] returns the updated [db.Size], the node as the call leaves it
    and the split result. *)
Fixpoint insertKey (Size : Z) (node : Node) (key : Z) (val : option string)
    : Z * Node * splitResult :=
  match node with
  | Nil => (Size, Nil, noSplit)
  | Ref cp1 key1 rp1 cp2 key2 rp2 cp3 key3 rp3 cp4 size =>
    if isLeaf node then
      if size <? 3 then (Size + 1, insertKeyIntoNode node key val, noSplit)
      else
        let '(node', up) := splitNode node key val Nil None in
        (Size + 1, node', up)
    else if key <? key1 then
      afterDescent Size size cp1 (insertKey Size cp1 key val)
        (fun c => Ref c key1 rp1 cp2 key2 rp2 cp3 key3 rp3 cp4 size) 0 key val
    else if (size =? 1) || (key <? key2) then
      afterDescent Size size cp2 (insertKey Size cp2 key val)
        (fun c => Ref cp1 key1 rp1 c key2 rp2 cp3 key3 rp3 cp4 size) 1 key val
    else if (size =? 2) || (key <? key3) then
      afterDescent Size size cp3 (insertKey Size cp3 key val)
        (fun c => Ref cp1 key1 rp1 cp2 key2 rp2 c key3 rp3 cp4 size) 2 key val
    else
      afterDescent Size size cp4 (insertKey Size cp4 key val)
        (fun c => Ref cp1 key1 rp1 cp2 key2 rp2 cp3 key3 rp3 c size) 3 key val
  end.

(** ** The write-ahead log *)

Record WALOperation : Type := mkOp {
  Seq : Z;
  Operation : string;
  Key : string;
  Value : string;
  Timestamp : Z
}.

Inductive error : Type :=
| ErrOpen        (* the operating system refused to open the file *)
| ErrNotExist    (* no file at the path *)
| ErrInvalid     (* a method of a nil *os.File *)
| ErrClosed      (* the file is already closed *)
| ErrClose       (* close(2) failed *)
| ErrWrite       (* write(2) failed *)
| ErrSync        (* fsync(2) failed *)
| ErrMarshal     (* json.Marshal failed *)
| ErrTooLong.    (* bufio.Scanner: token too long *)

(** An open file: the path it was opened at, whether it was opened with
    [O_APPEND], the offset of the next write otherwise, and whether [Close]
    has been called on it. *)
Record File : Type := mkFile {
  path : string;
  append : bool;
  offset : nat;
  closed : bool
}.

Record WAL : Type := mkWAL {
  file : option File;
  seq : Z;
  filePath : string
}.

Abbreviation Disk := (gmap string string).

(** How a write ends: completely, or with an error once the first [n] bytes
    have reached the file. *)
Inductive WriteOutcome : Type :=
| WriteAll
| WriteShort (n : nat).

(** What the world decides during one call of the store or of the log. *)
Record Env : Type := mkEnv {
  now : Z;                      (* time.Now().UnixNano() *)
  open_fails : bool;            (* os.OpenFile, opening for writing *)
  open_seq_fails : bool;        (* os.Open in getLastSequence *)
  open_rec_fails : bool;        (* os.Open in Recover, file present *)
  write_outcome : WriteOutcome; (* File.Write *)
  sync_fails : bool;            (* File.Sync *)
  close_fails : bool            (* File.Close *)
}.

(** A world in which every system call succeeds. *)
Definition calm (t : Z) : Env := mkEnv t false false false WriteAll false false.

Definition newline : ascii := ascii_of_nat 10.
Definition carriage_return : ascii := ascii_of_nat 13.
Definition nl : string := String newline EmptyString.

(** [data] written into [content] at byte [pos], the gap after a shorter
    content filled with zero bytes. *)
Definition pwrite (content : string) (pos : nat) (data : string) : string :=
  let old := list_ascii_of_string content in
  let new := list_ascii_of_string data in
  string_of_list_ascii
    (take pos (old ++ replicate (pos - List.length old) Ascii.zero)
       ++ new ++ drop (pos + List.length new) old).

(** The bytes [data] going through the handle [f]. *)
Definition store_bytes (f : File) (disk : Disk) (data : string) : File * Disk :=
  match disk !! path f with
  | None => (f, disk)     (* the file was unlinked: nothing reachable changes *)
  | Some content =>
    if append f
    then (f, <[path f := (content +:+ data)%string]> disk)
    else (mkFile (path f) false (offset f + String.length data) (closed f),
          <[path f := pwrite content (offset f) data]> disk)
  end.

Definition prefix_of (n : nat) (data : string) : string :=
  string_of_list_ascii (take n (list_ascii_of_string data)).

(** [w.file.Write(data)] *)
Definition file_Write (e : Env) (fo : option File) (disk : Disk) (data : string)
    : option error * option File * Disk :=
  match fo with
  | None => (Some ErrInvalid, None, disk)
  | Some f =>
    if closed f then (Some ErrClosed, Some f, disk)
    else
      match write_outcome e with
      | WriteAll =>
        let '(f', disk') := store_bytes f disk data in (None, Some f', disk')
      | WriteShort n =>
        let '(f', disk') := store_bytes f disk (prefix_of n data) in
        (Some ErrWrite, Some f', disk')
      end
  end.

(** [w.file.Sync()] *)
Definition file_Sync (e : Env) (fo : option File) : option error :=
  match fo with
  | None => Some ErrInvalid
  | Some f =>
    if closed f then Some ErrClosed
    else if sync_fails e then Some ErrSync else None
  end.

(** [f.Close()]: the descriptor is released whatever close(2) answers. *)
Definition file_Close (e : Env) (f : File) : option error * File :=
  if closed f then (Some ErrClosed, f)
  else (if close_fails e then Some ErrClose else None,
        mkFile (path f) (append f) (offset f) true).

(** [os.OpenFile(p, os.O_APPEND|os.O_CREATE|os.O_WRONLY, 0644)] *)
Definition open_append (e : Env) (p : string) (disk : Disk)
    : (File + error) * Disk :=
  if open_fails e then (inr ErrOpen, disk)
  else
    (inl (mkFile p true 0 false),
     match disk !! p with Some _ => disk | None => <[p := EmptyString]> disk end).

(** [os.OpenFile(p, os.O_TRUNC|os.O_CREATE|os.O_WRONLY, 0644)] *)
Definition open_trunc (e : Env) (p : string) (disk : Disk)
    : (File + error) * Disk :=
  if open_fails e then (inr ErrOpen, disk)
  else (inl (mkFile p false 0 false), <[p := EmptyString]> disk).

(** *** bufio.Scanner with the default split function and buffer *)

Definition MaxScanTokenSize : Z := 64 * 1024.

Definition dropCR (rev_line : list ascii) : list ascii :=
  match rev_line with
  | c :: r => if Ascii.eqb c carriage_return then r else rev_line
  | [] => []
  end.

Definition token (rev_line : list ascii) : string :=
  string_of_list_ascii (reverse (dropCR rev_line)).

(** The tokens [scanner.Scan] delivers on [data], and whether the scan ended
    on [ErrTooLong]: a line is delivered when its bytes before the newline (or
    the end of the file) fit the buffer with room to spare, that is when
    there are fewer than [MaxScanTokenSize] of them.  [cur] holds the bytes of
    the current line read so far, last byte first, and [n] is their number. *)
Fixpoint scan_from (cur : list ascii) (n : Z) (data : string) : list string * bool :=
  match data with
  | EmptyString => (if n =? 0 then [] else [token cur], false)
  | String c rest =>
    if Ascii.eqb c newline then
      let '(tokens, too_long) := scan_from [] 0 rest in
      (token cur :: tokens, too_long)
    else if MaxScanTokenSize <=? n + 1 then ([], true)
    else scan_from (c :: cur) (n + 1) rest
  end.

Definition scanLines (data : string) : list string * bool := scan_from [] 0 data.

Section WithJSON.

(** [encoding/json] on [WALOperation]: [json.Marshal] gives the bytes or
    fails, [json.Unmarshal] into a zero [WALOperation] gives the record or
    fails. *)
Variable json_Marshal : WALOperation -> option string.
Variable json_Unmarshal : string -> option WALOperation.

Definition getLastSequence (e : Env) (w : WAL) (disk : Disk) : Z * option error :=
  if open_seq_fails e then (0, Some ErrOpen)
  else
    match disk !! filePath w with
    | None => (0, Some ErrNotExist)
    | Some content =>
      (fold_left
         (fun lastSeq line =>
            match json_Unmarshal line with
            | Some op => if lastSeq <? Seq op then Seq op else lastSeq
            | None => lastSeq
            end)
         (scanLines content).1 0,
       None)
    end.

Definition NewWAL (e : Env) (filePath : string) (disk : Disk)
    : (WAL + error) * Disk :=
  match open_append e filePath disk with
  | (inr err, disk') => (inr err, disk')
  | (inl f, disk') =>
    let wal := mkWAL (Some f) 0 filePath in
    (inl (mkWAL (Some f) (getLastSequence e wal disk').1 filePath), disk')
  end.

Definition Log (e : Env) (w : WAL) (disk : Disk) (operation key value : string)
    : option error * WAL * Disk :=
  let seq' := wrap64 (seq w + 1) in
  let op := mkOp seq' operation key value (now e) in
  match json_Marshal op with
  | None => (Some ErrMarshal, mkWAL (file w) seq' (filePath w), disk)
  | Some data =>
    match file_Write e (file w) disk (data +:+ nl)%string with
    | (Some err, f', disk') => (Some err, mkWAL f' seq' (filePath w), disk')
    | (None, f', disk') =>
      (file_Sync e f', mkWAL f' seq' (filePath w), disk')
    end
  end.

Definition Recover (e : Env) (w : WAL) (disk : Disk)
    : list WALOperation * option error :=
  match disk !! filePath w with
  | None => ([], None)
  | Some content =>
    if open_rec_fails e then ([], Some ErrOpen)
    else
      let '(lines, too_long) := scanLines content in
      if too_long then ([], Some ErrTooLong)
      else (omap json_Unmarshal lines, None)
  end.

Definition WAL_Close (e : Env) (w : WAL) : option error * WAL :=
  match file w with
  | Some f =>
    let '(err, f') := file_Close e f in (err, mkWAL (Some f') (seq w) (filePath w))
  | None => (None, w)
  end.

Definition closeFirst (e : Env) (fo : option File) : option error * option File :=
  match fo with
  | Some f => let '(err, f') := file_Close e f in (err, Some f')
  | None => (None, None)
  end.

Definition Truncate (e : Env) (w : WAL) (disk : Disk) : option error * WAL * Disk :=
  match closeFirst e (file w) with
  | (Some err, fo) => (Some err, mkWAL fo (seq w) (filePath w), disk)
  | (None, fo) =>
    match open_trunc e (filePath w) disk with
    | (inr err, disk') => (Some err, mkWAL fo (seq w) (filePath w), disk')
    | (inl f, disk') => (None, mkWAL (Some f) 0 (filePath w), disk')
    end
  end.

(** ** db.go, and [insert] of btree.go *)

Record KDB : Type := mkKDB {
  head : Node;
  Size : Z;
  wal : option WAL
}.

Definition newKDB : KDB := mkKDB Nil 0 None.

Definition insert (db : KDB) (key : Z) (val : option string) : KDB :=
  match head db with
  | Nil => mkKDB (singleton key val) (Size db + 1) (wal db)
  | _ =>
    let '(Size', node, result) := insertKey (Size db) (head db) key val in
    if promoted result then
      mkKDB (Ref node (promotedKey result) (promotedVal result) (newRight result)
                 0 None Nil 0 None Nil 1)
            Size' (wal db)
    else mkKDB node Size' (wal db)
  end.

Fixpoint searchKey (node : Node) (key : string) : Node :=
  let hash := HashStringToInt key in
  match node with
  | Nil => Nil
  | Ref cp1 key1 rp1 cp2 key2 rp2 cp3 key3 rp3 cp4 size =>
    if (1 <=? size) && (key1 =? hash) then node
    else if (2 <=? size) && (key2 =? hash) then node
    else if (3 <=? size) && (key3 =? hash) then node
    else if (1 <=? size) && (hash <? key1) then searchKey cp1 key
    else if (2 <=? size) && (hash <? key2) then searchKey cp2 key
    else if (3 <=? size) && (hash <? key3) then searchKey cp3 key
    else searchKey cp4 key
  end.

Definition checkIsDuplicateKey (db : KDB) (key : string) : bool :=
  negb (is_nil (searchKey (head db) key)).

Definition deref (rp : option string) : string * bool :=
  match rp with
  | None => (EmptyString, false)
  | Some v => (v, true)
  end.

(** The loop of [Get], entered with [node]. *)
Fixpoint Get_from (node : Node) (hash : Z) : string * bool :=
  match node with
  | Nil => (EmptyString, false)
  | Ref cp1 key1 rp1 cp2 key2 rp2 cp3 key3 rp3 cp4 size =>
    if (1 <=? size) && (key1 =? hash) then deref rp1
    else if (2 <=? size) && (key2 =? hash) then deref rp2
    else if (3 <=? size) && (key3 =? hash) then deref rp3
    else if hash <? key1 then Get_from cp1 hash
    else if (size =? 1) || (hash <? key2) then Get_from cp2 hash
    else if (size =? 2) || (hash <? key3) then Get_from cp3 hash
    else Get_from cp4 hash
  end.

Definition Get (db : KDB) (key : string) : string * bool :=
  Get_from (head db) (HashStringToInt key).

Definition Put (e : Env) (db : KDB) (disk : Disk) (key val : string)
    : (bool * string) * KDB * Disk :=
  let hashkey := HashStringToInt key in
  if checkIsDuplicateKey db key then ((false, val), db, disk)
  else
    match wal db with
    | Some w =>
      match Log e w disk "PUT" key val with
      | (Some err, w', disk') => ((false, val), mkKDB (head db) (Size db) (Some w'), disk')
      | (None, w', disk') =>
        ((true, val), insert (mkKDB (head db) (Size db) (Some w')) hashkey (Some val), disk')
      end
    | None => ((true, val), insert db hashkey (Some val), disk)
    end.

Definition Close (e : Env) (db : KDB) : option error * KDB :=
  match wal db with
  | Some w =>
    let '(err, w') := WAL_Close e w in (err, mkKDB (head db) (Size db) (Some w'))
  | None => (None, db)
  end.

Definition Checkpoint (e : Env) (db : KDB) (disk : Disk) : option error * KDB * Disk :=
  match wal db with
  | Some w =>
    let '(err, w', disk') := Truncate e w disk in
    (err, mkKDB (head db) (Size db) (Some w'), disk')
  | None => (None, db, disk)
  end.

(** The replay loop of [recoverFromWAL]; it runs with [db.wal] set to nil. *)
Definition replay (e : Env) (db : KDB) (disk : Disk) (ops : list WALOperation) : KDB :=
  fold_left
    (fun db op =>
       if String.eqb (Operation op) "PUT"
       then (Put e db disk (Key op) (Value op)).1.2
       else db)
    ops db.

Definition recoverFromWAL (e : Env) (db : KDB) (disk : Disk) : option error * KDB :=
  match wal db with
  | None => (None, db)
  | Some w =>
    match Recover e w disk with
    | (_, Some err) => (Some err, db)
    | (ops, None) =>
      let db' := replay e (mkKDB (head db) (Size db) None) disk ops in
      (None, mkKDB (head db') (Size db') (Some w))
    end
  end.

(** When recovery fails the log is closed again and no store is returned. *)
Definition newKDBWithWAL (e : Env) (walPath : string) (disk : Disk)
    : (KDB + error) * Disk :=
  match NewWAL e walPath disk with
  | (inr err, disk') => (inr err, disk')
  | (inl w, disk') =>
    let db := mkKDB Nil 0 (Some w) in
    match recoverFromWAL e db disk' with
    | (Some err, _) => (inr err, disk')
    | (None, db') => (inl db', disk')
    end
  end.

End WithJSON.

(** ** A reference codec for the log's line format

    [encoding/json] is not part of the repository; the log is parametric in
    it.  [Wire] is the instance used to run the log on concrete files: it
    writes a record the way [json.Marshal] writes it when the three strings
    need no escaping, refuses the other records, and reads back exactly the
    lines it writes. *)
Module Wire.

Definition quote : string := String (ascii_of_nat 34) EmptyString.

Definition quoted (s : string) : string := (quote +:+ s +:+ quote)%string.

Definition dec (z : Z) : string := NilZero.string_of_int (Z.to_int z).

Definition plain_byte (c : ascii) : bool :=
  let b := byte_val c in
  (32 <=? b) && (b <? 127)
  && negb (b =? 34) && negb (b =? 92)                   (* quote, backslash *)
  && negb (b =? 60) && negb (b =? 62) && negb (b =? 38). (* < > & *)

Definition plain (s : string) : bool :=
  forallb plain_byte (list_ascii_of_string s).

Definition marshal (op : WALOperation) : option string :=
  if plain (Operation op) && plain (Key op) && plain (Value op) then
    Some ("{" +:+ quoted "seq" +:+ ":" +:+ dec (Seq op)
          +:+ "," +:+ quoted "op" +:+ ":" +:+ quoted (Operation op)
          +:+ "," +:+ quoted "key" +:+ ":" +:+ quoted (Key op)
          +:+ "," +:+ quoted "value" +:+ ":" +:+ quoted (Value op)
          +:+ "," +:+ quoted "timestamp" +:+ ":" +:+ dec (Timestamp op)
          +:+ "}")%string
  else None.

(** [s] without its prefix [pre]. *)
Fixpoint strip (pre s : string) : option string :=
  match pre, s with
  | EmptyString, _ => Some s
  | String a pre', String b s' => if Ascii.eqb a b then strip pre' s' else None
  | String _ _, EmptyString => None
  end.

(** The text before the first quote of [s], and what follows that quote. *)
Fixpoint until_quote (s : string) : option (string * string) :=
  match s with
  | EmptyString => None
  | String c s' =>
    if Ascii.eqb c (ascii_of_nat 34) then Some (EmptyString, s')
    else '(body, rest) ← until_quote s'; Some (String c body, rest)
  end.

Definition numeric (c : ascii) : bool :=
  let b := byte_val c in (b =? 45) || ((48 <=? b) && (b <=? 57)).

(** The longest prefix of [s] made of digits and minus signs, and the rest. *)
Fixpoint span_numeric (s : string) : string * string :=
  match s with
  | EmptyString => (EmptyString, EmptyString)
  | String c s' =>
    if numeric c then let '(d, rest) := span_numeric s' in (String c d, rest)
    else (EmptyString, s)
  end.

Definition read_int (s : string) : option (Z * string) :=
  let '(d, rest) := span_numeric s in
  i ← NilZero.int_of_string d;
  let z := Z.of_int i in
  if String.eqb (dec z) d then Some (z, rest) else None.

Definition read_string (s : string) : option (string * string) :=
  '(body, rest) ← until_quote s;
  if plain body then Some (body, rest) else None.

Definition unmarshal (line : string) : option WALOperation :=
  s ← strip ("{" +:+ quoted "seq" +:+ ":")%string line;
  '(sq, s) ← read_int s;
  s ← strip ("," +:+ quoted "op" +:+ ":" +:+ quote)%string s;
  '(op, s) ← read_string s;
  s ← strip ("," +:+ quoted "key" +:+ ":" +:+ quote)%string s;
  '(k, s) ← read_string s;
  s ← strip ("," +:+ quoted "value" +:+ ":" +:+ quote)%string s;
  '(v, s) ← read_string s;
  s ← strip ("," +:+ quoted "timestamp" +:+ ":")%string s;
  '(ts, s) ← read_int s;
  if String.eqb s "}" then Some (mkOp sq op k v ts) else None.

End Wire.

(** ** Observations on trees

    The traversal and the structural invariants of the data model; they are
    stated on the occupied slots of a node, the first [size] keys. *)

Definition occupied (size key1 key2 key3 : Z) : list Z :=
  take (Z.to_nat size) [key1; key2; key3].

(** Leftmost child, key1, next child, key2, next child, key3, last child. *)
Fixpoint inorder (t : Node) : list Z :=
  match t with
  | Nil => []
  | Ref cp1 key1 _ cp2 key2 _ cp3 key3 _ cp4 size =>
    inorder cp1 ++ (if 1 <=? size then [key1] else [])
    ++ inorder cp2 ++ (if 2 <=? size then [key2] else [])
    ++ inorder cp3 ++ (if 3 <=? size then [key3] else [])
    ++ inorder cp4
  end.

Fixpoint height (t : Node) : nat :=
  match t with
  | Nil => 0
  | Ref cp1 _ _ cp2 _ _ cp3 _ _ cp4 _ =>
    S (Nat.max (Nat.max (height cp1) (height cp2))
               (Nat.max (height cp3) (height cp4)))
  end.

Fixpoint increasing (l : list Z) : bool :=
  match l with
  | a :: (b :: _) as r => (a <? b) && increasing r
  | _ => true
  end.

Definition below (k : Z) (t : Node) : bool := forallb (fun x => x <? k) (inorder t).
Definition above (k : Z) (t : Node) : bool := forallb (fun x => k <? x) (inorder t).

(** The B-tree invariants of the data model: between one and three keys,
    strictly increasing; either no child at all or exactly [size + 1]
    children, in the first slots; the keys of child [i] lie below separator
    [i] and those of child [i + 1] above it. *)
Fixpoint btree_ok (t : Node) : bool :=
  match t with
  | Nil => true
  | Ref cp1 key1 _ cp2 key2 _ cp3 key3 _ cp4 size =>
    let cs := [cp1; cp2; cp3; cp4] in
    let n := Z.to_nat size in
    (1 <=? size) && (size <=? 3)
    && increasing (occupied size key1 key2 key3)
    && (forallb is_nil cs
        || (forallb (fun c => negb (is_nil c)) (take (S n) cs)
            && forallb is_nil (drop (S n) cs)))
    && below key1 cp1 && above key1 cp2
    && ((size <? 2) || (below key2 cp2 && above key2 cp3))
    && ((size <? 3) || (below key3 cp3 && above key3 cp4))
    && btree_ok cp1 && btree_ok cp2 && btree_ok cp3 && btree_ok cp4
  end.

(** The occupancy part of the invariants alone: between one and three keys,
    and either no child or exactly [size + 1] children in the first slots. *)
Fixpoint shape (t : Node) : bool :=
  match t with
  | Nil => true
  | Ref cp1 _ _ cp2 _ _ cp3 _ _ cp4 size =>
    let cs := [cp1; cp2; cp3; cp4] in
    let n := Z.to_nat size in
    (1 <=? size) && (size <=? 3)
    && (forallb is_nil cs
        || (forallb (fun c => negb (is_nil c)) (take (S n) cs)
            && forallb is_nil (drop (S n) cs)))
    && shape cp1 && shape cp2 && shape cp3 && shape cp4
  end.

(** [k] put into a list before the first element larger than it. *)
Fixpoint ins (k : Z) (l : list Z) : list Z :=
  match l with
  | [] => [k]
  | x :: r => if k <? x then k :: l else x :: ins k r
  end.

(** Non-decreasing lists. *)
Fixpoint sorted (l : list Z) : Prop :=
  match l with
  | [] => True
  | x :: r => Forall (Z.le x) r /\ sorted r
  end.

(** What a call of [insertKey] on a node with traversal [l] returns: the
    counter advanced by one and a well-shaped node; with no promotion the
    node's traversal is [l] with the key put in, with a promotion that is
    the traversal of the node, the promoted key and the new right sibling. *)
Definition post (Size key : Z) (l : list Z) (r : Z * Node * splitResult) : Prop :=
  r.1.1 = Size + 1
  /\ is_nil r.1.2 = false
  /\ shape r.1.2 = true
  /\ if promoted r.2
     then is_nil (newRight r.2) = false
          /\ shape (newRight r.2) = true
          /\ inorder r.1.2 ++ promotedKey r.2 :: inorder (newRight r.2) = ins key l
     else inorder r.1.2 = ins key l.

(** The last element of [l], if any, is at most [k]. *)
Definition ends_le (l : list Z) (k : Z) : Prop :=
  match last l with Some x => x <= k | None => True end.

(** The first element of [l], if any, is above [k]. *)
Definition starts_gt (l : list Z) (k : Z) : Prop :=
  match l with y :: _ => k < y | [] => True end.

(** The first element of [l], if any, is at least [k]. *)
Definition starts_ge (l : list Z) (k : Z) : Prop :=
  match l with y :: _ => k <= y | [] => True end.

(** [insertPromotedKey] at child [idx] of a node with room: [plug] puts a
    child into that slot, [L] and [R] are the traversal to its left and to
    its right. *)
Definition promote_ok (plug : Node -> Node) (idx : nat) (L R : list Z) : Prop :=
  forall c' pk pv nr,
    is_nil c' = false -> shape c' = true ->
    is_nil nr = false -> shape nr = true ->
    let n := insertPromotedKey (plug c') pk pv nr idx in
    is_nil n = false /\ shape n = true
    /\ inorder n = L ++ inorder c' ++ pk :: inorder nr ++ R.

(** [splitNode] at child [idx] of a full node, in the same setting. *)
Definition split_ok (plug : Node -> Node) (idx : nat) (L R : list Z) : Prop :=
  forall c' pk pv nr,
    is_nil c' = false -> shape c' = true ->
    is_nil nr = false -> shape nr = true ->
    ends_le L pk -> starts_ge R pk ->
    let r := splitNode (plug c') pk pv nr (Some idx) in
    promoted r.2 = true
    /\ is_nil r.1 = false /\ shape r.1 = true
    /\ is_nil (newRight r.2) = false /\ shape (newRight r.2) = true
    /\ inorder r.1 ++ promotedKey r.2 :: inorder (newRight r.2)
       = L ++ inorder c' ++ pk :: inorder nr ++ R.

(** Strictly increasing lists, as a proposition. *)
Fixpoint ssorted (l : list Z) : Prop :=
  match l with
  | [] => True
  | x :: r => Forall (Z.lt x) r /\ ssorted r
  end.

(** ** Runs of the store used in the statements *)

(** A [Put] on a store without a log: neither the clock nor the disk is
    consulted. *)
Definition mem_put (db : KDB) (key val : string) : (bool * string) * KDB :=
  (Put Wire.marshal (calm 0) db ∅ key val).1.

(** Successive [Put]s, with the flag each one returned. *)
Definition puts (db : KDB) (kvs : list (string * string)) : list bool * KDB :=
  fold_left
    (fun acc kv =>
       let '(r, db') := mem_put acc.2 kv.1 kv.2 in (acc.1 ++ [r.1], db'))
    kvs ([], db).

Definition inserts (db : KDB) (kvs : list (Z * option string)) : KDB :=
  fold_left (fun db kv => insert db kv.1 kv.2) kvs db.

(** The store after [Put] of a, b, c and d. *)
Definition abcd : KDB :=
  (puts newKDB [("a", "1"); ("b", "2"); ("c", "3"); ("d", "4")]).2.

(** The five [Put]s of pairwise distinct keys whose last two hash alike. *)
Definition collide : list (string * string) :=
  [("a", "1"); ("b", "2"); ("c", "3"); ("ab", "4"); ("bA", "5")].

(** ** The lines and records of a log file, as the format defines them *)

(** The pieces of [data] between separators: one more than separators. *)
Fixpoint split_on (sep : ascii) (data : list ascii) : list (list ascii) :=
  match data with
  | [] => [[]]
  | c :: r =>
    if Ascii.eqb c sep then [] :: split_on sep r
    else
      match split_on sep r with
      | p :: ps => (c :: p) :: ps
      | [] => [[c]]
      end
  end.

(** A file that ends in a newline has no line after it. *)
Fixpoint without_final_empty (pieces : list (list ascii)) : list (list ascii) :=
  match pieces with
  | [] => []
  | [[]] => []
  | p :: ps => p :: without_final_empty ps
  end.

Definition raw_lines (content : string) : list (list ascii) :=
  without_final_empty (split_on newline (list_ascii_of_string content)).

(** A line without the carriage return that may end it. *)
Definition chomp (line : list ascii) : string :=
  string_of_list_ascii
    (match reverse line with
     | c :: r => if Ascii.eqb c carriage_return then reverse r else line
     | [] => []
     end).

Definition text_lines (content : string) : list string :=
  map chomp (raw_lines content).

(** A line shorter than the scanner's buffer. *)
Definition short (l : list ascii) : bool :=
  Z.of_nat (List.length l) <? MaxScanTokenSize.

Definition short_lines (content : string) : bool :=
  forallb short (raw_lines content).

Definition well_formed_records (json_Unmarshal : string -> option WALOperation)
    (content : string) : list WALOperation :=
  omap json_Unmarshal (text_lines content).

(** The largest sequence number among [recs], and 0 if that is larger. *)
Definition max_seq (recs : list WALOperation) : Z :=
  fold_right Z.max 0 (map Seq recs).

(** The next sequence number as the format describes it: one more than the
    largest recorded one, and 1 for a file without records. *)
Definition next_seq_by_max (recs : list WALOperation) : Z :=
  match recs with
  | [] => 1
  | r :: rs => fold_right Z.max (Seq r) (map Seq rs) + 1
  end.

(** A line is safe to write when it reads back as one line: no newline in
    it, no carriage return at its end, shorter than the scanner's buffer. *)
Definition line_safe (line : string) : bool :=
  let l := list_ascii_of_string line in
  forallb (fun c => negb (Ascii.eqb c newline)) l
  && match reverse l with
     | c :: _ => negb (Ascii.eqb c carriage_return)
     | [] => true
     end
  && (Z.of_nat (List.length l) <? MaxScanTokenSize).

(** ** Concrete files *)

Definition walPath : string := "kdb.wal".

Definition line_of (op : WALOperation) : string :=
  default EmptyString (Wire.marshal op).

(** One record, with a negative sequence number. *)
Definition negative_seq_file : string :=
  (line_of (mkOp (-5) "PUT" "a" "1" 0) +:+ nl)%string.

(** A record followed by a line of [MaxScanTokenSize] bytes. *)
Definition long_line : string :=
  string_of_list_ascii (replicate (Z.to_nat MaxScanTokenSize) "x"%char).

Definition long_line_file : string :=
  (line_of (mkOp 1 "PUT" "a" "1" 0) +:+ nl +:+ long_line)%string.

Definition wal_at (p : string) : WAL := mkWAL (Some (mkFile p true 0 false)) 0 p.

(** A store with one key and a log on an empty file. *)
Definition logged_store : KDB :=
  mkKDB (singleton (HashStringToInt "k") (Some "v"%string)) 1 (Some (wal_at walPath)).

Definition failing_write : Env := mkEnv 0 false false false (WriteShort 3) false false.
Definition failing_sync : Env := mkEnv 0 false false false WriteAll true false.

(** ** Keys, entries and balance *)

(** Keys made of 7-bit bytes: every byte is a rune of its own. *)
Definition seven_bit (s : string) : bool :=
  forallb (fun c => byte_val c <? 128) (list_ascii_of_string s).

(** Key and value pointer of every occupied slot, in the order of
    [inorder]. *)
Fixpoint bindings (t : Node) : list kv :=
  match t with
  | Nil => []
  | Ref cp1 key1 rp1 cp2 key2 rp2 cp3 key3 rp3 cp4 size =>
    bindings cp1 ++ (if 1 <=? size then [(key1, rp1)] else [])
    ++ bindings cp2 ++ (if 2 <=? size then [(key2, rp2)] else [])
    ++ bindings cp3 ++ (if 3 <=? size then [(key3, rp3)] else [])
    ++ bindings cp4
  end.

(** What a call of [insertKey] leaves to its caller: the entries of the
    node, and with a promotion the promoted entry and those of the new right
    sibling. *)
Definition handed_up (r : Z * Node * splitResult) : list kv :=
  bindings r.1.2
  ++ (if promoted r.2
      then (promotedKey r.2, promotedVal r.2) :: bindings (newRight r.2)
      else []).

(** The entry that [Put] stores for a key and a value. *)
Definition entry (p : string * string) : kv := (HashStringToInt p.1, Some p.2).

(** The children in use have the same height, at every node: with [shape],
    all leaves are at the same depth. *)
Fixpoint balanced (t : Node) : bool :=
  match t with
  | Nil => true
  | Ref cp1 _ _ cp2 _ _ cp3 _ _ cp4 size =>
    forallb (fun c => Nat.eqb (height c) (height cp1))
            (take (S (Z.to_nat size)) [cp1; cp2; cp3; cp4])
    && balanced cp1 && balanced cp2 && balanced cp3 && balanced cp4
  end.

(** What a call of [insertKey] on a balanced node of height [h] returns: a
    balanced node of that height, and with a promotion a balanced right
    sibling of that height. *)
Definition level (h : nat) (r : Z * Node * splitResult) : Prop :=
  height r.1.2 = h /\ balanced r.1.2 = true
  /\ (promoted r.2 = true ->
      height (newRight r.2) = h /\ balanced (newRight r.2) = true).

(** What holds of the store whatever was put: the nodes are occupied as the
    data model says, the traversal never decreases, the tree is balanced and
    [Size] counts the keys of the tree. *)
Definition store_ok (db : KDB) : Prop :=
  shape (head db) = true
  /\ sorted (inorder (head db))
  /\ balanced (head db) = true
  /\ Size db = Z.of_nat (List.length (inorder (head db))).

(** ** The store and its log file *)

(** The content is empty or ends with a newline: every line is complete. *)
Fixpoint ends_lines (s : string) : bool :=
  match s with
  | EmptyString => true
  | String c EmptyString => Ascii.eqb c newline
  | String _ r => ends_lines r
  end.

(** The content of the file that the store's log appends to, when the
    handle is open. *)
Definition log_of (db : KDB) (disk : Disk) : option string :=
  match wal db with
  | Some w =>
    match file w with
    | Some f =>
      if append f && negb (closed f) && String.eqb (path f) (filePath w)
      then disk !! filePath w else None
    | None => None
    end
  | None => None
  end.

Section Replay.

Variable json_Marshal : WALOperation -> option string.
Variable json_Unmarshal : string -> option WALOperation.

(** The store that [recoverFromWAL] builds from a log file with this
    content. *)
Definition replayed (content : string) : KDB :=
  replay json_Marshal (calm 0) newKDB ∅ (omap json_Unmarshal (scanLines content).1).

(** The store is in step with its log: the file holds complete lines that
    the scanner accepts, and replaying them gives the tree and the [Size] of
    the store. *)
Definition in_step (db : KDB) (disk : Disk) : Prop :=
  match log_of db disk with
  | Some content =>
    ends_lines content = true
    /\ (scanLines content).2 = false
    /\ head (replayed content) = head db
    /\ Size (replayed content) = Size db
  | None => False
  end.

(** The record that [Put] hands to the log. *)
Definition put_record (e : Env) (db : KDB) (key val : string) : WALOperation :=
  mkOp (wrap64 (match wal db with Some w => seq w | None => 0 end + 1))
       "PUT" key val (now e).

(** The codec writes the record as one line that reads back as the record. *)
Definition reads_back (op : WALOperation) : Prop :=
  match json_Marshal op with
  | Some data => line_safe data = true /\ json_Unmarshal data = Some op
  | None => False
  end.

End Replay.

(** A run of [Put]s, each with what the system does at that call. *)
Definition step : Type := (Env * string * string)%type.

Definition run_end (json_Marshal : WALOperation -> option string)
    (db : KDB) (disk : Disk) (steps : list step) : KDB * Disk :=
  fold_left
    (fun st s => let r := Put json_Marshal s.1.1 st.1 st.2 s.1.2 s.2 in (r.1.2, r.2))
    steps (db, disk).

(** Every [Put] of the run answers true, and its record reads back. *)
Fixpoint committed_run (json_Marshal : WALOperation -> option string)
    (json_Unmarshal : string -> option WALOperation)
    (db : KDB) (disk : Disk) (steps : list step) : Prop :=
  match steps with
  | [] => True
  | s :: rest =>
    let r := Put json_Marshal s.1.1 db disk s.1.2 s.2 in
    reads_back json_Marshal json_Unmarshal (put_record s.1.1 db s.1.2 s.2)
    /\ r.1.1 = (true, s.2)
    /\ committed_run json_Marshal json_Unmarshal r.1.2 r.2 rest
  end.

(** The store has a log and the log cannot write: its handle is closed, or
    it has none. *)
Definition log_shut (db : KDB) : bool :=
  match wal db with
  | Some w => match file w with Some f => closed f | None => true end
  | None => false
  end.

(** The flags that the [Put]s of a run return. *)
Fixpoint run_flags (json_Marshal : WALOperation -> option string)
    (db : KDB) (disk : Disk) (steps : list step) : list bool :=
  match steps with
  | [] => []
  | s :: rest =>
    let r := Put json_Marshal s.1.1 db disk s.1.2 s.2 in
    r.1.1.1 :: run_flags json_Marshal r.1.2 r.2 rest
  end.

(** ** Concrete stores *)

(** The store right after it was opened on a path without a file. *)
Definition fresh_store : KDB := mkKDB Nil 0 (Some (wal_at walPath)).

Definition fresh_disk : Disk := {[walPath := EmptyString]}.

(** The store that [newKDBWithWAL] returned, if it returned one. *)
Definition opened (r : (KDB + error) * Disk) : KDB :=
  match r.1 with inl db => db | inr _ => newKDB end.

Definition three_puts : list step :=
  [(calm 1, "a", "1"); (calm 2, "b", "2"); (calm 3, "c", "3")].


(** An open that is refused. *)
Definition open_refused : Env := mkEnv 0 true false false WriteAll false false.


(** * Properties *)

(** Conjunctions are taken apart and closed facts are settled by running
    the definitions. *)
Ltac conjuncts := repeat match goal with |- _ /\ _ => split end.
Ltac run := vm_compute; first [reflexivity | tauto].

(** ** The B-tree *)

(** C5. Inserting the keys 1, 2, 3, 4 in this order into an empty tree gives
    a tree of height 2 whose root holds the single key 2, whose left leaf
    holds 1 and whose right leaf holds 3 and 4; the traversal is
    [1; 2; 3; 4] and [Size] is 4. *)
Theorem split_correctness (v1 v2 v3 v4 : option string) :
  let db := inserts newKDB [(1, v1); (2, v2); (3, v3); (4, v4)] in
  head db = Ref (singleton 1 v1) 2 v2
                (Ref Nil 3 v3 Nil 4 v4 Nil 0 None Nil 2)
                0 None Nil 0 None Nil 1
  /\ isLeaf (singleton 1 v1) = true
  /\ isLeaf (Ref Nil 3 v3 Nil 4 v4 Nil 0 None Nil 2) = true
  /\ height (head db) = 2%nat
  /\ inorder (head db) = [1; 2; 3; 4]
  /\ Size db = 4.
Proof. cbv zeta. conjuncts; reflexivity. Qed.

(** C10. "ab" and "bA" are distinct keys with the same hash; on an empty
    store the first [Put] is committed, the second is rejected as a
    duplicate, and reading the second key yields the first key's value. *)
Theorem hash_collision_conflation
    (json_Marshal : WALOperation -> option string)
    (e1 e2 : Env) (disk : Disk) (v1 v2 : string) :
  "ab"%string <> "bA"%string
  /\ HashStringToInt "ab" = HashStringToInt "bA"
  /\ exists db1,
       Put json_Marshal e1 newKDB disk "ab" v1 = ((true, v1), db1, disk)
       /\ Put json_Marshal e2 db1 disk "bA" v2 = ((false, v2), db1, disk)
       /\ Get db1 "bA" = (v1, true).
Proof.
  split; [discriminate|]. split; [reflexivity|].
  eexists. conjuncts; reflexivity.
Qed.

(** C2, at the failing input. The tree built by putting a, b, c and d
    satisfies the invariants and stores the hash of "c" in its right leaf, and
    [searchKey] answers nil for "c": at the root, which has one key, a larger
    hash is looked for under [cp4] instead of [cp2]. *)
Theorem searchKey_misses_stored_key :
  btree_ok (head abcd) = true
  /\ In (HashStringToInt "c") (inorder (head abcd))
  /\ Get abcd "c" = ("3"%string, true)
  /\ searchKey (head abcd) "c" = Nil.
Proof.
  conjuncts; run.
Qed.

(** C1, at the failing input. After a, b, c and d have been put, the hash of
    "c" is stored in the tree, and a second [Put] of "c" is committed: it
    returns true and the tree grows to five keys, two of them equal. *)
Theorem duplicate_put_accepted :
  In (HashStringToInt "c") (inorder (head abcd))
  /\ exists db',
       mem_put abcd "c" "x" = ((true, "x"%string), db')
       /\ Size db' = 5
       /\ inorder (head db') =
            [HashStringToInt "a"; HashStringToInt "b"; HashStringToInt "c";
             HashStringToInt "c"; HashStringToInt "d"].
Proof.
  split; [run|].
  eexists. conjuncts; run.
Qed.

(** C3, at the failing input. The five keys a, b, c, ab, bA are pairwise
    distinct and every one of their [Put]s is committed, yet the traversal of
    the resulting tree repeats the common hash of "ab" and "bA". *)
Theorem ordering_broken_by_collision :
  NoDup (map fst collide)
  /\ (puts newKDB collide).1 = [true; true; true; true; true]
  /\ inorder (head (puts newKDB collide).2) =
       [177670; 177671; 177672; 5863208; 5863208]
  /\ increasing (inorder (head (puts newKDB collide).2)) = false.
Proof.
  split; [compute_done|]. conjuncts; run.
Qed.

(** ** Insertion keeps the traversal ordered

    The traversal of the tree after [insert] is the traversal before it with
    the key put in at its place.  The proof follows the recursion of
    [insertKey]: lists first, then a leaf, then the step back from a child,
    then the induction on the tree. *)

(** *** Ordered lists *)

Lemma sorted_app (l1 l2 : list Z) :
  sorted (l1 ++ l2)
  <-> sorted l1 /\ sorted l2 /\ Forall (fun x => Forall (Z.le x) l2) l1.
Proof.
  induction l1 as [|a l1 IH]; simpl.
  - intuition constructor.
  - rewrite IH, Forall_app, Forall_cons. tauto.
Qed.

(** The key goes before a separator above it. *)
Lemma ins_before (k x : Z) (l1 l2 : list Z) :
  k < x -> ins k (l1 ++ x :: l2) = ins k l1 ++ x :: l2.
Proof.
  intros H. induction l1 as [|a l1 IH]; simpl.
  - apply Z.ltb_lt in H. rewrite H. reflexivity.
  - destruct (k <? a); [reflexivity|]. rewrite IH. reflexivity.
Qed.

(** The key goes past a prefix that does not exceed it. *)
Lemma ins_after (k : Z) (l1 l2 : list Z) :
  Forall (fun a => a <= k) l1 -> ins k (l1 ++ l2) = l1 ++ ins k l2.
Proof.
  induction l1 as [|a l1 IH]; intros H; [reflexivity|].
  apply Forall_cons in H as [Ha H]. simpl.
  replace (k <? a) with false by (symmetry; apply Z.ltb_ge; lia).
  rewrite IH by assumption. reflexivity.
Qed.

Lemma Forall_ins (P : Z -> Prop) (k : Z) (l : list Z) :
  Forall P (ins k l) <-> P k /\ Forall P l.
Proof.
  induction l as [|a l IH]; simpl.
  - rewrite Forall_cons. tauto.
  - destruct (k <? a); rewrite !Forall_cons, ?IH; tauto.
Qed.

Lemma sorted_ins (k : Z) (l : list Z) : sorted l -> sorted (ins k l).
Proof.
  induction l as [|a l IH]; simpl; intros H.
  - split; constructor.
  - destruct H as [Ha Hl]. destruct (Z.ltb_spec k a); simpl.
    + split; [|tauto]. constructor; [lia|].
      eapply Forall_impl; [exact Ha|]. simpl. intros. lia.
    + split; [|auto]. apply Forall_ins. split; [lia|exact Ha].
Qed.

Lemma sorted_tail (l1 l2 : list Z) : sorted (l1 ++ l2) -> sorted l2.
Proof. rewrite sorted_app. tauto. Qed.

Lemma sorted_head (l1 l2 : list Z) : sorted (l1 ++ l2) -> sorted l1.
Proof. rewrite sorted_app. tauto. Qed.

Lemma sorted_cons_tail (x : Z) (l : list Z) : sorted (x :: l) -> sorted l.
Proof. simpl. tauto. Qed.

Lemma sorted_step (l1 l2 : list Z) (x y : Z) :
  sorted (l1 ++ x :: l2) -> In y l2 -> x <= y.
Proof.
  intros H Hy. apply sorted_tail in H. destruct H as [H _].
  rewrite List.Forall_forall in H. auto.
Qed.

(** *** One call of [insertKey] *)

(** The body of [insertKey] on a node, the leaf test written out. *)
Lemma insertKey_eq Size cp1 k1 r1 cp2 k2 r2 cp3 k3 r3 cp4 size key val :
  insertKey Size (Ref cp1 k1 r1 cp2 k2 r2 cp3 k3 r3 cp4 size) key val =
    if is_nil cp1 && is_nil cp2 && is_nil cp3 && is_nil cp4 then
      if size <? 3 then
        (Size + 1,
         insertKeyIntoNode (Ref cp1 k1 r1 cp2 k2 r2 cp3 k3 r3 cp4 size) key val,
         noSplit)
      else
        let '(node', up) :=
          splitNode (Ref cp1 k1 r1 cp2 k2 r2 cp3 k3 r3 cp4 size) key val Nil None in
        (Size + 1, node', up)
    else if key <? k1 then
      afterDescent Size size cp1 (insertKey Size cp1 key val)
        (fun c => Ref c k1 r1 cp2 k2 r2 cp3 k3 r3 cp4 size) 0 key val
    else if (size =? 1) || (key <? k2) then
      afterDescent Size size cp2 (insertKey Size cp2 key val)
        (fun c => Ref cp1 k1 r1 c k2 r2 cp3 k3 r3 cp4 size) 1 key val
    else if (size =? 2) || (key <? k3) then
      afterDescent Size size cp3 (insertKey Size cp3 key val)
        (fun c => Ref cp1 k1 r1 cp2 k2 r2 c k3 r3 cp4 size) 2 key val
    else
      afterDescent Size size cp4 (insertKey Size cp4 key val)
        (fun c => Ref cp1 k1 r1 cp2 k2 r2 cp3 k3 r3 c size) 3 key val.
Proof. reflexivity. Qed.

(** Case analysis on every comparison of the goal. *)
Ltac cmp :=
  repeat match goal with
  | |- context [?a <? ?b] => destruct (Z.ltb_spec a b); try lia
  end.

(** The keys of the four sorted items of [splitNode] are the three keys of
    the node with the new key put in. *)
Lemma sort4 (k1 k2 k3 p : Z) (r1 r2 r3 v : option string) :
  k1 <= k2 -> k2 <= k3 ->
  exists x1 x2 x3 x4,
    ins p [k1; k2; k3] = [x1; x2; x3; x4]
    /\ map fst (sortSlice (fun a b : kv => a.1 <? b.1)
                  [(k1, r1); (k2, r2); (k3, r3); (p, v)]) = [x1; x2; x3; x4].
Proof.
  intros H12 H23. unfold sortSlice. simpl.
  repeat (progress (cmp; simpl)); do 4 eexists; split; reflexivity.
Qed.

Lemma item_key (items : list kv) (i : nat) :
  (item items i).1 = nth i (map fst items) 0.
Proof. symmetry. exact (map_nth fst items (0, None) i). Qed.

(** Insertion into a leaf, with room or with a split. *)
Lemma leaf_post Size key val k1 r1 k2 r2 k3 r3 size :
  1 <= size <= 3 ->
  sorted (inorder (Ref Nil k1 r1 Nil k2 r2 Nil k3 r3 Nil size)) ->
  post Size key (inorder (Ref Nil k1 r1 Nil k2 r2 Nil k3 r3 Nil size))
       (insertKey Size (Ref Nil k1 r1 Nil k2 r2 Nil k3 r3 Nil size) key val).
Proof.
  intros Hsz Hs.
  assert (Hc : size = 1 \/ size = 2 \/ size = 3) by lia.
  destruct Hc as [-> | [-> | ->]]; simpl in Hs; rewrite ?Forall_cons in Hs.
  - unfold post. simpl. cmp; simpl; auto.
  - unfold post. simpl. cmp; simpl; auto.
  - destruct (sort4 k1 k2 k3 key r1 r2 r3 val) as (x1 & x2 & x3 & x4 & HE & HK);
      [tauto..|].
    unfold post. cbn -[sortSlice ins]. rewrite !item_key, HK, HE. simpl.
    conjuncts; reflexivity.
Qed.

(** *** Back from a child *)

Lemma sorted_all_le_last (l : list Z) (k : Z) :
  sorted l -> ends_le l k -> Forall (fun a => a <= k) l.
Proof.
  unfold ends_le. destruct l as [|a l] using rev_ind; [constructor|].
  rewrite last_snoc. intros Hs Hk. apply Forall_app. split.
  - apply sorted_app in Hs as (_ & _ & H).
    eapply Forall_impl; [exact H|]. simpl. intros b Hb.
    apply Forall_cons in Hb as [Hb _]. lia.
  - constructor; [exact Hk|constructor].
Qed.

(** The key belongs to the middle part of a list when the part before ends
    at or below it and the part after starts above it. *)
Lemma ins_middle (k : Z) (L M R : list Z) :
  sorted (L ++ M ++ R) -> ends_le L k -> starts_gt R k ->
  ins k (L ++ M ++ R) = L ++ ins k M ++ R.
Proof.
  intros Hs HL HR.
  rewrite ins_after by (apply sorted_all_le_last; [eapply sorted_head; exact Hs|exact HL]).
  f_equal. destruct R as [|y R]; simpl in HR.
  - rewrite !app_nil_r. reflexivity.
  - apply ins_before. exact HR.
Qed.

(** A promoted key lies between the separators around its child. *)
Lemma middle_bounds (p : Z) (L M1 M2 R : list Z) :
  sorted (L ++ M1 ++ p :: M2 ++ R) -> ends_le L p /\ starts_ge R p.
Proof.
  intros Hs. split.
  - unfold ends_le. destruct L as [|a L] using rev_ind; [exact I|].
    rewrite last_snoc. rewrite <- app_assoc in Hs. simpl in Hs.
    eapply sorted_step; [exact Hs|]. apply in_or_app. right. left. reflexivity.
  - destruct R as [|y R]; [exact I|]. simpl.
    rewrite app_assoc in Hs. eapply sorted_step; [exact Hs|].
    apply in_or_app. right. left. reflexivity.
Qed.

(** What [afterDescent] returns, from what the recursive call on the child
    returned. *)
Lemma descent_post (Size key : Z) (val : option string) (size : Z) (c : Node)
    (plug : Node -> Node) (idx : nat) (L R : list Z) :
  is_nil c = false ->
  post Size key (inorder c) (insertKey Size c key val) ->
  sorted (L ++ inorder c ++ R) ->
  (forall c', inorder (plug c') = L ++ inorder c' ++ R) ->
  (forall c', is_nil c' = false -> shape c' = true ->
              is_nil (plug c') = false /\ shape (plug c') = true) ->
  ends_le L key -> starts_gt R key ->
  (size < 3 -> promote_ok plug idx L R) ->
  (3 <= size -> split_ok plug idx L R) ->
  post Size key (L ++ inorder c ++ R)
       (afterDescent Size size c (insertKey Size c key val) plug idx key val).
Proof.
  intros Hnil Hpost Hs Hin Hshape HL HR Hprom Hsplit.
  unfold afterDescent. rewrite Hnil.
  destruct (insertKey Size c key val) as [[S' c'] res].
  unfold post in Hpost. simpl in Hpost.
  destruct Hpost as (-> & Hn & Hsh & Hrest).
  pose proof (ins_middle key L (inorder c) R Hs HL HR) as Hmid.
  destruct (promoted res) eqn:Hp; simpl.
  - destruct Hrest as (Hnr & Hshr & Heq).
    assert (HE : L ++ inorder c' ++ promotedKey res :: inorder (newRight res) ++ R
                 = ins key (L ++ inorder c ++ R)).
    { rewrite Hmid, <- Heq, <- app_assoc. reflexivity. }
    destruct (Z.ltb_spec size 3) as [Hlt|Hge].
    + destruct (Hprom Hlt c' (promotedKey res) (promotedVal res) (newRight res)
                  Hn Hsh Hnr Hshr) as (H1 & H2 & H3).
      unfold post. simpl. rewrite H3. conjuncts; auto.
    + assert (Hb : sorted (L ++ inorder c' ++ promotedKey res
                             :: inorder (newRight res) ++ R))
        by (rewrite HE; apply sorted_ins; exact Hs).
      apply middle_bounds in Hb as [Hb1 Hb2].
      pose proof (Hsplit Hge c' (promotedKey res) (promotedVal res) (newRight res)
                    Hn Hsh Hnr Hshr Hb1 Hb2) as Hsp.
      destruct (splitNode (plug c') (promotedKey res) (promotedVal res)
                  (newRight res) (Some idx)) as [n up].
      simpl in Hsp. destruct Hsp as (Hup & H1 & H2 & H3 & H4 & H5).
      unfold post. simpl. rewrite Hup, H5. conjuncts; auto.
  - destruct (Hshape c' Hn Hsh) as [H1 H2].
    unfold post. simpl. rewrite Hin, Hrest. conjuncts; auto.
Qed.

(** Lists brought to right-nested form. *)
Ltac flat := repeat progress (simpl; rewrite <- ?app_assoc, ?app_nil_r).

(** Rewriting with the known facts on children. *)
Ltac use_facts :=
  repeat match goal with
  | H : is_nil _ = _ |- _ => rewrite H
  | H : shape _ = true |- _ => rewrite H
  end.

(** A well-shaped node is a leaf, or has one, two or three keys and one
    child more. *)
Lemma shape_inv cp1 k1 r1 cp2 k2 r2 cp3 k3 r3 cp4 size :
  shape (Ref cp1 k1 r1 cp2 k2 r2 cp3 k3 r3 cp4 size) = true ->
  shape cp1 = true /\ shape cp2 = true /\ shape cp3 = true /\ shape cp4 = true
  /\ ((cp1 = Nil /\ cp2 = Nil /\ cp3 = Nil /\ cp4 = Nil /\ 1 <= size <= 3)
      \/ (size = 1 /\ is_nil cp1 = false /\ is_nil cp2 = false
          /\ cp3 = Nil /\ cp4 = Nil)
      \/ (size = 2 /\ is_nil cp1 = false /\ is_nil cp2 = false
          /\ is_nil cp3 = false /\ cp4 = Nil)
      \/ (size = 3 /\ is_nil cp1 = false /\ is_nil cp2 = false
          /\ is_nil cp3 = false /\ is_nil cp4 = false)).
Proof.
  simpl. rewrite !andb_true_iff, Z.leb_le, Z.leb_le.
  intros ((((([H1 H2] & H3) & S1) & S2) & S3) & S4).
  do 4 (split; [assumption|]).
  assert (Hc : size = 1 \/ size = 2 \/ size = 3) by lia.
  destruct Hc as [-> | [-> | ->]]; simpl in H3;
    destruct cp1, cp2, cp3, cp4; simpl in H3; try discriminate;
    intuition (auto; lia).
Qed.

Arguments sortSlice : simpl never.

Lemma sorted_keys3 (a b c d : list Z) (x y z : Z) :
  sorted (a ++ x :: b ++ y :: c ++ z :: d) -> x <= y /\ y <= z.
Proof.
  intros H. split.
  - eapply sorted_step; [exact H|]. apply in_or_app. right. left. reflexivity.
  - apply sorted_tail, sorted_cons_tail in H.
    eapply sorted_step; [exact H|]. apply in_or_app. right. left. reflexivity.
Qed.

(** The two side conditions of [descent_post], by running
    [insertPromotedKey] and [splitNode] on the node at hand. *)
Ltac solve_promote :=
  intros ? ? ? ? ? ? ? ?; cbv zeta; simpl;
  conjuncts; [reflexivity | use_facts; reflexivity | flat; reflexivity].

Ltac solve_split k1 k2 k3 r1 r2 r3 :=
  let x1 := fresh "x" in let x2 := fresh "x" in
  let x3 := fresh "x" in let x4 := fresh "x" in
  let HE4 := fresh "HE" in let HK := fresh "HK" in
  let HLb := fresh "HLb" in let HRb := fresh "HRb" in
  intros c' pk pv nr ? ? ? ? HLb HRb;
  destruct (sort4 k1 k2 k3 pk r1 r2 r3 pv) as (x1 & x2 & x3 & x4 & HE4 & HK);
  [lia..|];
  unfold ends_le in HLb; rewrite ?last_snoc in HLb; simpl in HLb, HRb;
  cbv beta zeta; unfold splitNode, shiftIn, childAt; simpl;
  rewrite !item_key, HK; simpl;
  simpl in HE4; revert HE4; cmp; intros HE4;
  injection HE4 as <- <- <- <-;
  (conjuncts;
   [reflexivity | reflexivity | use_facts; reflexivity
   | reflexivity | use_facts; reflexivity
   | flat; repeat f_equal; lia]).

(** The step into the child between [Lc] and [Rc]. *)
Ltac descend IHc Nc Sc Lc Rc k1 k2 k3 r1 r2 r3 :=
  lazymatch goal with
  | |- post _ _ (inorder ?NODE) (afterDescent _ _ ?c _ _ _ _ _) =>
    let HE := fresh "HE" in
    assert (HE : inorder NODE = Lc ++ inorder c ++ Rc) by (flat; reflexivity);
    rewrite HE in *;
    apply descent_post;
    [ exact Nc
    | apply IHc;
      [exact Nc | exact Sc | apply (sorted_head _ Rc), (sorted_tail Lc); assumption]
    | assumption
    | intros; flat; reflexivity
    | intros; split; [reflexivity | simpl; use_facts; reflexivity]
    | unfold ends_le; rewrite ?last_snoc; simpl; first [exact I | lia]
    | simpl; first [exact I | lia]
    | intros ?; first [lia | solve_promote]
    | intros ?; first [lia | solve_split k1 k2 k3 r1 r2 r3] ]
  end.

(** *** The induction *)

Lemma insertKey_post (Size key : Z) (val : option string) (node : Node) :
  is_nil node = false -> shape node = true -> sorted (inorder node) ->
  post Size key (inorder node) (insertKey Size node key val).
Proof.
  induction node as [|cp1 IH1 k1 r1 cp2 IH2 k2 r2 cp3 IH3 k3 r3 cp4 IH4 size];
    intros Hnil Hshape Hs; [discriminate|].
  apply shape_inv in Hshape as (S1 & S2 & S3 & S4 & Hcases).
  destruct Hcases as [(-> & -> & -> & -> & Hsz)
                     | [(-> & N1 & N2 & -> & ->)
                     | [(-> & N1 & N2 & N3 & ->)
                     | (-> & N1 & N2 & N3 & N4)]]].
  - apply leaf_post; assumption.
  - clear IH3 IH4. rewrite insertKey_eq, N1. simpl andb. cbv iota.
    destruct (Z.ltb_spec key k1) as [Hk1|Hk1].
    + descend IH1 N1 S1 (@nil Z) (k1 :: inorder cp2) k1 k2 k3 r1 r2 r3.
    + simpl orb. cbv iota.
      descend IH2 N2 S2 (inorder cp1 ++ [k1]) (@nil Z) k1 k2 k3 r1 r2 r3.
  - clear IH4. rewrite insertKey_eq, N1. simpl andb. cbv iota.
    destruct (Z.ltb_spec key k1) as [Hk1|Hk1].
    + descend IH1 N1 S1 (@nil Z) (k1 :: inorder cp2 ++ k2 :: inorder cp3)
        k1 k2 k3 r1 r2 r3.
    + simpl orb. destruct (Z.ltb_spec key k2) as [Hk2|Hk2].
      * descend IH2 N2 S2 (inorder cp1 ++ [k1]) (k2 :: inorder cp3)
          k1 k2 k3 r1 r2 r3.
      * simpl orb. cbv iota.
        descend IH3 N3 S3 ((inorder cp1 ++ k1 :: inorder cp2) ++ [k2]) (@nil Z)
          k1 k2 k3 r1 r2 r3.
  - rewrite insertKey_eq, N1. simpl andb. cbv iota.
    assert (Hord : k1 <= k2 /\ k2 <= k3).
    { simpl in Hs. eapply sorted_keys3. exact Hs. }
    destruct (Z.ltb_spec key k1) as [Hk1|Hk1].
    + descend IH1 N1 S1 (@nil Z)
        (k1 :: inorder cp2 ++ k2 :: inorder cp3 ++ k3 :: inorder cp4)
        k1 k2 k3 r1 r2 r3.
    + simpl orb. destruct (Z.ltb_spec key k2) as [Hk2|Hk2].
      * descend IH2 N2 S2 (inorder cp1 ++ [k1])
          (k2 :: inorder cp3 ++ k3 :: inorder cp4) k1 k2 k3 r1 r2 r3.
      * simpl orb. destruct (Z.ltb_spec key k3) as [Hk3|Hk3].
        -- descend IH3 N3 S3 ((inorder cp1 ++ k1 :: inorder cp2) ++ [k2])
             (k3 :: inorder cp4) k1 k2 k3 r1 r2 r3.
        -- descend IH4 N4 S4
             ((inorder cp1 ++ k1 :: inorder cp2 ++ k2 :: inorder cp3) ++ [k3])
             (@nil Z) k1 k2 k3 r1 r2 r3.
Qed.

(** [insert] puts the key at its place in the traversal, whether the tree
    holds equal keys or not. *)
Lemma insert_inorder (db : KDB) (key : Z) (val : option string) :
  shape (head db) = true -> sorted (inorder (head db)) ->
  shape (head (insert db key val)) = true
  /\ inorder (head (insert db key val)) = ins key (inorder (head db))
  /\ Size (insert db key val) = Size db + 1
  /\ wal (insert db key val) = wal db.
Proof.
  intros Hsh Hs. unfold insert.
  destruct (head db) as [|cp1 k1 r1 cp2 k2 r2 cp3 k3 r3 cp4 size] eqn:Hh.
  - simpl. auto.
  - rewrite <- Hh in *.
    assert (Hn : is_nil (head db) = false) by (rewrite Hh; reflexivity).
    pose proof (insertKey_post (Size db) key val (head db) Hn Hsh Hs) as Hp.
    destruct (insertKey (Size db) (head db) key val) as [[S' n'] res].
    unfold post in Hp. simpl in Hp. destruct Hp as (-> & Hn' & Hsh' & Hrest).
    destruct (promoted res); simpl.
    + destruct Hrest as (Hnr & Hshr & Heq). rewrite Hn', Hnr, Hsh', Hshr.
      simpl. rewrite <- Heq. flat. auto.
    + auto.
Qed.

(** *** Strict order *)

Lemma increasing_sorted (l : list Z) : increasing l = true -> sorted l.
Proof.
  induction l as [|a l IH]; [exact (fun _ => I)|].
  intros H. assert (Hl : increasing l = true).
  { destruct l; [reflexivity|]. simpl in H. apply andb_true_iff in H. tauto. }
  specialize (IH Hl). split; [|exact IH].
  destruct l as [|b l]; [constructor|].
  simpl in H. apply andb_true_iff in H as [Hab _]. apply Z.ltb_lt in Hab.
  constructor; [lia|]. destruct IH as [Hb _].
  eapply Forall_impl; [exact Hb|]. simpl. intros. lia.
Qed.

Lemma increasing_ins (k : Z) (l : list Z) :
  increasing l = true -> ~ In k l -> increasing (ins k l) = true.
Proof.
  induction l as [|a l IH]; [reflexivity|].
  intros H Hk.
  assert (Hl : increasing l = true).
  { destruct l; [reflexivity|]. simpl in H. apply andb_true_iff in H. tauto. }
  specialize (IH Hl (fun Hin => Hk (or_intror Hin))).
  simpl ins. destruct (Z.ltb_spec k a) as [Hlt|Hge].
  - change (increasing (k :: a :: l)) with ((k <? a) && increasing (a :: l)).
    rewrite H. apply andb_true_iff. split; [apply Z.ltb_lt; lia|reflexivity].
  - assert (a < k) by (assert (a <> k) by (intros ->; apply Hk; left; reflexivity); lia).
    destruct l as [|b l]; simpl.
    + apply andb_true_iff. split; [apply Z.ltb_lt; lia|reflexivity].
    + simpl in IH, H. apply andb_true_iff in H as [Hab Hbl].
      destruct (k <? b); apply andb_true_iff; (split; [|exact IH]);
        [apply Z.ltb_lt; lia|exact Hab].
Qed.

Lemma ins_perm (k : Z) (l : list Z) : ins k l ≡ₚ k :: l.
Proof.
  induction l as [|a l IH]; simpl; [reflexivity|].
  destruct (k <? a); [reflexivity|]. rewrite IH. apply Permutation_swap.
Qed.

(** [searchKey] only finds what is stored. *)
Lemma searchKey_found (t : Node) (key : string) :
  is_nil (searchKey t key) = false -> In (HashStringToInt key) (inorder t).
Proof.
  induction t as [|cp1 IH1 k1 r1 cp2 IH2 k2 r2 cp3 IH3 k3 r3 cp4 IH4 size];
    intros H; [discriminate|].
  simpl in H. simpl inorder.
  repeat match type of H with
  | context [if ?b then _ else _] => destruct b eqn:?
  end;
  repeat match goal with
  | E : _ && _ = true |- _ => apply andb_true_iff in E as [? ?]
  | E : (_ =? _) = true |- _ => apply Z.eqb_eq in E
  end; subst;
  repeat match goal with
  | E : (?a <=? ?b) = true |- _ => rewrite E
  end;
  rewrite ?in_app_iff; simpl; rewrite ?in_app_iff; auto 20.
Qed.

(** The part of C2 that holds: a key whose hash is in no node is reported
    absent. *)
Theorem searchKey_absent (t : Node) (key : string) :
  ~ In (HashStringToInt key) (inorder t) -> searchKey t key = Nil.
Proof.
  intros H. destruct (searchKey t key) eqn:Hs; [reflexivity|].
  exfalso. apply H, searchKey_found. rewrite Hs. reflexivity.
Qed.

(** *** Runs of insertions *)

Lemma inserts_inv (kvs : list (Z * option string)) :
  forall db,
    shape (head db) = true ->
    increasing (inorder (head db)) = true ->
    NoDup (map fst kvs ++ inorder (head db)) ->
    let db' := inserts db kvs in
    shape (head db') = true
    /\ increasing (inorder (head db')) = true
    /\ inorder (head db') ≡ₚ map fst kvs ++ inorder (head db)
    /\ Size db' = Size db + Z.of_nat (List.length kvs).
Proof.
  induction kvs as [|[k v] kvs IH]; intros db Hsh Hinc Hnd.
  - simpl. split; [assumption|]. split; [assumption|]. split; [reflexivity|lia].
  - simpl in Hnd. apply NoDup_cons in Hnd as [Hk Hnd].
    rewrite elem_of_app, !list_elem_of_In in Hk.
    destruct (insert_inorder db k v Hsh (increasing_sorted _ Hinc))
      as (Hsh' & Hin' & Hsz' & _).
    assert (Hinc' : increasing (inorder (head (insert db k v))) = true)
      by (rewrite Hin'; apply increasing_ins; tauto).
    assert (Hnd' : NoDup (map fst kvs ++ inorder (head (insert db k v)))).
    { rewrite Hin', ins_perm. apply NoDup_app in Hnd as (H1 & H2 & H3).
      apply NoDup_app. split; [exact H1|]. split.
      - intros x Hx. rewrite not_elem_of_cons. split; [|auto].
        intros ->. apply Hk. left. apply list_elem_of_In. exact Hx.
      - apply NoDup_cons. split; [|exact H3].
        rewrite list_elem_of_In. tauto. }
    destruct (IH (insert db k v) Hsh' Hinc' Hnd') as (H1 & H2 & H3 & H4).
    simpl. split; [exact H1|]. split; [exact H2|]. split.
    + rewrite H3, Hin', ins_perm. symmetry. apply Permutation_middle.
    + rewrite H4, Hsz'. simpl List.length. lia.
Qed.

(** A [Put] whose hash is not in the tree is committed. *)
Lemma mem_put_fresh (db : KDB) (key val : string) :
  wal db = None ->
  ~ In (HashStringToInt key) (inorder (head db)) ->
  mem_put db key val = ((true, val), insert db (HashStringToInt key) (Some val)).
Proof.
  intros Hw Hk. unfold mem_put, Put, checkIsDuplicateKey.
  destruct (is_nil (searchKey (head db) key)) eqn:Hs.
  - simpl. rewrite Hw. reflexivity.
  - apply searchKey_found in Hs. contradiction.
Qed.

Lemma puts_inv (kvs : list (string * string)) :
  forall (flags : list bool) (db : KDB),
    wal db = None ->
    shape (head db) = true ->
    increasing (inorder (head db)) = true ->
    NoDup (map (fun kv => HashStringToInt kv.1) kvs ++ inorder (head db)) ->
    let r := fold_left
               (fun acc kv =>
                  let '(r, db') := mem_put acc.2 kv.1 kv.2 in (acc.1 ++ [r.1], db'))
               kvs (flags, db) in
    r.1 = flags ++ replicate (List.length kvs) true
    /\ shape (head r.2) = true
    /\ increasing (inorder (head r.2)) = true
    /\ inorder (head r.2)
       ≡ₚ map (fun kv => HashStringToInt kv.1) kvs ++ inorder (head db)
    /\ Size r.2 = Size db + Z.of_nat (List.length kvs).
Proof.
  induction kvs as [|[k v] kvs IH]; intros flags db Hw Hsh Hinc Hnd.
  - simpl. rewrite app_nil_r. repeat (split; [first [assumption|reflexivity]|]). lia.
  - simpl in Hnd. apply NoDup_cons in Hnd as [Hk Hnd].
    rewrite elem_of_app, !list_elem_of_In in Hk.
    destruct (insert_inorder db (HashStringToInt k) (Some v) Hsh
                (increasing_sorted _ Hinc)) as (Hsh' & Hin' & Hsz' & Hw').
    set (db1 := insert db (HashStringToInt k) (Some v)) in *.
    assert (Hinc' : increasing (inorder (head db1)) = true)
      by (rewrite Hin'; apply increasing_ins; tauto).
    assert (Hnd' : NoDup (map (fun kv => HashStringToInt kv.1) kvs
                            ++ inorder (head db1))).
    { rewrite Hin', ins_perm. apply NoDup_app in Hnd as (H1 & H2 & H3).
      apply NoDup_app. split; [exact H1|]. split.
      - intros x Hx. rewrite not_elem_of_cons. split; [|auto].
        intros ->. apply Hk. left. apply list_elem_of_In. exact Hx.
      - apply NoDup_cons. split; [|exact H3].
        rewrite list_elem_of_In. tauto. }
    rewrite Hw in Hw'.
    simpl fold_left. rewrite mem_put_fresh by tauto. fold db1.
    destruct (IH (flags ++ [true]) db1 Hw' Hsh' Hinc' Hnd')
      as (H1 & H2 & H3 & H4 & H5).
    simpl. split; [rewrite H1, <- app_assoc; reflexivity|].
    split; [exact H2|]. split; [exact H3|]. split.
    + rewrite H4, Hin', ins_perm. symmetry. apply Permutation_middle.
    + rewrite H5, Hsz'. simpl List.length. lia.
Qed.

(** *** The invariants of the data model *)

Lemma increasing_ssorted (l : list Z) : increasing l = true <-> ssorted l.
Proof.
  induction l as [|a l IH]; [simpl; tauto|].
  destruct l as [|b l].
  - simpl. intuition constructor.
  - change (increasing (a :: b :: l)) with ((a <? b) && increasing (b :: l)).
    rewrite andb_true_iff, IH, Z.ltb_lt. simpl. rewrite Forall_cons.
    split.
    + intros (Hab & Hb & Hl). repeat split; try assumption.
      eapply Forall_impl; [exact Hb|]. simpl. intros. lia.
    + tauto.
Qed.

Lemma ssorted_mid (l1 l2 : list Z) (x : Z) :
  ssorted (l1 ++ x :: l2)
  <-> ssorted l1 /\ ssorted l2
      /\ Forall (fun a => a < x) l1 /\ Forall (fun b => x < b) l2.
Proof.
  induction l1 as [|a l1 IH]; simpl.
  - rewrite Forall_nil. tauto.
  - rewrite IH, Forall_app, !Forall_cons. split.
    + tauto.
    + intros ((H1 & H2) & H3 & (H4 & H5) & H6). repeat split; auto.
      eapply Forall_impl; [exact H6|]. simpl. intros. lia.
Qed.

Lemma below_spec (k : Z) (t : Node) :
  below k t = true <-> Forall (fun x => x < k) (inorder t).
Proof.
  unfold below. rewrite forallb_forall, List.Forall_forall.
  split; intros H x Hx; specialize (H x Hx); apply Z.ltb_lt; exact H.
Qed.

Lemma above_spec (k : Z) (t : Node) :
  above k t = true <-> Forall (fun x => k < x) (inorder t).
Proof.
  unfold above. rewrite forallb_forall, List.Forall_forall.
  split; intros H x Hx; specialize (H x Hx); apply Z.ltb_lt; exact H.
Qed.

Lemma btree_ok_shape (t : Node) : btree_ok t = true -> shape t = true.
Proof.
  induction t as [|cp1 IH1 k1 r1 cp2 IH2 k2 r2 cp3 IH3 k3 r3 cp4 IH4 size];
    [reflexivity|].
  cbn [btree_ok shape]. rewrite !andb_true_iff. intros H. destruct_and!.
  repeat split; auto.
Qed.

Ltac weaken :=
  match goal with
  | H : Forall _ ?l |- Forall _ ?l =>
    eapply Forall_impl; [exact H|]; simpl; intros; lia
  end.

Ltac atom :=
  first [assumption | lia | exact I | reflexivity | apply Forall_nil | weaken].

Ltac order_tac :=
  rewrite ?orb_true_iff, ?andb_true_iff, ?below_spec, ?above_spec, ?Z.ltb_lt in *;
  rewrite ?app_nil_r in *;
  repeat first [rewrite ssorted_mid in * | rewrite Forall_app in *
               | rewrite Forall_cons in *];
  destruct_and?; repeat split; atom.

Lemma btree_ok_ssorted (t : Node) : btree_ok t = true -> ssorted (inorder t).
Proof.
  induction t as [|cp1 IH1 k1 r1 cp2 IH2 k2 r2 cp3 IH3 k3 r3 cp4 IH4 size];
    [exact (fun _ => I)|].
  intros H. pose proof (btree_ok_shape _ H) as Hsh.
  apply shape_inv in Hsh as (_ & _ & _ & _ & Hc).
  cbn [btree_ok] in H. rewrite !andb_true_iff in H. destruct_and!.
  repeat match goal with
  | H : btree_ok ?c = true, IH : btree_ok ?c = true -> _ |- _ =>
    specialize (IH H)
  end.
  rewrite ?below_spec, ?above_spec in *.
  destruct Hc as [(-> & -> & -> & -> & Hsz)
                 | [(-> & N1 & N2 & -> & ->)
                 | [(-> & N1 & N2 & N3 & ->)
                 | (-> & N1 & N2 & N3 & N4)]]].
  - assert (Hc : size = 1 \/ size = 2 \/ size = 3) by lia.
    destruct Hc as [-> | [-> | ->]]; simpl in *;
      rewrite ?andb_true_iff, ?Z.ltb_lt in *; destruct_and?;
      repeat split; repeat constructor; lia.
  - simpl in *. order_tac.
  - simpl in *. order_tac.
  - simpl in *. order_tac.
Qed.

Ltac norm_order H :=
  rewrite ?app_nil_r in H;
  repeat first [rewrite ssorted_mid in H | rewrite Forall_app in H
               | rewrite Forall_cons in H].

Lemma ssorted_btree_ok (t : Node) :
  shape t = true -> ssorted (inorder t) -> btree_ok t = true.
Proof.
  induction t as [|cp1 IH1 k1 r1 cp2 IH2 k2 r2 cp3 IH3 k3 r3 cp4 IH4 size];
    [reflexivity|].
  intros Hsh Hs.
  apply shape_inv in Hsh as (S1 & S2 & S3 & S4 & Hc).
  destruct Hc as [(-> & -> & -> & -> & Hsz)
                 | [(-> & N1 & N2 & -> & ->)
                 | [(-> & N1 & N2 & N3 & ->)
                 | (-> & N1 & N2 & N3 & N4)]]].
  - assert (Hc : size = 1 \/ size = 2 \/ size = 3) by lia.
    destruct Hc as [-> | [-> | ->]]; simpl in *;
      rewrite ?Forall_cons in *; destruct_and?;
      rewrite ?andb_true_iff, ?Z.ltb_lt; repeat split; try reflexivity; lia.
  - simpl in Hs. norm_order Hs. destruct_and?.
    simpl. rewrite IH1, IH2, N1, N2 by assumption. simpl.
    rewrite ?andb_true_iff, ?below_spec, ?above_spec, ?Z.ltb_lt.
    repeat split; atom.
  - simpl in Hs. norm_order Hs. destruct_and?.
    simpl. rewrite IH1, IH2, IH3, N1, N2, N3 by assumption. simpl.
    rewrite ?andb_true_iff, ?below_spec, ?above_spec, ?Z.ltb_lt.
    repeat split; atom.
  - simpl in Hs. norm_order Hs. destruct_and?.
    simpl. rewrite IH1, IH2, IH3, IH4, N1, N2, N3, N4 by assumption. simpl.
    rewrite ?andb_true_iff, ?below_spec, ?above_spec, ?Z.ltb_lt.
    repeat split; atom.
Qed.

(** The invariants of the data model are the occupancy of the nodes
    together with a strictly increasing traversal. *)
Lemma btree_ok_iff (t : Node) :
  btree_ok t = true <-> shape t = true /\ increasing (inorder t) = true.
Proof.
  rewrite increasing_ssorted. split.
  - intros H. split; [apply btree_ok_shape|apply btree_ok_ssorted]; exact H.
  - intros [H1 H2]. apply ssorted_btree_ok; assumption.
Qed.

(** *** Insertion and the invariants *)

(** Insertion of a key that is not in the tree keeps the invariants, puts
    the key at its place in the traversal and counts it. *)
Theorem insert_keeps_btree_ok (db : KDB) (key : Z) (val : option string) :
  btree_ok (head db) = true ->
  ~ In key (inorder (head db)) ->
  btree_ok (head (insert db key val)) = true
  /\ inorder (head (insert db key val)) = ins key (inorder (head db))
  /\ Size (insert db key val) = Size db + 1.
Proof.
  intros Hok Hk. apply btree_ok_iff in Hok as [Hsh Hinc].
  destruct (insert_inorder db key val Hsh (increasing_sorted _ Hinc))
    as (Hsh' & Hin & Hsz & _).
  split; [|split; assumption].
  apply btree_ok_iff. split; [exact Hsh'|].
  rewrite Hin. apply increasing_ins; assumption.
Qed.

(** Keys that are pairwise distinct, inserted one after the other into the
    empty tree, give a tree that satisfies the invariants, whose traversal is
    strictly increasing and holds exactly these keys. *)
Theorem inserts_ordered (kvs : list (Z * option string)) :
  NoDup (map fst kvs) ->
  let db := inserts newKDB kvs in
  btree_ok (head db) = true
  /\ increasing (inorder (head db)) = true
  /\ inorder (head db) ≡ₚ map fst kvs
  /\ Size db = Z.of_nat (List.length kvs).
Proof.
  intros Hnd.
  destruct (inserts_inv kvs newKDB eq_refl eq_refl) as (H1 & H2 & H3 & H4).
  { simpl. rewrite app_nil_r. exact Hnd. }
  simpl in H3, H4. rewrite app_nil_r in H3.
  split; [apply btree_ok_iff; split; assumption|].
  split; [exact H2|]. split; [exact H3|exact H4].
Qed.

(** The ordering invariant under a duplicate check that works: when the
    hashes of the keys are pairwise distinct, every [Put] on a store without
    a log is committed and the traversal of the resulting tree is strictly
    increasing. *)
Theorem puts_ordered_for_distinct_hashes (kvs : list (string * string)) :
  NoDup (map (fun kv => HashStringToInt kv.1) kvs) ->
  (puts newKDB kvs).1 = replicate (List.length kvs) true
  /\ btree_ok (head (puts newKDB kvs).2) = true
  /\ increasing (inorder (head (puts newKDB kvs).2)) = true
  /\ inorder (head (puts newKDB kvs).2) ≡ₚ map (fun kv => HashStringToInt kv.1) kvs
  /\ Size (puts newKDB kvs).2 = Z.of_nat (List.length kvs).
Proof.
  intros Hnd. unfold puts.
  destruct (puts_inv kvs [] newKDB eq_refl eq_refl eq_refl)
    as (H1 & H2 & H3 & H4 & H5).
  { simpl. rewrite app_nil_r. exact Hnd. }
  simpl in H4, H5. rewrite app_nil_r in H4.
  split; [exact H1|].
  split; [apply btree_ok_iff; split; assumption|].
  split; [exact H3|]. split; [exact H4|exact H5].
Qed.

(** ** Put and the log *)

(** The part of C1 that holds: a key that [searchKey] finds is rejected, and
    neither the store nor the disk changes. *)
Theorem put_rejects_what_search_finds
    (json_Marshal : WALOperation -> option string)
    (e : Env) (db : KDB) (disk : Disk) (key val : string) :
  checkIsDuplicateKey db key = true ->
  Put json_Marshal e db disk key val = ((false, val), db, disk).
Proof. intros H. unfold Put. rewrite H. reflexivity. Qed.

(** C6. When the log refuses the record of a key that is not a duplicate,
    [Put] answers [(false, value)] and the tree is as it was: same root,
    same [Size], same answers from [Get]. *)
Theorem put_aborts_on_log_failure
    (json_Marshal : WALOperation -> option string)
    (e : Env) (db : KDB) (disk : Disk) (key val : string) (w : WAL) :
  wal db = Some w ->
  checkIsDuplicateKey db key = false ->
  is_Some (Log json_Marshal e w disk "PUT" key val).1.1 ->
  let r := Put json_Marshal e db disk key val in
  r.1.1 = (false, val)
  /\ head r.1.2 = head db
  /\ Size r.1.2 = Size db
  /\ forall k, Get r.1.2 k = Get db k.
Proof.
  intros Hw Hdup [err Herr]. unfold Put.
  rewrite Hdup, Hw.
  destruct (Log json_Marshal e w disk "PUT" key val) as [[o w'] disk'].
  simpl in Herr. subst o. simpl. auto.
Qed.

Lemma put_aborts_on_log_failure_witness :
  let r := Put Wire.marshal failing_write logged_store {[walPath := EmptyString]} "a" "1" in
  r.1.1 = (false, "1"%string)
  /\ head r.1.2 = head logged_store
  /\ Size r.1.2 = Size logged_store
  /\ forall k, Get r.1.2 k = Get logged_store k.
Proof.
  apply (put_aborts_on_log_failure Wire.marshal failing_write logged_store
           {[walPath := EmptyString]} "a" "1" (wal_at walPath)).
  - reflexivity.
  - reflexivity.
  - exists ErrWrite. vm_compute. reflexivity.
Defined.

Lemma pwrite_start (data : string) : pwrite EmptyString 0 data = data.
Proof.
  unfold pwrite. simpl. rewrite drop_nil, app_nil_r.
  apply string_of_list_ascii_of_string.
Qed.

Lemma wrap64_small (z : Z) : - 2 ^ 63 <= z < 2 ^ 63 -> wrap64 z = z.
Proof.
  intros H. unfold wrap64. rewrite Z.mod_small; lia.
Qed.

(** A write through a fresh handle on an empty file, when the log reports
    success. *)
Lemma log_ok_inv
    (json_Marshal : WALOperation -> option string)
    (e : Env) (w w' : WAL) (disk disk' : Disk) (operation key value : string) :
  Log json_Marshal e w disk operation key value = (None, w', disk') ->
  exists f data,
    file w = Some f /\ closed f = false
    /\ json_Marshal (mkOp (wrap64 (seq w + 1)) operation key value (now e)) = Some data
    /\ seq w' = wrap64 (seq w + 1)
    /\ disk' = (store_bytes f disk (data +:+ nl)).2.
Proof.
  unfold Log. intros H.
  destruct (json_Marshal _) as [data|] eqn:Hm; [|discriminate].
  unfold file_Write, file_Sync in H.
  destruct (file w) as [f|]; [|discriminate].
  destruct (closed f) eqn:Hc; [discriminate|].
  destruct (write_outcome e).
  - destruct (store_bytes f disk _) as [f' d'] eqn:Hs.
    exists f, data. rewrite Hs. simpl.
    destruct (closed f'); [discriminate|].
    destruct (sync_fails e); [discriminate|].
    injection H as <- <-. auto.
  - destruct (store_bytes f disk _). discriminate.
Qed.

(** Whatever becomes of the write, [Log] has advanced the counter. *)
Lemma log_advances_seq
    (json_Marshal : WALOperation -> option string)
    (e : Env) (w : WAL) (disk : Disk) (operation key value : string) :
  seq (Log json_Marshal e w disk operation key value).1.2 = wrap64 (seq w + 1).
Proof.
  unfold Log. destruct (json_Marshal _); [|reflexivity].
  destruct (file_Write _ _ _ _) as [[[?|] ?] ?]; reflexivity.
Qed.

(** X29. After a checkpoint that succeeded the file is empty and the
    counter is back at 0; when the first [Log] after it succeeds, it writes a
    record with sequence number 1 as the only line of the file. *)
Theorem checkpoint_resets_sequence
    (json_Marshal : WALOperation -> option string)
    (e1 e2 : Env) (db db' : KDB) (disk disk' disk'' : Disk) (w w' w'' : WAL)
    (operation key value : string) :
  wal db = Some w ->
  Checkpoint e1 db disk = (None, db', disk') ->
  wal db' = Some w' ->
  Log json_Marshal e2 w' disk' operation key value = (None, w'', disk'') ->
  disk' !! filePath w = Some EmptyString
  /\ seq w' = 0
  /\ seq w'' = 1
  /\ exists data,
       json_Marshal (mkOp 1 operation key value (now e2)) = Some data
       /\ disk'' !! filePath w = Some (data +:+ nl)%string.
Proof.
  intros Hw Hc Hw' Hlog. unfold Checkpoint in Hc. rewrite Hw in Hc.
  destruct (Truncate e1 w disk) as [[err w1] d1] eqn:Ht.
  injection Hc as -> <- <-. simpl in Hw'. injection Hw' as <-.
  unfold Truncate in Ht.
  destruct (closeFirst e1 (file w)) as [[?|] fo]; [congruence|].
  unfold open_trunc in Ht. destruct (open_fails e1); [congruence|].
  injection Ht as <- <-.
  apply log_ok_inv in Hlog as (f & data & Hf & _ & Hm & Hs & ->).
  simpl in Hf, Hm, Hs. injection Hf as <-.
  change (wrap64 (0 + 1)) with 1 in Hm, Hs.
  split; [apply lookup_insert_eq|]. split; [reflexivity|]. split; [exact Hs|].
  exists data. split; [exact Hm|].
  unfold store_bytes. simpl. rewrite lookup_insert_eq. simpl.
  rewrite lookup_insert_eq, pwrite_start. reflexivity.
Qed.

Lemma checkpoint_resets_sequence_witness :
  let w := mkWAL (Some (mkFile walPath true 0 false)) 7 walPath in
  let r1 := Checkpoint (calm 0) (mkKDB Nil 0 (Some w)) {[walPath := negative_seq_file]} in
  let w' := default w (wal r1.1.2) in
  let r2 := Log Wire.marshal (calm 5) w' r1.2 "PUT" "a" "1" in
  r1.2 !! walPath = Some EmptyString
  /\ seq w' = 0
  /\ seq r2.1.2 = 1
  /\ exists data,
       Wire.marshal (mkOp 1 "PUT" "a" "1" 5) = Some data
       /\ r2.2 !! walPath = Some (data +:+ nl)%string.
Proof.
  intros w r1 w' r2.
  apply (checkpoint_resets_sequence Wire.marshal (calm 0) (calm 5)
           (mkKDB Nil 0 (Some w)) r1.1.2 {[walPath := negative_seq_file]}
           r1.2 r2.2 w w' r2.1.2 "PUT" "a" "1").
  - reflexivity.
  - vm_compute. reflexivity.
  - vm_compute. reflexivity.
  - vm_compute. reflexivity.
Defined.


(** ** The scanner against the line format *)

Lemma reverse_rev {A : Type} (l : list A) : reverse l = rev l.
Proof. unfold reverse. rewrite rev_append_rev. apply app_nil_r. Qed.

Lemma token_chomp (cur : list ascii) : token cur = chomp (rev cur).
Proof.
  unfold token, chomp. rewrite !reverse_rev, rev_involutive.
  destruct cur as [|c r]; [reflexivity|].
  simpl. destruct (Ascii.eqb c carriage_return); rewrite ?reverse_rev; reflexivity.
Qed.

Lemma split_on_nonempty (sep : ascii) (data : list ascii) :
  exists p ps, split_on sep data = p :: ps.
Proof.
  destruct data as [|c r]; simpl; [eauto|].
  destruct (Ascii.eqb c sep); [eauto|].
  destruct (split_on sep r); eauto.
Qed.

Lemma without_final_empty_cons (p q : list ascii) (ps : list (list ascii)) :
  without_final_empty (p :: q :: ps) = p :: without_final_empty (q :: ps).
Proof. destruct p; reflexivity. Qed.

Lemma without_final_empty_head (c : ascii) (p : list ascii) (ps : list (list ascii)) :
  without_final_empty ((c :: p) :: ps) = (c :: p) :: without_final_empty ps.
Proof. reflexivity. Qed.

(** [scan_from] in the middle of a line: what it still delivers is what the
    format makes of the bytes read so far followed by the rest of the file,
    provided no line is too long. *)
Lemma scan_from_spec (data : string) :
  forall (cur : list ascii) (n : Z) (p : list ascii) (ps : list (list ascii)),
    n = Z.of_nat (List.length cur) ->
    split_on newline (list_ascii_of_string data) = p :: ps ->
    forallb short (without_final_empty ((rev cur ++ p) :: ps)) = true ->
    scan_from cur n data
    = (map chomp (without_final_empty ((rev cur ++ p) :: ps)), false).
Proof.
  induction data as [|c rest IH]; intros cur n p ps Hn Hsplit Hshort.
  - simpl in Hsplit. injection Hsplit as <- <-. rewrite app_nil_r in *.
    simpl scan_from. destruct cur as [|a cur].
    + subst n. reflexivity.
    + replace (n =? 0) with false by (symmetry; apply Z.eqb_neq; simpl in Hn; lia).
      rewrite token_chomp.
      destruct (rev (a :: cur)) as [|b l] eqn:Hr; [|reflexivity].
      apply (f_equal List.length) in Hr. rewrite length_rev in Hr. discriminate.
  - simpl in Hsplit. simpl scan_from.
    destruct (Ascii.eqb c newline) eqn:Hc.
    + injection Hsplit as <- Hps. rewrite app_nil_r in *.
      destruct (split_on_nonempty newline (list_ascii_of_string rest)) as (q & qs & Hq).
      rewrite Hq in Hps. subst ps.
      rewrite without_final_empty_cons in *.
      simpl in Hshort. apply andb_true_iff in Hshort as [_ Hshort].
      rewrite (IH [] 0 q qs eq_refl Hq Hshort).
      rewrite token_chomp. reflexivity.
    + destruct (split_on newline (list_ascii_of_string rest)) as [|q qs] eqn:Hq.
      { destruct (split_on_nonempty newline (list_ascii_of_string rest))
          as (q & qs & Hq'). congruence. }
      injection Hsplit as <- <-.
      assert (Hre : rev cur ++ c :: q = rev (c :: cur) ++ q)
        by (simpl; rewrite <- app_assoc; reflexivity).
      rewrite Hre in *.
      assert (Hlen : Z.of_nat (List.length (rev (c :: cur) ++ q)) < MaxScanTokenSize).
      { destruct (rev (c :: cur) ++ q) as [|b l] eqn:Hl.
        - apply (f_equal List.length) in Hl.
          rewrite length_app, length_rev in Hl. simpl in Hl. lia.
        - rewrite without_final_empty_head in Hshort. simpl in Hshort.
          apply andb_true_iff in Hshort as [Hs _].
          unfold short in Hs. apply Z.ltb_lt in Hs. exact Hs. }
      rewrite length_app, length_rev in Hlen. simpl in Hlen.
      replace (MaxScanTokenSize <=? n + 1) with false
        by (symmetry; apply Z.leb_gt; lia).
      apply IH; [simpl; lia | reflexivity | exact Hshort].
Qed.

Lemma scanLines_spec (content : string) :
  short_lines content = true ->
  scanLines content = (text_lines content, false).
Proof.
  intros Hs. unfold scanLines, text_lines, short_lines, raw_lines in *.
  destruct (split_on_nonempty newline (list_ascii_of_string content)) as (p & ps & Hp).
  rewrite Hp in *. apply (scan_from_spec content [] 0 p ps eq_refl Hp Hs).
Qed.

(** One safe line and its newline scan as that line. *)
Lemma scan_from_line (line : list ascii) :
  forall (cur : list ascii) (n : Z),
    n = Z.of_nat (List.length cur) ->
    forallb (fun c => negb (Ascii.eqb c newline)) line = true ->
    n + Z.of_nat (List.length line) < MaxScanTokenSize ->
    scan_from cur n (string_of_list_ascii line +:+ nl)
    = ([token (rev line ++ cur)], false).
Proof.
  induction line as [|c line IH]; intros cur n Hn Hnl Hlen.
  - reflexivity.
  - simpl in Hnl. apply andb_true_iff in Hnl as [Hc Hnl].
    apply negb_true_iff in Hc. simpl in Hlen.
    simpl. rewrite Hc.
    replace (MaxScanTokenSize <=? n + 1) with false
      by (symmetry; apply Z.leb_gt; lia).
    rewrite (IH (c :: cur) (n + 1)); [|simpl; lia|exact Hnl|lia].
    rewrite <- app_assoc. reflexivity.
Qed.

Lemma scanLines_line (line : string) :
  line_safe line = true ->
  scanLines (line +:+ nl) = ([line], false).
Proof.
  unfold line_safe. rewrite reverse_rev. intros H.
  apply andb_true_iff in H as [H Hlen]. apply andb_true_iff in H as [Hnl Hcr].
  apply Z.ltb_lt in Hlen.
  unfold scanLines.
  rewrite <- (string_of_list_ascii_of_string line) at 1.
  rewrite (scan_from_line _ [] 0 eq_refl Hnl); [|lia].
  rewrite app_nil_r. unfold token, dropCR. rewrite !reverse_rev.
  destruct (rev (list_ascii_of_string line)) as [|c r] eqn:Hr.
  - apply (f_equal (@rev ascii)) in Hr. rewrite rev_involutive in Hr.
    simpl in Hr. rewrite <- (string_of_list_ascii_of_string line), Hr. reflexivity.
  - apply negb_true_iff in Hcr. rewrite Hcr, <- Hr, rev_involutive.
    rewrite string_of_list_ascii_of_string. reflexivity.
Qed.

(** ** Recovery *)

(** X27. [Recover] on an absent file gives no record and no error; on a
    file that opens and whose lines are all shorter than the scanner's buffer
    it gives exactly the well-formed records, in file order, and no error. *)
Theorem recover_skips_malformed
    (json_Unmarshal : string -> option WALOperation)
    (e : Env) (w : WAL) (disk : Disk) :
  (disk !! filePath w = None -> Recover json_Unmarshal e w disk = ([], None))
  /\ (forall content,
        disk !! filePath w = Some content ->
        open_rec_fails e = false ->
        short_lines content = true ->
        Recover json_Unmarshal e w disk
        = (well_formed_records json_Unmarshal content, None)).
Proof.
  split.
  - intros H. unfold Recover. rewrite H. reflexivity.
  - intros content H He Hs. unfold Recover. rewrite H, He.
    rewrite (scanLines_spec content Hs). reflexivity.
Qed.

Lemma recover_skips_malformed_witness :
  let content := (negative_seq_file +:+ "{oops" +:+ nl +:+ negative_seq_file)%string in
  Recover Wire.unmarshal (calm 0) (wal_at walPath) {[walPath := content]}
  = ([mkOp (-5) "PUT" "a" "1" 0; mkOp (-5) "PUT" "a" "1" 0], None).
Proof.
  intros content.
  apply (proj2 (recover_skips_malformed Wire.unmarshal (calm 0) (wal_at walPath)
                  {[walPath := content]}) content).
  - reflexivity.
  - reflexivity.
  - vm_compute. reflexivity.
Defined.

(** C7, the claim at a file it fails on: a well-formed record followed by a
    line of [MaxScanTokenSize] bytes.  The claim promises the record and no
    error; [Recover] answers with [ErrTooLong] and no record. *)
Lemma recover_long_line_error :
  well_formed_records Wire.unmarshal long_line_file = [mkOp 1 "PUT" "a" "1" 0]
  /\ Recover Wire.unmarshal (calm 0) (wal_at walPath) {[walPath := long_line_file]}
     = ([], Some ErrTooLong)
  /\ Recover Wire.unmarshal (calm 0) (wal_at walPath) {[walPath := long_line_file]}
     <> (well_formed_records Wire.unmarshal long_line_file, None).
Proof.
  assert (H1 : well_formed_records Wire.unmarshal long_line_file
               = [mkOp 1 "PUT" "a" "1" 0]) by (vm_compute; reflexivity).
  assert (H2 : Recover Wire.unmarshal (calm 0) (wal_at walPath)
                 {[walPath := long_line_file]} = ([], Some ErrTooLong))
    by (vm_compute; reflexivity).
  split; [exact H1|]. split; [exact H2|].
  rewrite H1, H2. discriminate.
Qed.

(** [scan_from] in the middle of a line, when a line of what is left does
    not fit the buffer: the scan ends on [ErrTooLong]. *)
Lemma scan_from_long (data : string) :
  forall (cur : list ascii) (n : Z) (p : list ascii) (ps : list (list ascii)),
    n = Z.of_nat (List.length cur) ->
    n < MaxScanTokenSize ->
    split_on newline (list_ascii_of_string data) = p :: ps ->
    forallb short (without_final_empty ((rev cur ++ p) :: ps)) = false ->
    (scan_from cur n data).2 = true.
Proof.
  induction data as [|c rest IH]; intros cur n p ps Hn Hlt Hsplit Hlong.
  - simpl in Hsplit. injection Hsplit as <- <-. rewrite app_nil_r in Hlong.
    exfalso. destruct (rev cur) as [|b l] eqn:Hr; [discriminate|].
    simpl in Hlong. rewrite andb_true_r in Hlong.
    unfold short in Hlong. apply Z.ltb_ge in Hlong.
    rewrite <- Hr, length_rev in Hlong. lia.
  - simpl in Hsplit. simpl scan_from.
    destruct (Ascii.eqb c newline) eqn:Hc.
    + injection Hsplit as <- Hps. rewrite app_nil_r in Hlong.
      destruct (split_on_nonempty newline (list_ascii_of_string rest)) as (q & qs & Hq).
      rewrite Hq in Hps. subst ps.
      rewrite without_final_empty_cons in Hlong. simpl in Hlong.
      assert (Hs : short (rev cur) = true).
      { unfold short. apply Z.ltb_lt. rewrite length_rev. lia. }
      rewrite Hs in Hlong. simpl in Hlong.
      specialize (IH [] 0 q qs eq_refl ltac:(reflexivity) Hq Hlong).
      destruct (scan_from [] 0 rest). exact IH.
    + destruct (split_on newline (list_ascii_of_string rest)) as [|q qs] eqn:Hq.
      { destruct (split_on_nonempty newline (list_ascii_of_string rest))
          as (q & qs & Hq'). congruence. }
      injection Hsplit as <- <-.
      destruct (Z.leb_spec MaxScanTokenSize (n + 1)); [reflexivity|].
      apply (IH (c :: cur) (n + 1) q qs); [simpl; lia|lia|reflexivity|].
      simpl. rewrite <- app_assoc. exact Hlong.
Qed.

Lemma scanLines_long (content : string) :
  short_lines content = false -> (scanLines content).2 = true.
Proof.
  intros Hs. unfold scanLines, short_lines, raw_lines in *.
  destruct (split_on_nonempty newline (list_ascii_of_string content)) as (p & ps & Hp).
  rewrite Hp in Hs.
  apply (scan_from_long content [] 0 p ps eq_refl ltac:(reflexivity) Hp Hs).
Qed.

(** X28. On every file that opens and has a line of 65536 bytes or more,
    well-formed or not and wherever it stands, [Recover] returns the
    scanner's error and no record: the records on the lines before and after
    are not delivered. *)
Theorem recover_fails_on_long_line
    (json_Unmarshal : string -> option WALOperation)
    (e : Env) (w : WAL) (disk : Disk) (content : string) :
  disk !! filePath w = Some content ->
  open_rec_fails e = false ->
  short_lines content = false ->
  Recover json_Unmarshal e w disk = ([], Some ErrTooLong).
Proof.
  intros Hd He Hs. unfold Recover. rewrite Hd, He.
  pose proof (scanLines_long content Hs) as Hl.
  destruct (scanLines content) as [lines too_long]. simpl in Hl. subst too_long.
  reflexivity.
Qed.

Lemma recover_fails_on_long_line_witness :
  Recover Wire.unmarshal (calm 0) (wal_at walPath)
    {[walPath := (long_line +:+ nl +:+ negative_seq_file)%string]}
  = ([], Some ErrTooLong).
Proof.
  apply (recover_fails_on_long_line Wire.unmarshal (calm 0) (wal_at walPath)
           {[walPath := (long_line +:+ nl +:+ negative_seq_file)%string]}
           (long_line +:+ nl +:+ negative_seq_file)%string).
  - reflexivity.
  - reflexivity.
  - vm_compute. reflexivity.
Defined.

(** ** Sequence numbers across a restart *)

Lemma fold_right_max_base (a s : Z) (l : list Z) :
  fold_right Z.max (Z.max a s) l = Z.max s (fold_right Z.max a l).
Proof. induction l as [|x l IH]; simpl; lia. Qed.

Lemma last_sequence_fold (json_Unmarshal : string -> option WALOperation)
    (lines : list string) :
  forall a,
    fold_left
      (fun lastSeq line =>
         match json_Unmarshal line with
         | Some op => if lastSeq <? Seq op then Seq op else lastSeq
         | None => lastSeq
         end) lines a
    = fold_right Z.max a (map Seq (omap json_Unmarshal lines)).
Proof.
  induction lines as [|l ls IH]; intros a; [reflexivity|].
  simpl. destruct (json_Unmarshal l) as [op|]; [|apply IH].
  rewrite IH. simpl.
  replace (if a <? Seq op then Seq op else a) with (Z.max a (Seq op))
    by (destruct (Z.ltb_spec a (Seq op)); lia).
  apply fold_right_max_base.
Qed.

Lemma max_seq_nonneg (recs : list WALOperation) : 0 <= max_seq recs.
Proof. unfold max_seq. induction recs; simpl; lia. Qed.

Lemma getLastSequence_spec (json_Unmarshal : string -> option WALOperation)
    (e : Env) (w : WAL) (disk : Disk) (content : string) :
  open_seq_fails e = false ->
  disk !! filePath w = Some content ->
  short_lines content = true ->
  getLastSequence json_Unmarshal e w disk
  = (max_seq (well_formed_records json_Unmarshal content), None).
Proof.
  intros He Hd Hs. unfold getLastSequence. rewrite He, Hd.
  rewrite (scanLines_spec content Hs). simpl.
  rewrite last_sequence_fold. reflexivity.
Qed.

(** C9, as the code has it. Opening the log on a file whose lines are all
    shorter than the scanner's buffer sets the counter to the largest
    sequence number of a well-formed record, or to 0 if that is larger or
    there is none; as long as that is below the largest int64 the next [Log]
    assigns one more, and when it succeeds the file has grown by the line of
    a record with that number. *)
Theorem next_sequence_after_open
    (json_Marshal : WALOperation -> option string)
    (json_Unmarshal : string -> option WALOperation)
    (e e' : Env) (p : string) (disk disk1 : Disk) (w : WAL)
    (operation key value : string) :
  let content := default EmptyString (disk !! p) in
  let recs := well_formed_records json_Unmarshal content in
  open_seq_fails e = false ->
  short_lines content = true ->
  max_seq recs < MaxInt64 ->
  NewWAL json_Unmarshal e p disk = (inl w, disk1) ->
  seq w = max_seq recs
  /\ forall err w' disk2,
       Log json_Marshal e' w disk1 operation key value = (err, w', disk2) ->
       seq w' = max_seq recs + 1
       /\ (err = None ->
           exists data,
             json_Marshal (mkOp (max_seq recs + 1) operation key value (now e'))
             = Some data
             /\ disk2 !! p = Some (content +:+ data +:+ nl)%string).
Proof.
  intros content recs He Hs Hmax Hnew.
  unfold NewWAL, open_append in Hnew.
  destruct (open_fails e); [discriminate|].
  injection Hnew as <- <-.
  set (disk1 := match disk !! p with
                | Some _ => disk
                | None => <[p:=EmptyString]> disk
                end).
  assert (Hd : disk1 !! p = Some content).
  { subst disk1 content. destruct (disk !! p) eqn:Hp; simpl.
    - exact Hp.
    - apply lookup_insert_eq. }
  rewrite (getLastSequence_spec json_Unmarshal e
             (mkWAL (Some (mkFile p true 0 false)) 0 p) disk1 content He Hd Hs).
  simpl. split; [reflexivity|].
  intros err w' disk2 Hlog.
  pose proof (max_seq_nonneg recs) as H0.
  assert (Hw : wrap64 (max_seq recs + 1) = max_seq recs + 1)
    by (apply wrap64_small; unfold MaxInt64 in Hmax; lia).
  split.
  - apply (f_equal (fun r => seq r.1.2)) in Hlog as Hq.
    rewrite log_advances_seq in Hq. simpl in Hq. rewrite <- Hq. exact Hw.
  - intros ->. apply log_ok_inv in Hlog as (f & data & Hf & _ & Hm & _ & ->).
    simpl in Hf, Hm. fold recs in Hm. rewrite Hw in Hm. injection Hf as <-.
    exists data. split; [exact Hm|].
    unfold store_bytes. simpl. rewrite Hd. simpl.
    apply lookup_insert_eq.
Qed.

Lemma next_sequence_after_open_witness :
  let disk : Disk := {[walPath := (line_of (mkOp 41 "PUT" "a" "1" 0) +:+ nl)%string]} in
  let content := default EmptyString (disk !! walPath) in
  let r := NewWAL Wire.unmarshal (calm 0) walPath disk in
  let w := match r.1 with inl w => w | inr _ => wal_at walPath end in
  seq w = 41
  /\ forall err w' disk2,
       Log Wire.marshal (calm 9) w r.2 "PUT" "b" "2" = (err, w', disk2) ->
       seq w' = 41 + 1
       /\ (err = None ->
           exists data,
             Wire.marshal (mkOp (41 + 1) "PUT" "b" "2" 9) = Some data
             /\ disk2 !! walPath = Some (content +:+ data +:+ nl)%string).
Proof.
  intros disk content r w.
  apply (next_sequence_after_open Wire.marshal Wire.unmarshal (calm 0) (calm 9)
           walPath disk r.2 w "PUT" "b" "2").
  - reflexivity.
  - vm_compute. reflexivity.
  - vm_compute. reflexivity.
  - vm_compute. reflexivity.
Defined.

(** C9, the claim at a file it fails on: the only record has sequence
    number -5, so the claim announces -4 for the next record; the counter is
    opened at 0 and [Log] assigns 1. *)
Lemma negative_seq_restarts_at_one :
  let disk : Disk := {[walPath := negative_seq_file]} in
  let r := NewWAL Wire.unmarshal (calm 0) walPath disk in
  let w := match r.1 with inl w => w | inr _ => wal_at walPath end in
  let assigned := seq (Log Wire.marshal (calm 1) w r.2 "PUT" "b" "2").1.2 in
  well_formed_records Wire.unmarshal negative_seq_file = [mkOp (-5) "PUT" "a" "1" 0]
  /\ next_seq_by_max (well_formed_records Wire.unmarshal negative_seq_file) = -4
  /\ assigned = 1
  /\ assigned <> next_seq_by_max (well_formed_records Wire.unmarshal negative_seq_file).
Proof.
  cbv zeta. conjuncts; try run.
  vm_compute. discriminate.
Qed.

(** ** Durability across a restart *)

Section Durability.

Variable json_Marshal : WALOperation -> option string.
Variable json_Unmarshal : string -> option WALOperation.

(** Opening a store on a path without a file creates the file and yields the
    empty store. *)
Lemma open_fresh (e : Env) (p : string) (disk : Disk) :
  disk !! p = None ->
  open_fails e = false ->
  open_rec_fails e = false ->
  newKDBWithWAL json_Marshal json_Unmarshal e p disk
  = (inl (mkKDB Nil 0 (Some (mkWAL (Some (mkFile p true 0 false)) 0 p))),
     <[p := EmptyString]> disk).
Proof.
  intros Hp Ho Hr.
  unfold newKDBWithWAL, NewWAL, open_append. rewrite Ho, Hp.
  unfold getLastSequence. simpl. rewrite lookup_insert_eq.
  unfold recoverFromWAL, Recover. simpl. rewrite lookup_insert_eq, Hr.
  destruct (open_seq_fails e); reflexivity.
Qed.

(** The first [Put] on the empty store, the log accepting the record. *)
Lemma first_put (e : Env) (p : string) (disk : Disk) (key val line : string) :
  write_outcome e = WriteAll ->
  sync_fails e = false ->
  json_Marshal (mkOp 1 "PUT" key val (now e)) = Some line ->
  Put json_Marshal e
      (mkKDB Nil 0 (Some (mkWAL (Some (mkFile p true 0 false)) 0 p)))
      (<[p := EmptyString]> disk) key val
  = ((true, val),
     mkKDB (singleton (HashStringToInt key) (Some val)) 1
           (Some (mkWAL (Some (mkFile p true 0 false)) 1 p)),
     <[p := (line +:+ nl)%string]> disk).
Proof.
  intros Hw Hs Hm. unfold Put, checkIsDuplicateKey. simpl.
  unfold Log. simpl. change (wrap64 (0 + 1)) with 1. rewrite Hm.
  unfold file_Write, store_bytes. simpl. rewrite Hw, lookup_insert_eq. simpl.
  rewrite Hs, insert_insert_eq. reflexivity.
Qed.

(** Opening a store on a file that holds one PUT record replays it. *)
Lemma reopen_one_record (e : Env) (p : string) (disk : Disk)
    (s t : Z) (key val line : string) :
  disk !! p = Some (line +:+ nl)%string ->
  line_safe line = true ->
  json_Unmarshal line = Some (mkOp s "PUT" key val t) ->
  open_fails e = false ->
  open_rec_fails e = false ->
  exists w,
    newKDBWithWAL json_Marshal json_Unmarshal e p disk
    = (inl (mkKDB (singleton (HashStringToInt key) (Some val)) 1 (Some w)), disk).
Proof.
  intros Hp Hl Hu Ho Hr.
  unfold newKDBWithWAL, NewWAL, open_append. rewrite Ho, Hp.
  unfold recoverFromWAL, Recover. simpl. rewrite Hp, Hr.
  rewrite (scanLines_line line Hl). simpl. rewrite Hu. simpl.
  eexists. reflexivity.
Qed.

Lemma get_singleton (key val : string) (n : Z) (w : option WAL) :
  Get (mkKDB (singleton (HashStringToInt key) (Some val)) n w) key = (val, true).
Proof.
  unfold Get. simpl. rewrite Z.eqb_refl. reflexivity.
Qed.

(** One committed [Put] survives closing and reopening the store. *)
Lemma durability_one_put (e1 e2 e3 e4 : Env) (p : string) (disk : Disk)
    (key val line : string) :
  disk !! p = None ->
  open_fails e1 = false -> open_rec_fails e1 = false ->
  write_outcome e2 = WriteAll -> sync_fails e2 = false ->
  open_fails e4 = false -> open_rec_fails e4 = false ->
  json_Marshal (mkOp 1 "PUT" key val (now e2)) = Some line ->
  line_safe line = true ->
  json_Unmarshal line = Some (mkOp 1 "PUT" key val (now e2)) ->
  exists db1 disk1 db2 disk2 cerr db3 db4,
    newKDBWithWAL json_Marshal json_Unmarshal e1 p disk = (inl db1, disk1)
    /\ Put json_Marshal e2 db1 disk1 key val = ((true, val), db2, disk2)
    /\ Close e3 db2 = (cerr, db3)
    /\ newKDBWithWAL json_Marshal json_Unmarshal e4 p disk2 = (inl db4, disk2)
    /\ Get db4 key = (val, true)
    /\ Size db4 = 1.
Proof.
  intros Hp Ho1 Hr1 Hw Hs Ho4 Hr4 Hm Hl Hu.
  destruct (reopen_one_record e4 p (<[p := (line +:+ nl)%string]> disk)
              1 (now e2) key val line) as [w4 H4];
    [apply lookup_insert_eq | assumption..|].
  do 7 eexists.
  split; [apply open_fresh; assumption|].
  split; [apply first_put; eassumption|].
  split; [apply surjective_pairing|].
  split; [exact H4|].
  split; [apply get_singleton|reflexivity].
Qed.

End Durability.

(** C4. On a path without a file: open a store, put "a" with value "1",
    close the store, open a store on the same path again; the new store
    answers [("1", true)] for "a" with no further [Put].  The opens, the
    write and the sync succeed, and the line that [json.Marshal] produces for
    the record is one line that [json.Unmarshal] reads back as the record. *)
Theorem roundtrip_durability
    (json_Marshal : WALOperation -> option string)
    (json_Unmarshal : string -> option WALOperation)
    (e1 e2 e3 e4 : Env) (p : string) (disk : Disk) (line : string) :
  disk !! p = None ->
  open_fails e1 = false -> open_rec_fails e1 = false ->
  write_outcome e2 = WriteAll -> sync_fails e2 = false ->
  open_fails e4 = false -> open_rec_fails e4 = false ->
  json_Marshal (mkOp 1 "PUT" "a" "1" (now e2)) = Some line ->
  line_safe line = true ->
  json_Unmarshal line = Some (mkOp 1 "PUT" "a" "1" (now e2)) ->
  exists db1 disk1 db2 disk2 cerr db3 db4,
    newKDBWithWAL json_Marshal json_Unmarshal e1 p disk = (inl db1, disk1)
    /\ Put json_Marshal e2 db1 disk1 "a" "1" = ((true, "1"%string), db2, disk2)
    /\ Close e3 db2 = (cerr, db3)
    /\ newKDBWithWAL json_Marshal json_Unmarshal e4 p disk2 = (inl db4, disk2)
    /\ Get db4 "a" = ("1"%string, true)
    /\ Size db4 = 1.
Proof. apply durability_one_put. Qed.

Lemma roundtrip_durability_witness :
  exists db1 disk1 db2 disk2 cerr db3 db4,
    newKDBWithWAL Wire.marshal Wire.unmarshal (calm 10) walPath ∅ = (inl db1, disk1)
    /\ Put Wire.marshal (calm 20) db1 disk1 "a" "1" = ((true, "1"%string), db2, disk2)
    /\ Close (calm 30) db2 = (cerr, db3)
    /\ newKDBWithWAL Wire.marshal Wire.unmarshal (calm 40) walPath disk2 = (inl db4, disk2)
    /\ Get db4 "a" = ("1"%string, true)
    /\ Size db4 = 1.
Proof.
  apply (roundtrip_durability Wire.marshal Wire.unmarshal
           (calm 10) (calm 20) (calm 30) (calm 40) walPath ∅
           (line_of (mkOp 1 "PUT" "a" "1" 20)));
    vm_compute; reflexivity.
Defined.

(** * Further properties *)

(** ** The hash *)

Lemma wrap64_add_l (a b : Z) : wrap64 (wrap64 a + b) = wrap64 (a + b).
Proof.
  unfold wrap64. f_equal.
  replace ((a + 2 ^ 63) mod 2 ^ 64 - 2 ^ 63 + b + 2 ^ 63)
    with ((a + 2 ^ 63) mod 2 ^ 64 + b) by lia.
  rewrite Zplus_mod_idemp_l. f_equal. lia.
Qed.

Lemma hash_step (h c : Z) :
  wrap64 (wrap64 (wrap64 (Z.shiftl h 5) + h) + c) = wrap64 (h * 33 + c).
Proof.
  rewrite wrap64_add_l, <- Z.add_assoc, wrap64_add_l, Z.shiftl_mul_pow2 by lia.
  change (2 ^ 5) with 32. f_equal. lia.
Qed.

Lemma fold_left_pointwise {A B : Type} (f g : A -> B -> A) (l : list B) :
  (forall a b, f a b = g a b) -> forall a, fold_left f l a = fold_left g l a.
Proof.
  intros H. induction l as [|b l IH]; intros a; [reflexivity|].
  simpl. rewrite H. apply IH.
Qed.

(** X1. [HashStringToInt] is the hash that multiplies by 33 and adds the
    rune, started at 5381 and taken modulo 2^64 into the signed range: the
    shift, the two additions and their three wrap-arounds amount to one
    wrap-around of [h * 33 + c]. *)
Theorem hash_is_djb2 (key : string) :
  HashStringToInt key
  = fold_left (fun h c => wrap64 (h * 33 + c)) (runes key) 5381.
Proof.
  unfold HashStringToInt. apply fold_left_pointwise. intros a b. apply hash_step.
Qed.

Lemma runes_seven_bit (pre s : string) :
  seven_bit pre = true ->
  runes (pre +:+ s) = map byte_val (list_ascii_of_string pre) ++ runes s.
Proof.
  unfold seven_bit. induction pre as [|c pre IH]; intros H; [reflexivity|].
  simpl in H. apply andb_true_iff in H as [Hc H].
  change (runes (String c (pre +:+ s))
          = byte_val c :: map byte_val (list_ascii_of_string pre) ++ runes s).
  simpl. rewrite Hc, IH by exact H. reflexivity.
Qed.

Lemma wrap64_congruent (x : Z) : exists k, wrap64 x = x + k * 2 ^ 64.
Proof.
  unfold wrap64. exists (- ((x + 2 ^ 63) / 2 ^ 64)).
  pose proof (Z.div_mod (x + 2 ^ 63) (2 ^ 64)). lia.
Qed.

Lemma wrap64_periodic (x k : Z) : wrap64 (x + k * 2 ^ 64) = wrap64 x.
Proof.
  unfold wrap64. f_equal.
  replace (x + k * 2 ^ 64 + 2 ^ 63) with (x + 2 ^ 63 + k * 2 ^ 64) by lia.
  apply Z_mod_plus_full.
Qed.

Lemma wrap64_step (x b : Z) : wrap64 (wrap64 x * 33 + b) = wrap64 (x * 33 + b).
Proof.
  destruct (wrap64_congruent x) as [k ->].
  replace ((x + k * 2 ^ 64) * 33 + b) with (x * 33 + b + (33 * k) * 2 ^ 64) by lia.
  apply wrap64_periodic.
Qed.

(** X3. Collisions are systematic: in a key of 7-bit bytes, raising one
    byte by 1 and lowering the next by 33 leaves the hash as it was,
    whatever follows. *)
Theorem hash_collision_family (pre suf : string) (a b a' b' : ascii) :
  seven_bit pre = true ->
  byte_val a' = byte_val a + 1 -> byte_val b' = byte_val b - 33 ->
  byte_val a' < 128 -> byte_val b < 128 ->
  HashStringToInt (pre +:+ String a (String b suf))
  = HashStringToInt (pre +:+ String a' (String b' suf)).
Proof.
  intros Hpre Ha Hb Ha' Hb'. unfold HashStringToInt.
  rewrite !(fold_left_pointwise _ (fun h c => wrap64 (h * 33 + c)) _ hash_step).
  rewrite !runes_seven_bit by exact Hpre. rewrite !fold_left_app.
  assert (Hcons : forall c s, byte_val c < 128 ->
                   runes (String c s) = byte_val c :: runes s).
  { intros c s Hc. simpl. apply Z.ltb_lt in Hc. rewrite Hc. reflexivity. }
  rewrite !Hcons by lia. cbn [fold_left].
  set (h := fold_left _ (map byte_val (list_ascii_of_string pre)) 5381).
  rewrite !wrap64_step, Ha, Hb.
  replace ((h * 33 + (byte_val a + 1)) * 33 + (byte_val b - 33))
    with ((h * 33 + byte_val a) * 33 + byte_val b) by lia.
  reflexivity.
Qed.

Lemma hash_collision_family_witness :
  HashStringToInt "keyAa1" = HashStringToInt "keyB@1".
Proof.
  apply (hash_collision_family "key" "1" "A" "a" "B" "@"); vm_compute; reflexivity.
Defined.

(** ** The B-tree under any insertion *)

(** Every call of [insertKey] on a node counts one key. *)
Lemma insertKey_counts (node : Node) :
  forall Size key val,
    is_nil node = false -> (insertKey Size node key val).1.1 = Size + 1.
Proof.
  induction node as [|cp1 IH1 k1 r1 cp2 IH2 k2 r2 cp3 IH3 k3 r3 cp4 IH4 size];
    intros Size key val Hn; [discriminate|].
  rewrite insertKey_eq.
  assert (Hd : forall c plug idx,
             (forall S k v, is_nil c = false -> (insertKey S c k v).1.1 = S + 1) ->
             (afterDescent Size size c (insertKey Size c key val) plug idx key val).1.1
             = Size + 1).
  { intros c plug idx IH. unfold afterDescent.
    destruct (is_nil c) eqn:Hc; [reflexivity|].
    specialize (IH Size key val eq_refl).
    destruct (insertKey Size c key val) as [[S' c'] res]. simpl in IH. subst S'.
    destruct (promoted res); [|reflexivity]. simpl.
    destruct (size <? 3); [reflexivity|].
    destruct (splitNode _ _ _ _ _). reflexivity. }
  destruct (is_nil cp1 && is_nil cp2 && is_nil cp3 && is_nil cp4).
  - destruct (size <? 3); [reflexivity|]. destruct (splitNode _ _ _ _ _). reflexivity.
  - destruct (key <? k1); [apply Hd, IH1|].
    destruct ((size =? 1) || (key <? k2)); [apply Hd, IH2|].
    destruct ((size =? 2) || (key <? k3)); [apply Hd, IH3|apply Hd, IH4].
Qed.

(** X4. [insert] raises [Size] by one, whatever the tree and the key: a key
    that is already stored is counted again. *)
Theorem insert_counts_one (db : KDB) (key : Z) (val : option string) :
  Size (insert db key val) = Size db + 1.
Proof.
  unfold insert. destruct (head db) eqn:Hh; [reflexivity|].
  rewrite <- Hh.
  pose proof (insertKey_counts (head db) (Size db) key val) as H.
  rewrite Hh in H at 1. specialize (H eq_refl).
  destruct (insertKey (Size db) (head db) key val) as [[S' n] res].
  simpl in H. subst S'. destruct (promoted res); reflexivity.
Qed.

Lemma insert_keeps_btree_ok_witness :
  btree_ok (head (insert abcd 7 None)) = true
  /\ inorder (head (insert abcd 7 None)) = ins 7 (inorder (head abcd))
  /\ Size (insert abcd 7 None) = Size abcd + 1.
Proof.
  apply (insert_keeps_btree_ok abcd 7 None); [vm_compute; reflexivity|vm_compute; lia].
Defined.

Lemma inserts_ordered_witness :
  let db := inserts newKDB [(3, None); (1, None); (2, None); (5, None); (4, None)] in
  btree_ok (head db) = true
  /\ increasing (inorder (head db)) = true
  /\ inorder (head db) ≡ₚ [3; 1; 2; 5; 4]
  /\ Size db = 5.
Proof.
  apply (inserts_ordered [(3, None); (1, None); (2, None); (5, None); (4, None)]).
  compute_done.
Defined.

Lemma puts_ordered_for_distinct_hashes_witness :
  let kvs := [("a", "1"); ("b", "2"); ("c", "3"); ("d", "4")]%string in
  (puts newKDB kvs).1 = [true; true; true; true]
  /\ btree_ok (head (puts newKDB kvs).2) = true
  /\ increasing (inorder (head (puts newKDB kvs).2)) = true
  /\ inorder (head (puts newKDB kvs).2) ≡ₚ map (fun kv => HashStringToInt kv.1) kvs
  /\ Size (puts newKDB kvs).2 = 4.
Proof.
  apply (puts_ordered_for_distinct_hashes
           [("a", "1"); ("b", "2"); ("c", "3"); ("d", "4")]%string).
  compute_done.
Defined.

Lemma searchKey_absent_witness : searchKey (head abcd) "zz" = Nil.
Proof. apply (searchKey_absent (head abcd) "zz"). vm_compute. lia. Defined.

(** *** Balance *)

(** What [afterDescent] returns, for the heights. *)
Lemma descent_level (Size key : Z) (val : option string) (size : Z) (c : Node)
    (plug : Node -> Node) (idx : nat) (h : nat) :
  is_nil c = false ->
  level (height c) (insertKey Size c key val) ->
  (forall c', height c' = height c -> balanced c' = true ->
              height (plug c') = h /\ balanced (plug c') = true) ->
  (size < 3 -> forall c' pk pv nr,
     height c' = height c -> balanced c' = true ->
     height nr = height c -> balanced nr = true ->
     let n := insertPromotedKey (plug c') pk pv nr idx in
     height n = h /\ balanced n = true) ->
  (3 <= size -> forall c' pk pv nr,
     height c' = height c -> balanced c' = true ->
     height nr = height c -> balanced nr = true ->
     let r := splitNode (plug c') pk pv nr (Some idx) in
     promoted r.2 = true
     /\ height r.1 = h /\ balanced r.1 = true
     /\ height (newRight r.2) = h /\ balanced (newRight r.2) = true) ->
  level h (afterDescent Size size c (insertKey Size c key val) plug idx key val).
Proof.
  intros Hnil Hlev Hplug Hprom Hsplit.
  unfold afterDescent. rewrite Hnil.
  destruct (insertKey Size c key val) as [[S' c'] res].
  destruct Hlev as (Hh & Hb & Hup). simpl in Hh, Hb, Hup.
  destruct (promoted res) eqn:Hp; simpl.
  - destruct (Hup eq_refl) as [Hnh Hnb].
    destruct (Z.ltb_spec size 3) as [Hlt|Hge].
    + destruct (Hprom Hlt c' (promotedKey res) (promotedVal res) (newRight res)
                  Hh Hb Hnh Hnb) as [H1 H2].
      unfold level. simpl. conjuncts; auto. discriminate.
    + pose proof (Hsplit Hge c' (promotedKey res) (promotedVal res) (newRight res)
                    Hh Hb Hnh Hnb) as Hsp.
      destruct (splitNode (plug c') (promotedKey res) (promotedVal res)
                  (newRight res) (Some idx)) as [n up].
      simpl in Hsp. destruct Hsp as (U & H1 & H2 & H3 & H4).
      unfold level. simpl. conjuncts; auto.
  - destruct (Hplug c' Hh Hb) as [H1 H2].
    unfold level. simpl. conjuncts; auto. discriminate.
Qed.

Lemma balanced_inv cp1 k1 r1 cp2 k2 r2 cp3 k3 r3 cp4 size :
  balanced (Ref cp1 k1 r1 cp2 k2 r2 cp3 k3 r3 cp4 size) = true ->
  balanced cp1 = true /\ balanced cp2 = true
  /\ balanced cp3 = true /\ balanced cp4 = true
  /\ (1 <= size -> height cp2 = height cp1)
  /\ (2 <= size -> height cp3 = height cp1)
  /\ (3 <= size -> height cp4 = height cp1).
Proof.
  simpl. rewrite !andb_true_iff. intros ((((H & B1) & B2) & B3) & B4).
  do 4 (split; [assumption|]).
  remember (Z.to_nat size) as n eqn:Hn.
  destruct n as [|[|[|n]]]; simpl in H;
    rewrite ?andb_true_iff, ?Nat.eqb_eq in H;
    conjuncts; intros Hs; first [lia | tauto].
Qed.

(** Every height and balance fact at hand, pushed into the goal. *)
Ltac level_facts :=
  repeat match goal with
  | H : height _ = _ |- _ => rewrite H
  | H : balanced _ = true |- _ => rewrite H
  end;
  rewrite ?Nat.eqb_refl.

Ltac level_side :=
  cbv beta zeta; unfold splitNode, shiftIn, childAt; simpl;
  level_facts; simpl; conjuncts; first [reflexivity | lia].

Ltac level_descend IHc Nc Sc Bc :=
  apply descent_level;
  [ exact Nc
  | apply IHc; [exact Nc | exact Sc | exact Bc]
  | intros c' Hc' Bc'; level_side
  | intros ?; first [lia | intros c' pk pv nr Hc' Bc' Hnr Bnr; level_side]
  | intros ?; first [lia | intros c' pk pv nr Hc' Bc' Hnr Bnr; level_side] ].

Lemma insertKey_level (Size key : Z) (val : option string) (node : Node) :
  is_nil node = false -> shape node = true -> balanced node = true ->
  level (height node) (insertKey Size node key val).
Proof.
  induction node as [|cp1 IH1 k1 r1 cp2 IH2 k2 r2 cp3 IH3 k3 r3 cp4 IH4 size];
    intros Hnil Hshape Hbal; [discriminate|].
  apply shape_inv in Hshape as (S1 & S2 & S3 & S4 & Hcases).
  apply balanced_inv in Hbal as (B1 & B2 & B3 & B4 & E2 & E3 & E4).
  destruct Hcases as [(-> & -> & -> & -> & Hsz)
                     | [(-> & N1 & N2 & -> & ->)
                     | [(-> & N1 & N2 & N3 & ->)
                     | (-> & N1 & N2 & N3 & N4)]]].
  - clear - Hsz. assert (Hc : size = 1 \/ size = 2 \/ size = 3) by lia.
    destruct Hc as [-> | [-> | ->]]; unfold level; simpl;
      repeat (progress (cmp; simpl)); conjuncts;
      first [reflexivity | discriminate | intros _; split; reflexivity].
  - clear IH3 IH4 E3 E4. specialize (E2 ltac:(lia)).
    rewrite insertKey_eq, N1. simpl andb. cbv iota.
    destruct (Z.ltb_spec key k1) as [Hk1|Hk1].
    + level_descend IH1 N1 S1 B1.
    + simpl orb. cbv iota. level_descend IH2 N2 S2 B2.
  - clear IH4 E4. specialize (E2 ltac:(lia)). specialize (E3 ltac:(lia)).
    rewrite insertKey_eq, N1. simpl andb. cbv iota.
    destruct (Z.ltb_spec key k1) as [Hk1|Hk1].
    + level_descend IH1 N1 S1 B1.
    + simpl orb. destruct (Z.ltb_spec key k2) as [Hk2|Hk2].
      * level_descend IH2 N2 S2 B2.
      * simpl orb. cbv iota. level_descend IH3 N3 S3 B3.
  - specialize (E2 ltac:(lia)). specialize (E3 ltac:(lia)). specialize (E4 ltac:(lia)).
    rewrite insertKey_eq, N1. simpl andb. cbv iota.
    destruct (Z.ltb_spec key k1) as [Hk1|Hk1].
    + level_descend IH1 N1 S1 B1.
    + simpl orb. destruct (Z.ltb_spec key k2) as [Hk2|Hk2].
      * level_descend IH2 N2 S2 B2.
      * simpl orb. destruct (Z.ltb_spec key k3) as [Hk3|Hk3].
        -- level_descend IH3 N3 S3 B3.
        -- level_descend IH4 N4 S4 B4.
Qed.

(** The tree grows at the root only, and stays balanced. *)
Lemma insert_level (db : KDB) (key : Z) (val : option string) :
  shape (head db) = true -> balanced (head db) = true ->
  balanced (head (insert db key val)) = true
  /\ (height (head (insert db key val)) = height (head db)
      \/ height (head (insert db key val)) = S (height (head db))).
Proof.
  intros Hsh Hb. unfold insert.
  destruct (head db) as [|cp1 k1 r1 cp2 k2 r2 cp3 k3 r3 cp4 size] eqn:Hh.
  - simpl. auto.
  - rewrite <- Hh in *.
    assert (Hn : is_nil (head db) = false) by (rewrite Hh; reflexivity).
    pose proof (insertKey_level (Size db) key val (head db) Hn Hsh Hb) as Hl.
    destruct (insertKey (Size db) (head db) key val) as [[S' n'] res].
    destruct Hl as (H1 & H2 & H3). simpl in H1, H2, H3.
    destruct (promoted res); simpl.
    + destruct (H3 eq_refl) as [H4 H5].
      rewrite H1, H4, H2, H5, Nat.eqb_refl. simpl. split; [reflexivity|].
      right. lia.
    + auto.
Qed.

(** A balanced tree of height [h] holds at least [2 ^ h - 1] keys. *)
Lemma balanced_size (t : Node) :
  shape t = true -> balanced t = true ->
  (2 ^ height t <= List.length (inorder t) + 1)%nat.
Proof.
  induction t as [|cp1 IH1 k1 r1 cp2 IH2 k2 r2 cp3 IH3 k3 r3 cp4 IH4 size];
    intros Hsh Hb; [simpl; lia|].
  apply shape_inv in Hsh as (S1 & S2 & S3 & S4 & Hcases).
  apply balanced_inv in Hb as (B1 & B2 & B3 & B4 & E2 & E3 & E4).
  specialize (IH1 S1 B1). specialize (IH2 S2 B2).
  specialize (IH3 S3 B3). specialize (IH4 S4 B4).
  assert (H3 : (height cp3 <= height cp1)%nat).
  { destruct Hcases as [(-> & -> & -> & -> & Hsz)
                       | [(-> & N1 & N2 & -> & ->)
                       | [(-> & N1 & N2 & N3 & ->)
                       | (-> & N1 & N2 & N3 & N4)]]];
      simpl; try lia; rewrite E3; lia. }
  assert (H4 : (height cp4 <= height cp1)%nat).
  { destruct Hcases as [(-> & -> & -> & -> & Hsz)
                       | [(-> & N1 & N2 & -> & ->)
                       | [(-> & N1 & N2 & N3 & ->)
                       | (-> & N1 & N2 & N3 & N4)]]];
      simpl; try lia; rewrite E4; lia. }
  assert (Hs1 : 1 <= size) by (destruct Hcases as [?|[?|[?|?]]]; lia).
  specialize (E2 Hs1).
  assert (Hh : height (Ref cp1 k1 r1 cp2 k2 r2 cp3 k3 r3 cp4 size)
               = S (height cp1)) by (simpl; lia).
  rewrite Hh, Nat.pow_succ_r'. rewrite E2 in IH2.
  simpl inorder. rewrite !length_app.
  destruct (Z.leb_spec 1 size); [|lia]. simpl List.length. lia.
Qed.

Lemma insert_store_ok (db : KDB) (key : Z) (val : option string) :
  store_ok db -> store_ok (insert db key val).
Proof.
  intros (Hsh & Hs & Hb & Hn).
  destruct (insert_inorder db key val Hsh Hs) as (Hsh' & Hin & Hsz & _).
  destruct (insert_level db key val Hsh Hb) as [Hb' _].
  unfold store_ok. rewrite Hin, Hsz, Hn.
  conjuncts; [exact Hsh'|apply sorted_ins; exact Hs|exact Hb'|].
  rewrite (Permutation_length (ins_perm key (inorder (head db)))).
  simpl List.length. lia.
Qed.

Lemma put_store_ok
    (json_Marshal : WALOperation -> option string)
    (e : Env) (db : KDB) (disk : Disk) (key val : string) :
  store_ok db -> store_ok (Put json_Marshal e db disk key val).1.2.
Proof.
  intros Hok. unfold Put. destruct (checkIsDuplicateKey db key); [exact Hok|].
  destruct (wal db) as [w|].
  - destruct (Log json_Marshal e w disk "PUT" key val) as [[[err|] w'] d']; simpl.
    + exact Hok.
    + apply (insert_store_ok (mkKDB (head db) (Size db) (Some w'))). exact Hok.
  - apply insert_store_ok. exact Hok.
Qed.

(** A store that is [store_ok] has a tree of logarithmic height. *)
Lemma store_ok_height (db : KDB) :
  store_ok db -> (2 ^ height (head db) <= Z.to_nat (Size db) + 1)%nat.
Proof.
  intros (Hsh & _ & Hb & Hn). rewrite Hn, Nat2Z.id.
  apply balanced_size; assumption.
Qed.

(** The tree that [insert] builds does not depend on the log handle. *)
Lemma insert_head (db : KDB) (w : option WAL) (key : Z) (val : option string) :
  head (insert db key val)
  = head (insert (mkKDB (head db) (Size db) w) key val).
Proof.
  unfold insert. simpl. destruct (head db); [reflexivity|].
  destruct (insertKey _ _ _ _) as [[S' n'] res].
  destruct (promoted res); reflexivity.
Qed.

(** X5. Whatever [Put] does, with or without a log, committed or not,
    duplicate or not: the nodes stay occupied as the data model says, the
    traversal stays non-decreasing, the tree stays balanced and [Size] stays
    the number of keys in the tree; the tree gets at most one level higher
    and its height stays logarithmic in [Size]. *)
Theorem put_keeps_store_ok
    (json_Marshal : WALOperation -> option string)
    (e : Env) (db : KDB) (disk : Disk) (key val : string) :
  store_ok db ->
  let db' := (Put json_Marshal e db disk key val).1.2 in
  store_ok db'
  /\ (height (head db') = height (head db)
      \/ height (head db') = S (height (head db)))
  /\ (2 ^ height (head db') <= Z.to_nat (Size db') + 1)%nat.
Proof.
  intros Hok db'.
  pose proof (put_store_ok json_Marshal e db disk key val Hok) as Hok'.
  fold db' in Hok'. split; [exact Hok'|]. split; [|apply store_ok_height; exact Hok'].
  destruct Hok as (Hsh & _ & Hb & _).
  destruct (insert_level db (HashStringToInt key) (Some val) Hsh Hb) as [_ Hh].
  subst db'. unfold Put. destruct (checkIsDuplicateKey db key); [left; reflexivity|].
  destruct (wal db) as [w|].
  - destruct (Log json_Marshal e w disk "PUT" key val) as [[[err|] w'] d']; simpl.
    + left. reflexivity.
    + rewrite <- (insert_head db (Some w')). exact Hh.
  - exact Hh.
Qed.

Lemma put_keeps_store_ok_witness :
  let db' := (Put Wire.marshal (calm 0) abcd ∅ "c" "x").1.2 in
  store_ok db'
  /\ (height (head db') = height (head abcd)
      \/ height (head db') = S (height (head abcd)))
  /\ (2 ^ height (head db') <= Z.to_nat (Size db') + 1)%nat.
Proof.
  apply (put_keeps_store_ok Wire.marshal (calm 0) abcd ∅ "c" "x").
  unfold store_ok. conjuncts; [vm_compute; reflexivity| |vm_compute; reflexivity..].
  vm_compute. repeat constructor; discriminate.
Defined.

Lemma replay_store_ok
    (json_Marshal : WALOperation -> option string)
    (e : Env) (disk : Disk) (ops : list WALOperation) :
  forall db, store_ok db -> store_ok (replay json_Marshal e db disk ops).
Proof.
  unfold replay. induction ops as [|op ops IH]; intros db Hok; [exact Hok|].
  simpl. apply IH. destruct (String.eqb (Operation op) "PUT"); [|exact Hok].
  apply put_store_ok. exact Hok.
Qed.

(** X6. Whatever the log file holds (records of one key twice, records in
    any order, lines that are no records), the store that [newKDBWithWAL]
    returns has a well-occupied, balanced tree with a non-decreasing
    traversal, [Size] is its number of keys and its height is logarithmic in
    [Size]. *)
Theorem recovered_store_ok
    (json_Marshal : WALOperation -> option string)
    (json_Unmarshal : string -> option WALOperation)
    (e : Env) (p : string) (disk disk' : Disk) (db : KDB) :
  newKDBWithWAL json_Marshal json_Unmarshal e p disk = (inl db, disk') ->
  store_ok db /\ (2 ^ height (head db) <= Z.to_nat (Size db) + 1)%nat.
Proof.
  intros H.
  assert (Hok : store_ok db).
  { unfold newKDBWithWAL in H.
    destruct (NewWAL json_Unmarshal e p disk) as [[w|err] d]; [|discriminate].
    unfold recoverFromWAL in H. simpl in H.
    destruct (Recover json_Unmarshal e w d) as [ops [err|]]; [discriminate|].
    injection H as <- <-.
    pose proof (replay_store_ok json_Marshal e d ops (mkKDB Nil 0 None)) as Hr.
    apply Hr. unfold store_ok. simpl. auto. }
  split; [exact Hok|apply store_ok_height; exact Hok].
Qed.

Lemma recovered_store_ok_witness :
  let disk : Disk :=
    {[walPath := (negative_seq_file +:+ "{oops" +:+ nl +:+ negative_seq_file)%string]} in
  let r := newKDBWithWAL Wire.marshal Wire.unmarshal (calm 0) walPath disk in
  store_ok (opened r)
  /\ (2 ^ height (head (opened r)) <= Z.to_nat (Size (opened r)) + 1)%nat.
Proof.
  intros disk r.
  apply (recovered_store_ok Wire.marshal Wire.unmarshal (calm 0) walPath disk r.2).
  vm_compute. reflexivity.
Defined.

(** X7. Any run of [Put]s on the empty store, whatever the keys (equal
    keys, keys with equal hashes): the tree stays well occupied and
    balanced, the traversal non-decreasing, [Size] the number of keys in the
    tree and the height logarithmic in [Size]. *)
Theorem puts_store_ok (kvs : list (string * string)) :
  store_ok (puts newKDB kvs).2
  /\ (2 ^ height (head (puts newKDB kvs).2)
      <= Z.to_nat (Size (puts newKDB kvs).2) + 1)%nat.
Proof.
  assert (Hok : forall acc, store_ok acc.2 ->
            store_ok (fold_left
              (fun acc kv =>
                 let '(r, db') := mem_put acc.2 kv.1 kv.2 in (acc.1 ++ [r.1], db'))
              kvs acc).2).
  { induction kvs as [|[k v] kvs IH]; intros acc Hacc; [exact Hacc|].
    simpl. apply IH.
    pose proof (put_store_ok Wire.marshal (calm 0) acc.2 ∅ k v Hacc) as Hp.
    unfold mem_put. destruct (Put Wire.marshal (calm 0) acc.2 ∅ k v) as [[r d] ?].
    exact Hp. }
  specialize (Hok ([], newKDB)). unfold puts.
  assert (H0 : store_ok newKDB) by (unfold store_ok; simpl; auto).
  specialize (Hok H0). split; [exact Hok|apply store_ok_height; exact Hok].
Qed.

(** ** Reading back what was put *)

Lemma inorder_bindings (t : Node) : inorder t = map fst (bindings t).
Proof.
  induction t as [|cp1 IH1 k1 r1 cp2 IH2 k2 r2 cp3 IH3 k3 r3 cp4 IH4 size];
    [reflexivity|].
  simpl. rewrite !map_app, IH1, IH2, IH3, IH4.
  destruct (1 <=? size), (2 <=? size), (3 <=? size); reflexivity.
Qed.

(** The four sorted items of [splitNode] are the three entries of the node
    and the new one. *)
Lemma sort4_items (k1 k2 k3 p : Z) (r1 r2 r3 v : option string) :
  exists y1 y2 y3 y4,
    sortSlice (fun a b : kv => a.1 <? b.1)
      [(k1, r1); (k2, r2); (k3, r3); (p, v)] = [y1; y2; y3; y4]
    /\ forall x, In x [y1; y2; y3; y4]
                 <-> In x [(k1, r1); (k2, r2); (k3, r3); (p, v)].
Proof.
  unfold sortSlice. simpl.
  repeat match goal with
  | |- context [?x <? ?y] => destruct (x <? y); simpl
  end;
  do 4 eexists; (split; [reflexivity|intros x; simpl; tauto]).
Qed.

(** What [afterDescent] hands up, from what the recursive call on the child
    handed up. *)
Lemma descent_bindings (Size key : Z) (val : option string) (size : Z) (c : Node)
    (plug : Node -> Node) (idx : nat) (rest : list kv) :
  is_nil c = false ->
  (forall b, In b (handed_up (insertKey Size c key val))
             <-> In b ((key, val) :: bindings c)) ->
  (forall c' b, In b (bindings (plug c')) <-> In b (bindings c' ++ rest)) ->
  (size < 3 -> forall c' pk pv nr b,
     In b (bindings (insertPromotedKey (plug c') pk pv nr idx))
     <-> In b (bindings c' ++ (pk, pv) :: bindings nr ++ rest)) ->
  (3 <= size -> forall c' pk pv nr,
     let r := splitNode (plug c') pk pv nr (Some idx) in
     promoted r.2 = true
     /\ forall b,
          In b (bindings r.1 ++ (promotedKey r.2, promotedVal r.2)
                             :: bindings (newRight r.2))
          <-> In b (bindings c' ++ (pk, pv) :: bindings nr ++ rest)) ->
  forall b,
    In b (handed_up (afterDescent Size size c (insertKey Size c key val)
                       plug idx key val))
    <-> In b ((key, val) :: bindings (plug c)).
Proof.
  intros Hnil Hsub Hplug Hprom Hsplit b.
  unfold afterDescent. rewrite Hnil.
  destruct (insertKey Size c key val) as [[S' c'] res].
  unfold handed_up in Hsub. simpl in Hsub.
  specialize (Hsub b). pose proof (Hplug c b) as Hc.
  simpl. rewrite Hc, in_app_iff. rewrite in_app_iff in Hsub.
  destruct (promoted res) eqn:Hp; simpl.
  - simpl in Hsub. destruct (Z.ltb_spec size 3) as [Hlt|Hge].
    + unfold handed_up. simpl. rewrite app_nil_r.
      rewrite (Hprom Hlt c' (promotedKey res) (promotedVal res) (newRight res) b).
      rewrite in_app_iff. simpl. rewrite in_app_iff. tauto.
    + pose proof (Hsplit Hge c' (promotedKey res) (promotedVal res)
                    (newRight res)) as Hsp.
      destruct (splitNode (plug c') (promotedKey res) (promotedVal res)
                  (newRight res) (Some idx)) as [n up].
      simpl in Hsp. destruct Hsp as [Hup Hb]. specialize (Hb b).
      unfold handed_up. simpl. rewrite Hup, Hb.
      rewrite in_app_iff. simpl. rewrite in_app_iff. tauto.
  - unfold handed_up. simpl. rewrite app_nil_r, Hplug, in_app_iff.
    simpl in Hsub. tauto.
Qed.

(** A goal among the alternatives at hand. *)
Ltac pick := first [assumption | left; pick | right; pick].

Ltac cases :=
  repeat match goal with
  | H : _ \/ _ |- _ => destruct H as [H|H]
  | H : False |- _ => destruct H
  end.

Ltac flatten_members := repeat (progress (simpl; rewrite ?in_app_iff)).

(** Two lists with the same members, both written out. *)
Ltac members :=
  flatten_members;
  let H := fresh "H" in split; intros H; cases; pick.

(** The same with the four sorted items of a split, which [HM] relates to
    the three entries of the node and the new one. *)
Ltac members_sorted HM :=
  flatten_members;
  let H := fresh "H" in
  split; intros H; cases;
  first [ pick
        | let Hy := fresh "Hy" in
          first [ pose proof (proj1 HM ltac:(pick)) as Hy
                | pose proof (proj2 HM ltac:(pick)) as Hy ];
          cases; pick ].

Ltac split_members k1 r1 k2 r2 k3 r3 :=
  let HS := fresh "HS" in let HM := fresh "HM" in
  intros c' pk pv nr;
  destruct (sort4_items k1 k2 k3 pk r1 r2 r3 pv)
    as ([a1 v1] & [a2 v2] & [a3 v3] & [a4 v4] & HS & HM);
  cbv beta zeta; unfold splitNode, shiftIn, childAt; simpl;
  rewrite HS; simpl; split; [reflexivity|];
  let b := fresh "b" in intros b; specialize (HM b); simpl in HM;
  members_sorted HM.

Ltac bindings_descend IHc Nc Sc restc k1 r1 k2 r2 k3 r3 :=
  lazymatch goal with
  | |- forall b, In b (handed_up (afterDescent ?Sz ?sz ?c _ ?plug ?idx ?k ?v)) <-> _ =>
    apply (descent_bindings Sz k v sz c plug idx restc)
  end;
  [ exact Nc
  | apply IHc; [exact Nc | exact Sc]
  | intros c' b; members
  | intros ?; first [lia | intros c' pk pv nr b; members]
  | intros ?; first [lia | split_members k1 r1 k2 r2 k3 r3] ].

(** [insertKey] adds the new entry and loses none. *)
Lemma insertKey_bindings (Size key : Z) (val : option string) (node : Node) :
  is_nil node = false -> shape node = true ->
  forall b, In b (handed_up (insertKey Size node key val))
            <-> In b ((key, val) :: bindings node).
Proof.
  induction node as [|cp1 IH1 k1 r1 cp2 IH2 k2 r2 cp3 IH3 k3 r3 cp4 IH4 size];
    intros Hnil Hshape; [discriminate|].
  apply shape_inv in Hshape as (S1 & S2 & S3 & S4 & Hcases).
  destruct Hcases as [(-> & -> & -> & -> & Hsz)
                     | [(-> & N1 & N2 & -> & ->)
                     | [(-> & N1 & N2 & N3 & ->)
                     | (-> & N1 & N2 & N3 & N4)]]].
  - clear - Hsz. assert (Hc : size = 1 \/ size = 2 \/ size = 3) by lia.
    destruct Hc as [-> | [-> | ->]]; intros b.
    + unfold handed_up. simpl. destruct (key <? k1); members.
    + unfold handed_up. simpl. destruct (key <? k1); [|destruct (key <? k2)]; members.
    + destruct (sort4_items k1 k2 k3 key r1 r2 r3 val)
        as ([a1 v1] & [a2 v2] & [a3 v3] & [a4 v4] & HS & HM).
      unfold handed_up. simpl. rewrite HS. specialize (HM b). simpl in HM.
      members_sorted HM.
  - clear IH3 IH4.
    rewrite insertKey_eq, N1. simpl andb. cbv iota.
    destruct (Z.ltb_spec key k1) as [Hk1|Hk1].
    + bindings_descend IH1 N1 S1 ((k1, r1) :: bindings cp2) k1 r1 k2 r2 k3 r3.
    + simpl orb. cbv iota.
      bindings_descend IH2 N2 S2 ((k1, r1) :: bindings cp1) k1 r1 k2 r2 k3 r3.
  - clear IH4.
    rewrite insertKey_eq, N1. simpl andb. cbv iota.
    destruct (Z.ltb_spec key k1) as [Hk1|Hk1].
    + bindings_descend IH1 N1 S1
        ((k1, r1) :: (k2, r2) :: bindings cp2 ++ bindings cp3) k1 r1 k2 r2 k3 r3.
    + simpl orb. destruct (Z.ltb_spec key k2) as [Hk2|Hk2].
      * bindings_descend IH2 N2 S2
          ((k1, r1) :: (k2, r2) :: bindings cp1 ++ bindings cp3) k1 r1 k2 r2 k3 r3.
      * simpl orb. cbv iota.
        bindings_descend IH3 N3 S3
          ((k1, r1) :: (k2, r2) :: bindings cp1 ++ bindings cp2) k1 r1 k2 r2 k3 r3.
  - rewrite insertKey_eq, N1. simpl andb. cbv iota.
    destruct (Z.ltb_spec key k1) as [Hk1|Hk1].
    + bindings_descend IH1 N1 S1
        ((k1, r1) :: (k2, r2) :: (k3, r3)
         :: bindings cp2 ++ bindings cp3 ++ bindings cp4) k1 r1 k2 r2 k3 r3.
    + simpl orb. destruct (Z.ltb_spec key k2) as [Hk2|Hk2].
      * bindings_descend IH2 N2 S2
          ((k1, r1) :: (k2, r2) :: (k3, r3)
           :: bindings cp1 ++ bindings cp3 ++ bindings cp4) k1 r1 k2 r2 k3 r3.
      * simpl orb. destruct (Z.ltb_spec key k3) as [Hk3|Hk3].
        -- bindings_descend IH3 N3 S3
             ((k1, r1) :: (k2, r2) :: (k3, r3)
              :: bindings cp1 ++ bindings cp2 ++ bindings cp4) k1 r1 k2 r2 k3 r3.
        -- bindings_descend IH4 N4 S4
             ((k1, r1) :: (k2, r2) :: (k3, r3)
              :: bindings cp1 ++ bindings cp2 ++ bindings cp3) k1 r1 k2 r2 k3 r3.
Qed.

Lemma bindings_key (t : Node) (h : Z) (rp : option string) :
  In (h, rp) (bindings t) -> In h (inorder t).
Proof.
  intros H. rewrite inorder_bindings. apply (in_map fst) in H. exact H.
Qed.

(** Every comparison of the goal decided from the order facts at hand. *)
Ltac decide_cmp :=
  repeat (match goal with
          | |- context [?a =? ?b] => destruct (Z.eqb_spec a b); try lia
          | |- context [?a <? ?b] => destruct (Z.ltb_spec a b); try lia
          | |- context [?a <=? ?b] => destruct (Z.leb_spec a b); try lia
          end; simpl).

(** The bounds that the separators put on a key found in a child. *)
Ltac bounds h :=
  repeat match goal with
  | Hin : In (h, _) (bindings ?c), HF : Forall _ (inorder ?c) |- _ =>
    let Hb := fresh "Hb" in
    pose proof (proj1 (List.Forall_forall _ _) HF h (bindings_key _ _ _ Hin)) as Hb;
    simpl in Hb; clear HF
  end.

Ltac flatten_in H := repeat (progress (simpl in H; rewrite ?in_app_iff in H)).

(** In a tree that satisfies the invariants [Get] finds every entry. *)
Lemma Get_from_spec (t : Node) (h : Z) (rp : option string) :
  btree_ok t = true -> In (h, rp) (bindings t) -> Get_from t h = deref rp.
Proof.
  induction t as [|cp1 IH1 k1 r1 cp2 IH2 k2 r2 cp3 IH3 k3 r3 cp4 IH4 size];
    intros Hok Hin; [destruct Hin|].
  pose proof (btree_ok_shape _ Hok) as Hsh.
  apply shape_inv in Hsh as (_ & _ & _ & _ & Hc).
  cbn [btree_ok] in Hok. rewrite !andb_true_iff in Hok. destruct_and!.
  repeat match goal with
  | H : btree_ok ?c = true, IH : btree_ok ?c = true -> _ |- _ =>
    specialize (IH H)
  end.
  rewrite ?below_spec, ?above_spec in *.
  destruct Hc as [(-> & -> & -> & -> & Hsz)
                 | [(-> & N1 & N2 & -> & ->)
                 | [(-> & N1 & N2 & N3 & ->)
                 | (-> & N1 & N2 & N3 & N4)]]].
  - assert (Hc : size = 1 \/ size = 2 \/ size = 3) by lia.
    destruct Hc as [-> | [-> | ->]]; simpl in *;
      rewrite ?andb_true_iff, ?Z.ltb_lt in *; destruct_and?; cases;
      match goal with H : (_, _) = (_, _) |- _ => injection H as <- <- end;
      decide_cmp; reflexivity.
  - simpl in *. flatten_in Hin. cases.
    + bounds h. decide_cmp. auto.
    + injection Hin as <- <-. decide_cmp. reflexivity.
    + bounds h. decide_cmp. auto.
  - simpl in *. rewrite ?andb_true_iff, ?Z.ltb_lt in *. destruct_and?.
    rewrite ?below_spec, ?above_spec in *.
    flatten_in Hin. cases;
      first [ injection Hin as <- <-; decide_cmp; reflexivity
            | bounds h; decide_cmp; auto ].
  - simpl in *. rewrite ?andb_true_iff, ?Z.ltb_lt in *. destruct_and?.
    rewrite ?below_spec, ?above_spec in *.
    flatten_in Hin. cases;
      first [ injection Hin as <- <-; decide_cmp; reflexivity
            | bounds h; decide_cmp; auto ].
Qed.

Lemma insert_bindings (db : KDB) (key : Z) (val : option string) :
  shape (head db) = true ->
  forall b, In b (bindings (head (insert db key val)))
            <-> In b ((key, val) :: bindings (head db)).
Proof.
  intros Hsh b. unfold insert.
  destruct (head db) as [|cp1 k1 r1 cp2 k2 r2 cp3 k3 r3 cp4 size] eqn:Hh.
  - simpl. tauto.
  - rewrite <- Hh in *.
    assert (Hn : is_nil (head db) = false) by (rewrite Hh; reflexivity).
    pose proof (insertKey_bindings (Size db) key val (head db) Hn Hsh b) as Hb.
    destruct (insertKey (Size db) (head db) key val) as [[S' n'] res].
    unfold handed_up in Hb. simpl in Hb.
    destruct (promoted res); simpl.
    + rewrite <- Hb. members.
    + rewrite <- Hb, app_nil_r. tauto.
Qed.

Lemma insert_fresh_ok (db : KDB) (key : Z) (val : option string) :
  btree_ok (head db) = true -> ~ In key (inorder (head db)) ->
  btree_ok (head (insert db key val)) = true.
Proof.
  intros Hok Hk. apply btree_ok_iff in Hok as [Hsh Hinc].
  destruct (insert_inorder db key val Hsh (increasing_sorted _ Hinc))
    as (Hsh' & Hin & _).
  apply btree_ok_iff. split; [exact Hsh'|].
  rewrite Hin. apply increasing_ins; assumption.
Qed.

Lemma Get_from_absent (t : Node) (h : Z) :
  ~ In h (inorder t) -> Get_from t h = (EmptyString, false).
Proof.
  induction t as [|cp1 IH1 k1 r1 cp2 IH2 k2 r2 cp3 IH3 k3 r3 cp4 IH4 size];
    intros Hn; [reflexivity|].
  simpl in Hn. rewrite !in_app_iff in Hn.
  assert (H1 : (1 <=? size) && (k1 =? h) = false).
  { destruct (Z.leb_spec 1 size); [|reflexivity].
    destruct (Z.eqb_spec k1 h); [|reflexivity].
    exfalso. apply Hn. right. left. left. auto. }
  assert (H2 : (2 <=? size) && (k2 =? h) = false).
  { destruct (Z.leb_spec 2 size); [|reflexivity].
    destruct (Z.eqb_spec k2 h); [|reflexivity].
    exfalso. apply Hn. right. right. right. left. left. auto. }
  assert (H3 : (3 <=? size) && (k3 =? h) = false).
  { destruct (Z.leb_spec 3 size); [|reflexivity].
    destruct (Z.eqb_spec k3 h); [|reflexivity].
    exfalso. apply Hn. do 5 right. left. left. auto. }
  cbn [Get_from]. rewrite H1, H2, H3.
  destruct (h <? k1); [apply IH1; tauto|].
  destruct ((size =? 1) || (h <? k2)); [apply IH2; tauto|].
  destruct ((size =? 2) || (h <? k3)); [apply IH3; tauto|].
  apply IH4; tauto.
Qed.

(** After an insertion of a fresh key, what [Get_from] answers. *)
Lemma Get_from_insert (db : KDB) (key : Z) (val : option string) :
  btree_ok (head db) = true -> ~ In key (inorder (head db)) ->
  Get_from (head (insert db key val)) key = deref val
  /\ forall h, h <> key ->
       Get_from (head (insert db key val)) h = Get_from (head db) h.
Proof.
  intros Hok Hk.
  pose proof (insert_fresh_ok db key val Hok Hk) as Hok'.
  pose proof (btree_ok_shape _ Hok) as Hsh.
  pose proof (insert_bindings db key val Hsh) as Hb.
  split.
  - apply Get_from_spec; [exact Hok'|]. apply Hb. left. reflexivity.
  - intros h Hh.
    destruct (in_dec Z.eq_dec h (inorder (head db))) as [Hin|Hout].
    + rewrite inorder_bindings in Hin. apply in_map_iff in Hin as ([h' rp] & E & Hin).
      simpl in E. subst h'.
      rewrite (Get_from_spec _ h rp Hok Hin).
      apply Get_from_spec; [exact Hok'|]. apply Hb. right. exact Hin.
    + rewrite (Get_from_absent _ _ Hout). apply Get_from_absent.
      rewrite inorder_bindings. intros Hin.
      apply in_map_iff in Hin as ([h' rp] & E & Hin). simpl in E. subst h'.
      apply Hb in Hin. destruct Hin as [E|Hin]; [congruence|].
      apply Hout. eapply bindings_key. exact Hin.
Qed.

(** X8. [Get] never invents a key: when the hash of the key is in no node
    it answers the empty string and false, whatever the shape of the tree. *)
Theorem Get_missing (db : KDB) (key : string) :
  ~ In (HashStringToInt key) (inorder (head db)) -> Get db key = (EmptyString, false).
Proof. intros H. apply Get_from_absent. exact H. Qed.

Lemma Get_missing_witness : Get abcd "zz" = (EmptyString, false).
Proof. apply (Get_missing abcd "zz"). vm_compute. lia. Defined.

(** X9. Read your write: on a tree that satisfies the invariants, a
    committed [Put] of a key whose hash was not stored makes [Get] answer
    the value for that key, and changes the answer for no key with another
    hash. *)
Theorem put_then_get
    (json_Marshal : WALOperation -> option string)
    (e : Env) (db db' : KDB) (disk disk' : Disk) (key val : string) :
  btree_ok (head db) = true ->
  ~ In (HashStringToInt key) (inorder (head db)) ->
  Put json_Marshal e db disk key val = ((true, val), db', disk') ->
  Get db' key = (val, true)
  /\ forall key', HashStringToInt key' <> HashStringToInt key ->
       Get db' key' = Get db key'.
Proof.
  intros Hok Hk HP.
  assert (Hh : head db' = head (insert db (HashStringToInt key) (Some val))).
  { unfold Put in HP. destruct (checkIsDuplicateKey db key); [discriminate|].
    destruct (wal db) as [w|].
    - destruct (Log json_Marshal e w disk "PUT" key val) as [[[err|] w'] d'];
        [discriminate|].
      injection HP as <- <-. symmetry. apply insert_head.
    - injection HP as <- <-. reflexivity. }
  unfold Get. rewrite Hh.
  destruct (Get_from_insert db (HashStringToInt key) (Some val) Hok Hk) as [H1 H2].
  split; [exact H1|]. intros key' Hk'. apply H2. exact Hk'.
Qed.

Lemma put_then_get_witness :
  let r := Put Wire.marshal (calm 0) abcd ∅ "e" "5" in
  Get r.1.2 "e" = ("5"%string, true)
  /\ forall key', HashStringToInt key' <> HashStringToInt "e" ->
       Get r.1.2 key' = Get abcd key'.
Proof.
  intros r.
  apply (put_then_get Wire.marshal (calm 0) abcd r.1.2 ∅ r.2 "e" "5").
  - vm_compute. reflexivity.
  - vm_compute. lia.
  - vm_compute. reflexivity.
Defined.

Lemma puts_bindings (kvs : list (string * string)) :
  forall (flags : list bool) (db : KDB),
    wal db = None ->
    btree_ok (head db) = true ->
    NoDup (map (fun kv => HashStringToInt kv.1) kvs ++ inorder (head db)) ->
    let r := fold_left
               (fun acc kv =>
                  let '(r, db') := mem_put acc.2 kv.1 kv.2 in (acc.1 ++ [r.1], db'))
               kvs (flags, db) in
    btree_ok (head r.2) = true
    /\ forall b, In b (bindings (head r.2))
                 <-> In b (map entry kvs ++ bindings (head db)).
Proof.
  induction kvs as [|[k v] kvs IH]; intros flags db Hw Hok Hnd.
  - simpl. split; [exact Hok|tauto].
  - simpl in Hnd. apply NoDup_cons in Hnd as [Hk Hnd].
    rewrite elem_of_app, !list_elem_of_In in Hk.
    assert (Hfresh : ~ In (HashStringToInt k) (inorder (head db))) by tauto.
    pose proof (btree_ok_iff (head db)) as [Hiff _].
    destruct (Hiff Hok) as [Hsh Hinc].
    destruct (insert_inorder db (HashStringToInt k) (Some v) Hsh
                (increasing_sorted _ Hinc)) as (_ & Hin' & _ & Hw').
    pose proof (insert_fresh_ok db (HashStringToInt k) (Some v) Hok Hfresh) as Hok'.
    pose proof (insert_bindings db (HashStringToInt k) (Some v) Hsh) as Hb.
    set (db1 := insert db (HashStringToInt k) (Some v)) in *.
    assert (Hnd' : NoDup (map (fun kv => HashStringToInt kv.1) kvs
                            ++ inorder (head db1))).
    { rewrite Hin', ins_perm. apply NoDup_app in Hnd as (H1 & H2 & H3).
      apply NoDup_app. split; [exact H1|]. split.
      - intros x Hx. rewrite not_elem_of_cons. split; [|auto].
        intros ->. apply Hk. left. apply list_elem_of_In. exact Hx.
      - apply NoDup_cons. split; [|exact H3].
        rewrite list_elem_of_In. tauto. }
    rewrite Hw in Hw'.
    simpl fold_left. rewrite mem_put_fresh by tauto. fold db1.
    destruct (IH (flags ++ [true]) db1 Hw' Hok' Hnd') as [H1 H2].
    split; [exact H1|]. intros b. rewrite H2.
    rewrite !in_app_iff. rewrite Hb. simpl. unfold entry at 2. simpl. tauto.
Qed.

(** X10. After [Put]s of keys with pairwise distinct hashes on the empty
    store, [Get] answers for each key the value it was put with, and the
    empty string and false for every key whose hash is none of theirs. *)
Theorem puts_then_get (kvs : list (string * string)) :
  NoDup (map (fun kv => HashStringToInt kv.1) kvs) ->
  (forall k v, In (k, v) kvs -> Get (puts newKDB kvs).2 k = (v, true))
  /\ (forall k, ~ In (HashStringToInt k) (map (fun kv => HashStringToInt kv.1) kvs) ->
        Get (puts newKDB kvs).2 k = (EmptyString, false)).
Proof.
  intros Hnd. unfold puts.
  destruct (puts_bindings kvs [] newKDB eq_refl eq_refl) as [Hok Hb].
  { simpl. rewrite app_nil_r. exact Hnd. }
  simpl in Hb. split.
  - intros k v Hin. unfold Get.
    apply (Get_from_spec _ _ (Some v)); [exact Hok|].
    apply Hb. rewrite app_nil_r. apply (in_map entry) in Hin. exact Hin.
  - intros k Hk. apply Get_from_absent. intros Hin.
    rewrite inorder_bindings in Hin.
    apply in_map_iff in Hin as ([h rp] & E & Hin). simpl in E. subst h.
    apply Hb in Hin. rewrite app_nil_r in Hin.
    apply in_map_iff in Hin as ([k' v'] & E & Hin). injection E as E _.
    apply Hk. rewrite <- E.
    apply (in_map (fun kv => HashStringToInt kv.1)) in Hin. exact Hin.
Qed.

Lemma puts_then_get_witness :
  let kvs := [("a", "1"); ("b", "2"); ("c", "3"); ("d", "4"); ("e", "5")]%string in
  (forall k v, In (k, v) kvs -> Get (puts newKDB kvs).2 k = (v, true))
  /\ (forall k, ~ In (HashStringToInt k) (map (fun kv => HashStringToInt kv.1) kvs) ->
        Get (puts newKDB kvs).2 k = (EmptyString, false)).
Proof.
  apply (puts_then_get
           [("a", "1"); ("b", "2"); ("c", "3"); ("d", "4"); ("e", "5")]%string).
  compute_done.
Defined.

(** ** Closing, opening and checkpoints *)

(** [Log] through a handle that was closed, or without a handle: it fails,
    writes nothing and leaves the handle as it is. *)
Lemma log_on_shut
    (json_Marshal : WALOperation -> option string)
    (e : Env) (w : WAL) (disk : Disk) (operation key value : string) :
  match file w with Some f => closed f | None => true end = true ->
  exists err w',
    Log json_Marshal e w disk operation key value = (Some err, w', disk)
    /\ file w' = file w.
Proof.
  intros H. unfold Log. destruct (json_Marshal _); [|eauto].
  unfold file_Write. destruct (file w) as [f|]; [|eauto].
  rewrite H. eauto.
Qed.

Lemma put_on_shut
    (json_Marshal : WALOperation -> option string)
    (e : Env) (db : KDB) (disk : Disk) (key val : string) :
  log_shut db = true ->
  let r := Put json_Marshal e db disk key val in
  r.1.1 = (false, val) /\ r.2 = disk
  /\ head r.1.2 = head db /\ Size r.1.2 = Size db
  /\ log_shut r.1.2 = true.
Proof.
  intros Hs. unfold Put.
  destruct (checkIsDuplicateKey db key); [simpl; auto|].
  unfold log_shut in Hs. destruct (wal db) as [w|] eqn:Hw; [|discriminate].
  destruct (log_on_shut json_Marshal e w disk "PUT" key val Hs)
    as (err & w' & HL & Hf).
  rewrite HL. simpl. unfold log_shut. simpl. rewrite Hf. auto.
Qed.

Lemma run_on_shut
    (json_Marshal : WALOperation -> option string)
    (disk : Disk) (steps : list step) :
  forall db,
    log_shut db = true ->
    run_flags json_Marshal db disk steps = replicate (List.length steps) false
    /\ (run_end json_Marshal db disk steps).2 = disk
    /\ head (run_end json_Marshal db disk steps).1 = head db
    /\ Size (run_end json_Marshal db disk steps).1 = Size db.
Proof.
  induction steps as [|[[e k] v] steps IH]; intros db Hs; [simpl; auto|].
  destruct (put_on_shut json_Marshal e db disk k v Hs) as (H1 & H2 & H3 & H4 & H5).
  unfold run_end. simpl.
  destruct (Put json_Marshal e db disk k v) as [[r db'] disk'].
  simpl in *. subst disk'. subst r.
  destruct (IH db' H5) as (I1 & I2 & I3 & I4). unfold run_end in I2, I3, I4.
  rewrite I1, I2, I3, I4. simpl. auto.
Qed.

Lemma close_shuts (e : Env) (db : KDB) (w : WAL) :
  wal db = Some w ->
  log_shut (Close e db).2 = true
  /\ head (Close e db).2 = head db /\ Size (Close e db).2 = Size db.
Proof.
  intros Hw. unfold Close. rewrite Hw. unfold WAL_Close.
  destruct (file w) as [f|] eqn:Hf.
  - unfold file_Close. destruct (closed f) eqn:Hc; unfold log_shut; simpl;
      rewrite ?Hf, ?Hc; auto.
  - unfold log_shut. simpl. rewrite Hf. auto.
Qed.

(** X11. On a store that has a log, after [Close] (whatever close(2)
    answered) every [Put] of every later run answers false, and the run
    changes neither the tree, nor [Size], nor any file. *)
Theorem closed_store_rejects_puts
    (json_Marshal : WALOperation -> option string)
    (e : Env) (db : KDB) (disk : Disk) (w : WAL) (steps : list step) :
  wal db = Some w ->
  let db0 := (Close e db).2 in
  run_flags json_Marshal db0 disk steps = replicate (List.length steps) false
  /\ (run_end json_Marshal db0 disk steps).2 = disk
  /\ head (run_end json_Marshal db0 disk steps).1 = head db
  /\ Size (run_end json_Marshal db0 disk steps).1 = Size db.
Proof.
  intros Hw db0. destruct (close_shuts e db w Hw) as (Hs & Hh & Hz).
  destruct (run_on_shut json_Marshal disk steps db0 Hs) as (H1 & H2 & H3 & H4).
  subst db0. rewrite H3, H4. auto.
Qed.

Lemma closed_store_rejects_puts_witness :
  let db0 := (Close (calm 1) logged_store).2 in
  run_flags Wire.marshal db0 fresh_disk three_puts = [false; false; false]
  /\ (run_end Wire.marshal db0 fresh_disk three_puts).2 = fresh_disk
  /\ head (run_end Wire.marshal db0 fresh_disk three_puts).1 = head logged_store
  /\ Size (run_end Wire.marshal db0 fresh_disk three_puts).1 = Size logged_store.
Proof.
  apply (closed_store_rejects_puts Wire.marshal (calm 1) logged_store
           fresh_disk (wal_at walPath) three_puts).
  reflexivity.
Defined.

(** X12. What the second [Close] of a store returns: nothing for the store
    without a log, for which [Close] does nothing, and for a log without a
    handle; the error of closing a closed file for a store with a log, also
    when the first [Close] failed. *)
Theorem close_twice (e1 e2 : Env) (db : KDB) :
  (Close e2 (Close e1 db).2).1
  = match wal db with
    | None => None
    | Some w => match file w with None => None | Some _ => Some ErrClosed end
    end.
Proof.
  unfold Close at 2. destruct (wal db) as [w|] eqn:Hw.
  - unfold WAL_Close. destruct (file w) as [f|] eqn:Hf.
    + unfold file_Close at 1.
      destruct (closed f) eqn:Hc; simpl; unfold Close; simpl; unfold WAL_Close;
        simpl; rewrite ?Hf; simpl; unfold file_Close; simpl; rewrite ?Hc; reflexivity.
    + simpl. unfold Close. simpl. unfold WAL_Close. rewrite Hf. reflexivity.
  - simpl. unfold Close. rewrite Hw. reflexivity.
Qed.

(** X13. [Checkpoint] after [Close] fails on the closed file and leaves the
    log file as it is. *)
Theorem checkpoint_after_close_fails (e1 e2 : Env) (db : KDB) (disk : Disk)
    (w : WAL) (f : File) :
  wal db = Some w -> file w = Some f ->
  exists db', Checkpoint e2 (Close e1 db).2 disk = (Some ErrClosed, db', disk).
Proof.
  intros Hw Hf. unfold Close. rewrite Hw. unfold WAL_Close. rewrite Hf.
  unfold file_Close at 1.
  destruct (closed f) eqn:Hc; simpl; unfold Checkpoint; simpl;
    unfold Truncate, closeFirst; simpl; unfold file_Close; simpl; rewrite ?Hc;
    eexists; reflexivity.
Qed.

Lemma checkpoint_after_close_fails_witness :
  exists db',
    Checkpoint (calm 2) (Close (calm 1) logged_store).2 fresh_disk
    = (Some ErrClosed, db', fresh_disk).
Proof.
  apply (checkpoint_after_close_fails (calm 1) (calm 2) logged_store fresh_disk
           (wal_at walPath) (mkFile walPath true 0 false)); reflexivity.
Defined.

(** X26. A checkpoint that fails, on closing the file or on opening it
    again, leaves the tree and every file as they were and the handle of the
    log closed: every [Put] of every later run answers false and the run
    changes neither the tree, nor [Size], nor any file. *)
Theorem failed_checkpoint_blocks_puts
    (json_Marshal : WALOperation -> option string)
    (e : Env) (db db' : KDB) (disk disk' : Disk)
    (w : WAL) (f : File) (err : error) (steps : list step) :
  wal db = Some w -> file w = Some f ->
  Checkpoint e db disk = (Some err, db', disk') ->
  disk' = disk /\ head db' = head db /\ Size db' = Size db
  /\ log_shut db' = true
  /\ run_flags json_Marshal db' disk steps = replicate (List.length steps) false
  /\ (run_end json_Marshal db' disk steps).2 = disk
  /\ head (run_end json_Marshal db' disk steps).1 = head db
  /\ Size (run_end json_Marshal db' disk steps).1 = Size db.
Proof.
  intros Hw Hf HC. unfold Checkpoint in HC. rewrite Hw in HC.
  unfold Truncate, closeFirst in HC. rewrite Hf in HC.
  assert (Hshut : disk' = disk /\ head db' = head db /\ Size db' = Size db
                  /\ log_shut db' = true).
  { unfold file_Close in HC. destruct (closed f) eqn:Hc.
    - injection HC as _ <- <-. unfold log_shut. simpl. rewrite ?Hf, ?Hc. auto.
    - destruct (close_fails e).
      + injection HC as _ <- <-. unfold log_shut. simpl. auto.
      + unfold open_trunc in HC. destruct (open_fails e); [|discriminate].
        injection HC as _ <- <-. unfold log_shut. simpl. auto. }
  destruct Hshut as (-> & Hh & Hz & Hs).
  destruct (run_on_shut json_Marshal disk steps db' Hs) as (H1 & H2 & H3 & H4).
  rewrite H3, H4. auto 10.
Qed.

Lemma failed_checkpoint_blocks_puts_witness :
  let c := Checkpoint open_refused logged_store fresh_disk in
  c.2 = fresh_disk /\ head c.1.2 = head logged_store
  /\ Size c.1.2 = Size logged_store
  /\ log_shut c.1.2 = true
  /\ run_flags Wire.marshal c.1.2 fresh_disk three_puts = [false; false; false]
  /\ (run_end Wire.marshal c.1.2 fresh_disk three_puts).2 = fresh_disk
  /\ head (run_end Wire.marshal c.1.2 fresh_disk three_puts).1 = head logged_store
  /\ Size (run_end Wire.marshal c.1.2 fresh_disk three_puts).1 = Size logged_store.
Proof.
  intros c.
  apply (failed_checkpoint_blocks_puts Wire.marshal open_refused logged_store c.1.2
           fresh_disk c.2 (wal_at walPath) (mkFile walPath true 0 false)
           ErrOpen three_puts); reflexivity.
Defined.

(** X14. Opening a store writes nothing: no other file is touched, a log
    file that exists keeps its content (also when recovery fails), and a
    path without a file is left alone or gets an empty file. *)
Theorem open_leaves_disk
    (json_Marshal : WALOperation -> option string)
    (json_Unmarshal : string -> option WALOperation)
    (e : Env) (p : string) (disk : Disk) :
  let disk' := (newKDBWithWAL json_Marshal json_Unmarshal e p disk).2 in
  (forall q, q <> p -> disk' !! q = disk !! q)
  /\ (forall c, disk !! p = Some c -> disk' = disk)
  /\ (disk !! p = None -> disk' = disk \/ disk' = <[p := EmptyString]> disk).
Proof.
  unfold newKDBWithWAL, NewWAL, open_append.
  destruct (open_fails e); simpl.
  - repeat split; auto.
  - match goal with |- context [recoverFromWAL ?a ?b ?c ?d ?x] =>
      destruct (recoverFromWAL a b c d x) as [[err|] db'] end; simpl;
    (split; [|split]).
    all: try (intros q Hq; destruct (disk !! p); [reflexivity|];
              apply lookup_insert_ne; congruence).
    all: try (intros c Hc; rewrite Hc; reflexivity).
    all: intros Hn; rewrite Hn; auto.
Qed.

(** X15. Recovery looks at PUT records only: records of any other
    operation are passed over. *)
Theorem replay_skips_other_operations
    (json_Marshal : WALOperation -> option string)
    (e : Env) (disk : Disk) (ops : list WALOperation) :
  forall db,
    replay json_Marshal e db disk ops
    = replay json_Marshal e db disk
        (filter (fun op => Operation op = "PUT"%string) ops).
Proof.
  induction ops as [|op ops IH]; intros db; [reflexivity|].
  rewrite filter_cons. unfold replay in *. simpl fold_left.
  destruct (decide (Operation op = "PUT"%string)) as [E|E].
  - simpl. apply IH.
  - apply String.eqb_neq in E. rewrite E. apply IH.
Qed.

(** X16. A checkpoint that succeeds keeps the tree in memory and empties
    the log: whatever opens a store on that path next starts from the empty
    tree. *)
Theorem checkpoint_discards_history
    (json_Marshal : WALOperation -> option string)
    (json_Unmarshal : string -> option WALOperation)
    (e e1 : Env) (db db' : KDB) (disk disk' : Disk) (w : WAL) :
  wal db = Some w ->
  Checkpoint e db disk = (None, db', disk') ->
  open_fails e1 = false -> open_rec_fails e1 = false ->
  head db' = head db /\ Size db' = Size db
  /\ exists w2,
       newKDBWithWAL json_Marshal json_Unmarshal e1 (filePath w) disk'
       = (inl (mkKDB Nil 0 (Some w2)), disk').
Proof.
  intros Hw Hc Ho Hr. unfold Checkpoint in Hc. rewrite Hw in Hc.
  destruct (Truncate e w disk) as [[err w1] d1] eqn:Ht.
  injection Hc as -> <- <-. simpl. split; [reflexivity|]. split; [reflexivity|].
  unfold Truncate in Ht.
  destruct (closeFirst e (file w)) as [[?|] fo]; [congruence|].
  unfold open_trunc in Ht. destruct (open_fails e); [congruence|].
  injection Ht as <- <-.
  unfold newKDBWithWAL, NewWAL, open_append. rewrite Ho, lookup_insert_eq.
  unfold getLastSequence. simpl. rewrite lookup_insert_eq.
  unfold recoverFromWAL, Recover. simpl. rewrite lookup_insert_eq, Hr. simpl.
  destruct (open_seq_fails e1); eexists; reflexivity.
Qed.

Lemma checkpoint_discards_history_witness :
  let disk : Disk := {[walPath := "x"%string]} in
  let r := Checkpoint (calm 1) logged_store disk in
  head r.1.2 = head logged_store /\ Size r.1.2 = Size logged_store
  /\ exists w2,
       newKDBWithWAL Wire.marshal Wire.unmarshal (calm 2) walPath r.2
       = (inl (mkKDB Nil 0 (Some w2)), r.2).
Proof.
  intros disk r.
  apply (checkpoint_discards_history Wire.marshal Wire.unmarshal (calm 1) (calm 2)
           logged_store r.1.2 disk r.2 (wal_at walPath)); reflexivity.
Defined.

Lemma append_empty (s : string) : (s +:+ EmptyString)%string = s.
Proof.
  induction s as [|c s IH]; [reflexivity|].
  change (String c (s +:+ EmptyString) = String c s). rewrite IH. reflexivity.
Qed.

(** X17. Through a handle opened for appending, [Put] only ever adds bytes
    at the end of the log file (none when it rejects the key or the record
    cannot be encoded) and touches no other file. *)
Theorem put_only_appends
    (json_Marshal : WALOperation -> option string)
    (e : Env) (db : KDB) (disk : Disk) (key val : string)
    (w : WAL) (f : File) (content : string) :
  wal db = Some w -> file w = Some f -> append f = true ->
  disk !! path f = Some content ->
  let disk' := (Put json_Marshal e db disk key val).2 in
  (exists more, disk' !! path f = Some (content +:+ more)%string)
  /\ forall q, q <> path f -> disk' !! q = disk !! q.
Proof.
  intros Hw Hf Ha Hd. unfold Put.
  destruct (checkIsDuplicateKey db key).
  { simpl. split; [exists EmptyString; rewrite append_empty; exact Hd|reflexivity]. }
  rewrite Hw. unfold Log. destruct (json_Marshal _) as [data|].
  2:{ simpl. split; [exists EmptyString; rewrite append_empty; exact Hd|reflexivity]. }
  unfold file_Write, file_Sync. rewrite Hf. destruct (closed f) eqn:Hcl.
  { simpl. split; [exists EmptyString; rewrite append_empty; exact Hd|reflexivity]. }
  destruct (write_outcome e); unfold store_bytes; rewrite Hd, Ha; simpl;
    rewrite ?Hcl.
  - destruct (sync_fails e); simpl;
      (split; [eexists; apply lookup_insert_eq
              |intros q Hq; apply lookup_insert_ne; congruence]).
  - split; [eexists; apply lookup_insert_eq
           |intros q Hq; apply lookup_insert_ne; congruence].
Qed.

Lemma put_only_appends_witness :
  let disk : Disk := {[walPath := "abc"%string]} in
  let disk' := (Put Wire.marshal failing_write fresh_store disk "a" "1").2 in
  (exists more, disk' !! walPath = Some ("abc" +:+ more)%string)
  /\ forall q, q <> walPath -> disk' !! q = disk !! q.
Proof.
  intros disk.
  apply (put_only_appends Wire.marshal failing_write fresh_store disk "a" "1"
           (wal_at walPath) (mkFile walPath true 0 false) "abc"); reflexivity.
Defined.

(** ** The store across a restart *)

(** *** The scanner on a file that grows *)

Lemma ends_lines_cons (c : ascii) (r : string) :
  r <> EmptyString -> ends_lines (String c r) = ends_lines r.
Proof. destruct r; [congruence|reflexivity]. Qed.

Lemma ends_lines_line (t : string) : ends_lines (t +:+ nl) = true.
Proof.
  induction t as [|c t IH]; [reflexivity|].
  change (ends_lines (String c (t +:+ nl)) = true).
  rewrite ends_lines_cons; [exact IH|]. destruct t; discriminate.
Qed.

Lemma ends_lines_app (s t : string) : ends_lines (s +:+ (t +:+ nl)) = true.
Proof.
  induction s as [|c s IH]; [apply ends_lines_line|].
  change (ends_lines (String c (s +:+ (t +:+ nl))) = true).
  rewrite ends_lines_cons; [exact IH|]. destruct s, t; discriminate.
Qed.

(** After complete lines the scanner goes on as on a file of its own. *)
Lemma scan_from_complete (content more : string) :
  forall (cur : list ascii) (n : Z) (lines : list string),
    (content = EmptyString -> cur = [] /\ n = 0) ->
    ends_lines content = true ->
    scan_from cur n content = (lines, false) ->
    scan_from cur n (content +:+ more)
    = (lines ++ (scanLines more).1, (scanLines more).2).
Proof.
  induction content as [|c rest IH]; intros cur n lines H0 He Hs.
  - destruct (H0 eq_refl) as [-> ->]. simpl in Hs. injection Hs as <-.
    change (scan_from [] 0 more = ((scanLines more).1, (scanLines more).2)).
    unfold scanLines. destruct (scan_from [] 0 more). reflexivity.
  - change (scan_from cur n (String c (rest +:+ more))
            = (lines ++ (scanLines more).1, (scanLines more).2)).
    simpl in Hs |- *. destruct (Ascii.eqb c newline) eqn:Hc.
    + destruct (scan_from [] 0 rest) as [t tl] eqn:Hr.
      injection Hs as <- ->.
      assert (Hrest : ends_lines rest = true).
      { destruct rest; [reflexivity|]. exact He. }
      rewrite (IH [] 0 t (fun _ => conj eq_refl eq_refl) Hrest Hr).
      reflexivity.
    + destruct (MaxScanTokenSize <=? n + 1); [discriminate|].
      assert (Hrest : rest <> EmptyString).
      { intros ->. simpl in He. congruence. }
      apply IH; [tauto| |exact Hs].
      rewrite ends_lines_cons in He by exact Hrest. exact He.
Qed.

Lemma scanLines_grown (content data : string) :
  ends_lines content = true ->
  (scanLines content).2 = false ->
  line_safe data = true ->
  scanLines (content +:+ (data +:+ nl))
  = ((scanLines content).1 ++ [data], false).
Proof.
  intros He Hs Hl. unfold scanLines at 1.
  rewrite (scan_from_complete content (data +:+ nl) [] 0 (scanLines content).1).
  - rewrite (scanLines_line data Hl). reflexivity.
  - auto.
  - exact He.
  - fold (scanLines content). rewrite <- Hs. destruct (scanLines content). reflexivity.
Qed.

Lemma string_length_bytes (s : string) :
  String.length s = List.length (list_ascii_of_string s).
Proof. induction s as [|c s IH]; simpl; [reflexivity|]. rewrite IH. reflexivity. Qed.

(** A line that does not fit the buffer. *)
Lemma scan_from_too_long (line : list ascii) (rest : string) :
  forall (cur : list ascii) (n : Z),
    forallb (fun c => negb (Ascii.eqb c newline)) line = true ->
    n < MaxScanTokenSize ->
    MaxScanTokenSize <= n + Z.of_nat (List.length line) ->
    scan_from cur n (string_of_list_ascii line +:+ rest) = ([], true).
Proof.
  induction line as [|c line IH]; intros cur n Hnl Hn Hlen.
  - simpl in Hlen. lia.
  - simpl in Hnl. apply andb_true_iff in Hnl as [Hc Hnl].
    apply negb_true_iff in Hc.
    change (scan_from cur n (String c (string_of_list_ascii line +:+ rest)) = ([], true)).
    simpl. rewrite Hc.
    destruct (Z.leb_spec MaxScanTokenSize (n + 1)); [reflexivity|].
    apply IH; [exact Hnl|lia|]. simpl List.length in Hlen. lia.
Qed.

Lemma append_assoc (a b c : string) :
  ((a +:+ b) +:+ c)%string = (a +:+ (b +:+ c))%string.
Proof.
  induction a as [|x a IH]; [reflexivity|].
  change (String x ((a +:+ b) +:+ c) = String x (a +:+ (b +:+ c))).
  rewrite IH. reflexivity.
Qed.

(** *** Replay on a store without a log *)

Lemma insert_wal (db : KDB) (key : Z) (val : option string) :
  wal (insert db key val) = wal db.
Proof.
  unfold insert. destruct (head db); [reflexivity|].
  destruct (insertKey _ _ _ _) as [[S' n'] res].
  destruct (promoted res); reflexivity.
Qed.

Lemma insert_same (db1 db2 : KDB) (key : Z) (val : option string) :
  head db1 = head db2 -> Size db1 = Size db2 ->
  head (insert db1 key val) = head (insert db2 key val)
  /\ Size (insert db1 key val) = Size (insert db2 key val).
Proof.
  intros Hh Hs. unfold insert. rewrite Hh, Hs.
  destruct (head db2); [split; reflexivity|].
  destruct (insertKey _ _ _ _) as [[S' n'] res].
  destruct (promoted res); split; reflexivity.
Qed.

Section WithoutLog.

Variable json_Marshal : WALOperation -> option string.

(** Without a log, [Put] looks neither at the clock nor at the disk. *)
Lemma put_without_log (e : Env) (db : KDB) (disk : Disk) (key val : string) :
  wal db = None ->
  Put json_Marshal e db disk key val
  = ((Put json_Marshal (calm 0) db ∅ key val).1, disk)
  /\ wal (Put json_Marshal e db disk key val).1.2 = None.
Proof.
  intros Hw. unfold Put. destruct (checkIsDuplicateKey db key).
  - split; [reflexivity|exact Hw].
  - rewrite Hw. split; [reflexivity|]. simpl. rewrite insert_wal. exact Hw.
Qed.

Lemma replay_without_log (e : Env) (disk : Disk) (ops : list WALOperation) :
  forall db, wal db = None ->
    replay json_Marshal e db disk ops = replay json_Marshal (calm 0) db ∅ ops
    /\ wal (replay json_Marshal e db disk ops) = None.
Proof.
  unfold replay. induction ops as [|op ops IH]; intros db Hw; [split; [reflexivity|exact Hw]|].
  simpl. destruct (String.eqb (Operation op) "PUT").
  - destruct (put_without_log e db disk (Key op) (Value op) Hw) as [H1 H2].
    rewrite H1 in *. simpl in *. apply IH. exact H2.
  - apply IH. exact Hw.
Qed.

End WithoutLog.

(** *** The store in step with its log *)

Section Restart.

Variable json_Marshal : WALOperation -> option string.
Variable json_Unmarshal : string -> option WALOperation.

(** What [log_of] says about the handle. *)
Lemma log_of_inv (db : KDB) (disk : Disk) (content : string) :
  log_of db disk = Some content ->
  exists w f,
    wal db = Some w /\ file w = Some f
    /\ append f = true /\ closed f = false /\ path f = filePath w
    /\ disk !! filePath w = Some content.
Proof.
  unfold log_of. intros H.
  destruct (wal db) as [w|]; [|discriminate].
  destruct (file w) as [f|] eqn:Hf; [|discriminate].
  destruct (append f) eqn:Ha; [|discriminate].
  destruct (closed f) eqn:Hc; [discriminate|].
  destruct (String.eqb_spec (path f) (filePath w)) as [Hp|]; [|discriminate].
  simpl in H. exists w, f. auto 10.
Qed.

(** A record that reads back, appended to a file of complete lines, is
    replayed after the records before it. *)
Lemma replayed_grown (content data : string) (op : WALOperation) :
  ends_lines content = true ->
  (scanLines content).2 = false ->
  line_safe data = true ->
  json_Unmarshal data = Some op ->
  Operation op = "PUT"%string ->
  replayed json_Marshal json_Unmarshal (content +:+ (data +:+ nl))
  = (Put json_Marshal (calm 0) (replayed json_Marshal json_Unmarshal content) ∅
         (Key op) (Value op)).1.2.
Proof.
  intros He Hs Hl Hu Hop. unfold replayed.
  rewrite (scanLines_grown content data He Hs Hl). simpl.
  rewrite omap_app. simpl. rewrite Hu. simpl.
  unfold replay. rewrite fold_left_app. simpl. rewrite Hop. reflexivity.
Qed.

Lemma replayed_wal (content : string) :
  wal (replayed json_Marshal json_Unmarshal content) = None.
Proof. apply replay_without_log. reflexivity. Qed.

(** [Put] on a store in step with its log, when the whole record reaches
    the file. *)
Lemma put_logged (e : Env) (db : KDB) (disk : Disk) (key val : string)
    (content data : string) (w : WAL) :
  wal db = Some w ->
  log_of db disk = Some content ->
  checkIsDuplicateKey db key = false ->
  write_outcome e = WriteAll ->
  json_Marshal (put_record e db key val) = Some data ->
  exists w',
    let disk' := <[filePath w := (content +:+ (data +:+ nl))%string]> disk in
    log_of (mkKDB (head db) (Size db) (Some w')) disk'
    = Some (content +:+ (data +:+ nl))%string
    /\ filePath w' = filePath w
    /\ Put json_Marshal e db disk key val
       = if sync_fails e
         then ((false, val), mkKDB (head db) (Size db) (Some w'), disk')
         else ((true, val),
               insert (mkKDB (head db) (Size db) (Some w'))
                      (HashStringToInt key) (Some val),
               disk').
Proof.
  intros Hw Hlog Hdup Hwr Hm.
  apply log_of_inv in Hlog as (w0 & f & Hw0 & Hf & Ha & Hc & Hp & Hd).
  rewrite Hw in Hw0. injection Hw0 as <-.
  unfold put_record in Hm. rewrite Hw in Hm.
  exists (mkWAL (Some f) (wrap64 (seq w + 1)) (filePath w)).
  cbv zeta. split; [|split; [reflexivity|]].
  - unfold log_of. simpl. rewrite Ha, Hc, Hp, String.eqb_refl. simpl.
    apply lookup_insert_eq.
  - unfold Put. rewrite Hdup, Hw. unfold Log. rewrite Hm.
    unfold file_Write, file_Sync. rewrite Hf, Hc, Hwr.
    unfold store_bytes. rewrite Hp, Hd, Ha. simpl. rewrite Hc.
    destruct (sync_fails e); reflexivity.
Qed.

(** The replayed [Put] builds the tree that the logged [Put] built. *)
Lemma replayed_put (db r : KDB) (w : option WAL) (key val : string) :
  wal r = None -> head r = head db -> Size r = Size db ->
  checkIsDuplicateKey db key = false ->
  let r' := (Put json_Marshal (calm 0) r ∅ key val).1.2 in
  let db' := insert (mkKDB (head db) (Size db) w) (HashStringToInt key) (Some val) in
  head r' = head db' /\ Size r' = Size db'.
Proof.
  intros Hw Hh Hs Hdup. unfold Put.
  replace (checkIsDuplicateKey r key) with false
    by (unfold checkIsDuplicateKey in *; rewrite Hh; symmetry; exact Hdup).
  rewrite Hw. simpl. apply insert_same; assumption.
Qed.

(** The store and the file once a whole record has reached the file and
    the tree has taken the key. *)
Lemma logged_in_step (db : KDB) (disk : Disk) (key val : string)
    (content data : string) (w' : WAL) :
  in_step json_Marshal json_Unmarshal db disk ->
  log_of db disk = Some content ->
  checkIsDuplicateKey db key = false ->
  forall (op : WALOperation) (disk' : Disk),
    Operation op = "PUT"%string -> Key op = key -> Value op = val ->
    line_safe data = true -> json_Unmarshal data = Some op ->
    log_of (mkKDB (head db) (Size db) (Some w')) disk'
    = Some (content +:+ (data +:+ nl))%string ->
    in_step json_Marshal json_Unmarshal
      (insert (mkKDB (head db) (Size db) (Some w')) (HashStringToInt key) (Some val))
      disk'.
Proof.
  intros Hin Hlog Hdup op disk' Hop Hk Hv Hl Hu Hlog'.
  unfold in_step in Hin. rewrite Hlog in Hin. destruct Hin as (He & Hs & Hh & Hz).
  unfold in_step.
  replace (log_of (insert _ _ _) disk')
    with (log_of (mkKDB (head db) (Size db) (Some w')) disk')
    by (unfold log_of; rewrite insert_wal; reflexivity).
  rewrite Hlog'. split; [apply ends_lines_app|].
  split; [rewrite (scanLines_grown content data He Hs Hl); reflexivity|].
  rewrite (replayed_grown content data op He Hs Hl Hu Hop), Hk, Hv.
  apply replayed_put; [apply replayed_wal|exact Hh|exact Hz|exact Hdup].
Qed.

(** The outcome of a [Put] that is not a duplicate, on a store in step
    with its log, when the whole record reaches the file: the file has the
    record, and the store with the key put in is in step with it. *)
Lemma put_written (e : Env) (db : KDB) (disk : Disk) (key val : string) (w : WAL) :
  in_step json_Marshal json_Unmarshal db disk ->
  wal db = Some w ->
  checkIsDuplicateKey db key = false ->
  write_outcome e = WriteAll ->
  reads_back json_Marshal json_Unmarshal (put_record e db key val) ->
  exists w' disk',
    filePath w' = filePath w
    /\ in_step json_Marshal json_Unmarshal
         (insert (mkKDB (head db) (Size db) (Some w')) (HashStringToInt key) (Some val))
         disk'
    /\ Put json_Marshal e db disk key val
       = if sync_fails e
         then ((false, val), mkKDB (head db) (Size db) (Some w'), disk')
         else ((true, val),
               insert (mkKDB (head db) (Size db) (Some w'))
                      (HashStringToInt key) (Some val),
               disk').
Proof.
  intros Hin Hw Hdup Hwr Hrb.
  unfold reads_back in Hrb.
  destruct (json_Marshal (put_record e db key val)) as [data|] eqn:Hm; [|destruct Hrb].
  destruct Hrb as [Hl Hu].
  assert (Hlog : exists content, log_of db disk = Some content).
  { unfold in_step in Hin. destruct (log_of db disk); [eauto|destruct Hin]. }
  destruct Hlog as [content Hlog].
  destruct (put_logged e db disk key val content data w Hw Hlog Hdup Hwr Hm)
    as (w' & Hlog' & Hp & HP).
  exists w', (<[filePath w := (content +:+ (data +:+ nl))%string]> disk).
  split; [exact Hp|]. split; [|exact HP].
  apply (logged_in_step db disk key val content data w' Hin Hlog Hdup
           (put_record e db key val)); auto.
Qed.

(** Opening a store on a file whose lines fit the scanner. *)
Lemma reopen_content (e : Env) (p : string) (disk : Disk) (content : string) :
  disk !! p = Some content ->
  (scanLines content).2 = false ->
  open_fails e = false -> open_rec_fails e = false ->
  exists w2,
    newKDBWithWAL json_Marshal json_Unmarshal e p disk
    = (inl (mkKDB (head (replayed json_Marshal json_Unmarshal content))
                  (Size (replayed json_Marshal json_Unmarshal content))
                  (Some w2)), disk).
Proof.
  intros Hd Hs Ho Hr.
  unfold newKDBWithWAL, NewWAL, open_append. rewrite Ho, Hd.
  unfold recoverFromWAL, Recover. simpl. rewrite Hd, Hr.
  unfold replayed.
  destruct (scanLines content) as [lines too_long]. simpl in Hs. subst too_long.
  destruct (replay_without_log json_Marshal e disk (omap json_Unmarshal lines)
              (mkKDB Nil 0 None) eq_refl) as [-> _].
  eexists. reflexivity.
Qed.

(** Reopening rebuilds the store that is in step with the file. *)
Lemma reopen_in_step (e : Env) (db : KDB) (disk : Disk) (w : WAL) :
  in_step json_Marshal json_Unmarshal db disk ->
  wal db = Some w ->
  open_fails e = false -> open_rec_fails e = false ->
  exists w2,
    newKDBWithWAL json_Marshal json_Unmarshal e (filePath w) disk
    = (inl (mkKDB (head db) (Size db) (Some w2)), disk).
Proof.
  intros Hin Hw Ho Hr. unfold in_step in Hin.
  destruct (log_of db disk) as [content|] eqn:Hlog; [|destruct Hin].
  destruct Hin as (_ & Hs & Hh & Hz).
  apply log_of_inv in Hlog as (w0 & f & Hw0 & _ & _ & _ & _ & Hd).
  rewrite Hw in Hw0. injection Hw0 as <-.
  unfold newKDBWithWAL, NewWAL, open_append. rewrite Ho, Hd.
  unfold recoverFromWAL, Recover. simpl. rewrite Hd, Hr.
  unfold replayed in Hh, Hz.
  destruct (scanLines content) as [lines too_long]. simpl in Hs, Hh, Hz. subst too_long.
  destruct (replay_without_log json_Marshal e disk (omap json_Unmarshal lines)
              (mkKDB Nil 0 None) eq_refl) as [-> _].
  fold newKDB. rewrite Hh, Hz. eexists. reflexivity.
Qed.

(** A store that was opened on a file of complete lines is in step with
    the file. *)
Lemma opened_store_in_step (e : Env) (p : string) (disk disk' : Disk) (db : KDB) :
  ends_lines (default EmptyString (disk !! p)) = true ->
  newKDBWithWAL json_Marshal json_Unmarshal e p disk = (inl db, disk') ->
  in_step json_Marshal json_Unmarshal db disk'.
Proof.
  intros He H. unfold newKDBWithWAL, NewWAL, open_append in H.
  destruct (open_fails e); [discriminate|].
  set (d := match disk !! p with Some _ => disk | None => <[p:=EmptyString]> disk end) in *.
  assert (Hd : d !! p = Some (default EmptyString (disk !! p))).
  { subst d. destruct (disk !! p) eqn:Hp; simpl; [exact Hp|apply lookup_insert_eq]. }
  unfold recoverFromWAL, Recover in H. simpl in H. rewrite Hd in H.
  destruct (open_rec_fails e); [discriminate|].
  destruct (scanLines (default EmptyString (disk !! p))) as [lines too_long] eqn:Hs.
  destruct too_long; [discriminate|].
  injection H as <- <-.
  unfold in_step, log_of. simpl. rewrite String.eqb_refl, Hd.
  split; [exact He|]. unfold replayed. rewrite Hs. simpl.
  destruct (replay_without_log json_Marshal e d (omap json_Unmarshal lines)
              (mkKDB Nil 0 None) eq_refl) as [-> _].
  auto.
Qed.

(** A committed [Put] keeps the store in step with its log. *)
Lemma committed_put_in_step (e : Env) (db db' : KDB) (disk disk' : Disk)
    (key val : string) :
  in_step json_Marshal json_Unmarshal db disk ->
  reads_back json_Marshal json_Unmarshal (put_record e db key val) ->
  Put json_Marshal e db disk key val = ((true, val), db', disk') ->
  in_step json_Marshal json_Unmarshal db' disk'.
Proof.
  intros Hin Hrb HP.
  assert (Hlog : exists content, log_of db disk = Some content).
  { unfold in_step in Hin. destruct (log_of db disk); [eauto|destruct Hin]. }
  destruct Hlog as [content Hlog].
  destruct (log_of_inv db disk content Hlog) as (w & f & Hw & Hf & Ha & Hc & Hp & Hd).
  destruct (checkIsDuplicateKey db key) eqn:Hdup.
  { unfold Put in HP. rewrite Hdup in HP. discriminate. }
  destruct (write_outcome e) as [|n] eqn:Hwr.
  - destruct (put_written e db disk key val w Hin Hw Hdup Hwr Hrb)
      as (w' & d' & _ & Hin' & HP').
    rewrite HP in HP'. destruct (sync_fails e); [discriminate|].
    injection HP' as -> ->. exact Hin'.
  - unfold Put in HP. rewrite Hdup, Hw in HP. unfold Log in HP.
    destruct (json_Marshal _) as [data|]; [|discriminate].
    unfold file_Write in HP. rewrite Hf, Hc, Hwr in HP.
    destruct (store_bytes f disk _). discriminate.
Qed.

(** [Put] keeps the path of the log. *)
Lemma put_filePath (e : Env) (db : KDB) (disk : Disk) (key val : string) (w : WAL) :
  wal db = Some w ->
  exists w', wal (Put json_Marshal e db disk key val).1.2 = Some w'
             /\ filePath w' = filePath w.
Proof.
  intros Hw. unfold Put. destruct (checkIsDuplicateKey db key); [eauto|].
  rewrite Hw. unfold Log. destruct (json_Marshal _).
  - destruct (file_Write _ _ _ _) as [[[?|] ?] ?]; simpl.
    + eauto.
    + destruct (file_Sync _ _); simpl; rewrite ?insert_wal; eauto.
  - simpl. eauto.
Qed.

Lemma committed_run_in_step (p : string) (steps : list step) :
  forall (db : KDB) (disk : Disk),
    in_step json_Marshal json_Unmarshal db disk ->
    (exists w, wal db = Some w /\ filePath w = p) ->
    committed_run json_Marshal json_Unmarshal db disk steps ->
    let st := run_end json_Marshal db disk steps in
    in_step json_Marshal json_Unmarshal st.1 st.2
    /\ exists w, wal st.1 = Some w /\ filePath w = p.
Proof.
  induction steps as [|[[e k] v] steps IH]; intros db disk Hin Hw Hrun.
  - simpl. auto.
  - simpl in Hrun. destruct Hrun as (Hrb & Ht & Hrest).
    unfold run_end. simpl.
    destruct (Put json_Marshal e db disk k v) as [[r db'] disk'] eqn:HP.
    simpl in Ht, Hrest |- *. subst r.
    apply IH; [|clear IH|exact Hrest].
    + eapply committed_put_in_step; eassumption.
    + destruct Hw as (w & Hw & Hp).
      destruct (put_filePath e db disk k v w Hw) as (w' & Hw' & Hp').
      rewrite HP in Hw'. exists w'. split; [exact Hw'|congruence].
Qed.

(** X18. Durability of any run: a store is opened on a file of complete
    lines (or on no file), any number of [Put]s are committed, their records
    reading back from the file as [json.Marshal] wrote them; whatever opens
    a store on that path next gets the same tree and the same [Size]. *)
Theorem committed_puts_survive_restart (e0 e9 : Env) (p : string)
    (disk disk0 : Disk) (db0 : KDB) (steps : list step) :
  ends_lines (default EmptyString (disk !! p)) = true ->
  newKDBWithWAL json_Marshal json_Unmarshal e0 p disk = (inl db0, disk0) ->
  committed_run json_Marshal json_Unmarshal db0 disk0 steps ->
  open_fails e9 = false -> open_rec_fails e9 = false ->
  let st := run_end json_Marshal db0 disk0 steps in
  exists w,
    newKDBWithWAL json_Marshal json_Unmarshal e9 p st.2
    = (inl (mkKDB (head st.1) (Size st.1) (Some w)), st.2).
Proof.
  intros He Hopen Hrun Ho Hr st.
  pose proof (opened_store_in_step e0 p disk disk0 db0 He Hopen) as Hin.
  assert (Hw : exists w, wal db0 = Some w /\ filePath w = p).
  { unfold newKDBWithWAL, NewWAL, open_append in Hopen.
    destruct (open_fails e0); [discriminate|].
    unfold recoverFromWAL in Hopen. simpl in Hopen.
    destruct (Recover _ _ _ _) as [ops [err|]]; [discriminate|].
    injection Hopen as <- _. simpl. eauto. }
  destruct (committed_run_in_step p steps db0 disk0 Hin Hw Hrun) as (Hin' & w & Hw' & Hp).
  fold st in Hin', Hw'.
  destruct (reopen_in_step e9 st.1 st.2 w Hin' Hw' Ho Hr) as [w2 H2].
  rewrite Hp in H2. eauto.
Qed.

(** X19. A [Put] that answered false can come back: when the record has
    reached the file and the sync fails, [Put] answers false and leaves the
    tree as it was, but the next start of the store replays the record and
    has the key. *)
Theorem unsynced_put_reappears (e e1 : Env) (db : KDB) (disk : Disk)
    (key val : string) (w : WAL) :
  in_step json_Marshal json_Unmarshal db disk ->
  wal db = Some w ->
  checkIsDuplicateKey db key = false ->
  write_outcome e = WriteAll -> sync_fails e = true ->
  reads_back json_Marshal json_Unmarshal (put_record e db key val) ->
  open_fails e1 = false -> open_rec_fails e1 = false ->
  let r := Put json_Marshal e db disk key val in
  let db1 := insert db (HashStringToInt key) (Some val) in
  r.1.1 = (false, val)
  /\ head r.1.2 = head db /\ Size r.1.2 = Size db
  /\ exists w2,
       newKDBWithWAL json_Marshal json_Unmarshal e1 (filePath w) r.2
       = (inl (mkKDB (head db1) (Size db1) (Some w2)), r.2).
Proof.
  intros Hin Hw Hdup Hwr Hsy Hrb Ho Hr.
  destruct (put_written e db disk key val w Hin Hw Hdup Hwr Hrb)
    as (w' & d' & Hp & Hin' & HP).
  rewrite Hsy in HP. cbv zeta. rewrite HP. simpl.
  split; [reflexivity|]. split; [reflexivity|]. split; [reflexivity|].
  destruct (reopen_in_step e1 _ d' w' Hin') as [w2 H2];
    [rewrite insert_wal; reflexivity|assumption..|].
  rewrite Hp in H2. exists w2. rewrite H2.
  destruct (insert_same (mkKDB (head db) (Size db) (Some w')) db
              (HashStringToInt key) (Some val) eq_refl eq_refl) as [-> ->].
  reflexivity.
Qed.

(** X20. A [Put] that answered true can be lost: a short write leaves the
    beginning of a record on the file, and the record of the next [Put] is
    written after it on the same line.  When that line is not a record the
    second [Put] is committed, and the next start of the store has neither
    key. *)
Theorem put_after_short_write_is_lost (e1 e2 e3 : Env) (db : KDB) (disk : Disk)
    (key1 val1 key2 val2 : string) (w : WAL) (n : nat) (data1 data2 : string) :
  in_step json_Marshal json_Unmarshal db disk ->
  wal db = Some w ->
  checkIsDuplicateKey db key1 = false ->
  checkIsDuplicateKey db key2 = false ->
  write_outcome e1 = WriteShort n ->
  json_Marshal (put_record e1 db key1 val1) = Some data1 ->
  let torn := prefix_of n (data1 +:+ nl) in
  let r1 := Put json_Marshal e1 db disk key1 val1 in
  write_outcome e2 = WriteAll -> sync_fails e2 = false ->
  json_Marshal (put_record e2 r1.1.2 key2 val2) = Some data2 ->
  line_safe (torn +:+ data2) = true ->
  json_Unmarshal (torn +:+ data2)%string = None ->
  open_fails e3 = false -> open_rec_fails e3 = false ->
  let r2 := Put json_Marshal e2 r1.1.2 r1.2 key2 val2 in
  r1.1.1 = (false, val1)
  /\ r2.1.1 = (true, val2)
  /\ exists w3,
       newKDBWithWAL json_Marshal json_Unmarshal e3 (filePath w) r2.2
       = (inl (mkKDB (head db) (Size db) (Some w3)), r2.2).
Proof.
  intros Hin Hw Hd1 Hd2 Hwr1 Hm1 torn r1 Hwr2 Hsy2 Hm2 Hl Hu Ho Hr r2.
  unfold in_step in Hin.
  destruct (log_of db disk) as [content|] eqn:Hlog; [|destruct Hin].
  destruct Hin as (He & Hs & Hh & Hz).
  destruct (log_of_inv db disk content Hlog) as (w0 & f & Hw0 & Hf & Ha & Hc & Hp & Hd).
  rewrite Hw in Hw0. injection Hw0 as <-.
  set (w1 := mkWAL (Some f) (wrap64 (seq w + 1)) (filePath w)).
  set (disk1 := <[filePath w := (content +:+ torn)%string]> disk).
  assert (H1 : r1 = ((false, val1), mkKDB (head db) (Size db) (Some w1), disk1)).
  { subst r1. unfold Put. rewrite Hd1, Hw. unfold Log.
    unfold put_record in Hm1. rewrite Hw in Hm1. rewrite Hm1.
    unfold file_Write. rewrite Hf, Hc, Hwr1.
    unfold store_bytes. rewrite Hp, Hd, Ha. reflexivity. }
  assert (Hlog1 : log_of (mkKDB (head db) (Size db) (Some w1)) disk1
                  = Some (content +:+ torn)%string).
  { unfold log_of. simpl. rewrite Ha, Hc, Hp, String.eqb_refl. simpl.
    apply lookup_insert_eq. }
  rewrite H1 in Hm2. simpl in Hm2.
  destruct (put_logged e2 (mkKDB (head db) (Size db) (Some w1)) disk1 key2 val2
              (content +:+ torn)%string data2 w1 eq_refl Hlog1 Hd2 Hwr2 Hm2)
    as (w2 & _ & _ & H2).
  rewrite Hsy2 in H2. simpl in H2.
  subst r2. rewrite H1. simpl. rewrite H2. simpl.
  split; [reflexivity|]. split; [reflexivity|].
  set (content2 := ((content +:+ torn) +:+ (data2 +:+ nl))%string).
  assert (Hscan : scanLines content2
                  = ((scanLines content).1 ++ [(torn +:+ data2)%string], false)).
  { subst content2. rewrite append_assoc, <- (append_assoc torn).
    apply scanLines_grown; assumption. }
  destruct (reopen_content e3 (filePath w) (<[filePath w := content2]> disk1) content2)
    as [w3 H3]; [apply lookup_insert_eq|rewrite Hscan; reflexivity|assumption..|].
  exists w3. rewrite H3. unfold replayed at 1 2. rewrite Hscan. simpl.
  rewrite omap_app. simpl. rewrite Hu, app_nil_r.
  unfold replayed in Hh, Hz. rewrite Hh, Hz. reflexivity.
Qed.

(** X21. A record that does not fit the scanner's buffer locks the store
    out: the [Put] is committed, and from then on no store can be opened on
    the file. *)
Theorem oversized_put_blocks_restart (e e1 : Env) (db : KDB) (disk : Disk)
    (key val data : string) (w : WAL) :
  in_step json_Marshal json_Unmarshal db disk ->
  wal db = Some w ->
  checkIsDuplicateKey db key = false ->
  write_outcome e = WriteAll -> sync_fails e = false ->
  json_Marshal (put_record e db key val) = Some data ->
  forallb (fun c => negb (Ascii.eqb c newline)) (list_ascii_of_string data) = true ->
  MaxScanTokenSize <= Z.of_nat (String.length data) ->
  open_fails e1 = false -> open_rec_fails e1 = false ->
  let r := Put json_Marshal e db disk key val in
  r.1.1 = (true, val)
  /\ newKDBWithWAL json_Marshal json_Unmarshal e1 (filePath w) r.2
     = (inr ErrTooLong, r.2).
Proof.
  intros Hin Hw Hdup Hwr Hsy Hm Hnl Hlen Ho Hr.
  unfold in_step in Hin.
  destruct (log_of db disk) as [content|] eqn:Hlog; [|destruct Hin].
  destruct Hin as (He & Hs & _).
  destruct (put_logged e db disk key val content data w Hw Hlog Hdup Hwr Hm)
    as (w' & _ & _ & HP).
  rewrite Hsy in HP. cbv zeta. rewrite HP. simpl. split; [reflexivity|].
  unfold newKDBWithWAL, NewWAL, open_append. rewrite Ho, lookup_insert_eq.
  unfold recoverFromWAL, Recover. simpl. rewrite lookup_insert_eq, Hr.
  assert (Hscan : (scanLines (content +:+ (data +:+ nl))).2 = true).
  { unfold scanLines at 1.
    rewrite (scan_from_complete content (data +:+ nl) [] 0 (scanLines content).1);
      [|auto|exact He
       |fold (scanLines content); rewrite <- Hs; destruct (scanLines content); reflexivity].
    simpl. unfold scanLines.
    rewrite <- (string_of_list_ascii_of_string data).
    rewrite (scan_from_too_long _ nl [] 0 Hnl); [reflexivity|reflexivity|].
    rewrite string_length_bytes in Hlen. simpl. lia. }
  destruct (scanLines (content +:+ (data +:+ nl))) as [lines too_long].
  simpl in Hscan. subst too_long. reflexivity.
Qed.

End Restart.

Lemma committed_puts_survive_restart_witness :
  let r := newKDBWithWAL Wire.marshal Wire.unmarshal (calm 0) walPath ∅ in
  let st := run_end Wire.marshal (opened r) r.2 three_puts in
  exists w,
    newKDBWithWAL Wire.marshal Wire.unmarshal (calm 9) walPath st.2
    = (inl (mkKDB (head st.1) (Size st.1) (Some w)), st.2).
Proof.
  intros r.
  apply (committed_puts_survive_restart Wire.marshal Wire.unmarshal (calm 0) (calm 9)
           walPath ∅ r.2 (opened r) three_puts).
  - reflexivity.
  - vm_compute. reflexivity.
  - vm_compute. tauto.
  - reflexivity.
  - reflexivity.
Defined.

Lemma unsynced_put_reappears_witness :
  let r := Put Wire.marshal failing_sync fresh_store fresh_disk "a" "1" in
  let db1 := insert fresh_store (HashStringToInt "a") (Some "1"%string) in
  r.1.1 = (false, "1"%string)
  /\ head r.1.2 = head fresh_store /\ Size r.1.2 = Size fresh_store
  /\ exists w2,
       newKDBWithWAL Wire.marshal Wire.unmarshal (calm 1) walPath r.2
       = (inl (mkKDB (head db1) (Size db1) (Some w2)), r.2).
Proof.
  apply (unsynced_put_reappears Wire.marshal Wire.unmarshal failing_sync (calm 1)
           fresh_store fresh_disk "a" "1" (wal_at walPath)).
  - vm_compute. tauto.
  - reflexivity.
  - reflexivity.
  - reflexivity.
  - reflexivity.
  - vm_compute. tauto.
  - reflexivity.
  - reflexivity.
Defined.

Lemma put_after_short_write_is_lost_witness :
  let r1 := Put Wire.marshal failing_write fresh_store fresh_disk "a" "1" in
  let r2 := Put Wire.marshal (calm 0) r1.1.2 r1.2 "b" "2" in
  r1.1.1 = (false, "1"%string)
  /\ r2.1.1 = (true, "2"%string)
  /\ exists w3,
       newKDBWithWAL Wire.marshal Wire.unmarshal (calm 1) walPath r2.2
       = (inl (mkKDB (head fresh_store) (Size fresh_store) (Some w3)), r2.2).
Proof.
  apply (put_after_short_write_is_lost Wire.marshal Wire.unmarshal
           failing_write (calm 0) (calm 1) fresh_store fresh_disk
           "a" "1" "b" "2" (wal_at walPath) 3
           (line_of (mkOp 1 "PUT" "a" "1" 0)) (line_of (mkOp 2 "PUT" "b" "2" 0))).
  - vm_compute. tauto.
  - reflexivity.
  - reflexivity.
  - reflexivity.
  - reflexivity.
  - vm_compute. reflexivity.
  - reflexivity.
  - reflexivity.
  - vm_compute. reflexivity.
  - vm_compute. reflexivity.
  - vm_compute. reflexivity.
  - reflexivity.
  - reflexivity.
Defined.

(** An option that is not [None] is [Some] of its content. *)
Lemma some_default {A : Type} (o : option A) (d : A) :
  match o with Some _ => true | None => false end = true ->
  o = Some (default d o).
Proof. destruct o; [reflexivity|discriminate]. Qed.

Lemma oversized_put_blocks_restart_witness :
  let r := Put Wire.marshal (calm 0) fresh_store fresh_disk "k" long_line in
  r.1.1 = (true, long_line)
  /\ newKDBWithWAL Wire.marshal Wire.unmarshal (calm 1) walPath r.2
     = (inr ErrTooLong, r.2).
Proof.
  apply (oversized_put_blocks_restart Wire.marshal Wire.unmarshal (calm 0) (calm 1)
           fresh_store fresh_disk "k" long_line
           (line_of (mkOp 1 "PUT" "k" long_line 0)) (wal_at walPath)).
  - vm_compute. tauto.
  - reflexivity.
  - reflexivity.
  - reflexivity.
  - reflexivity.
  - apply (some_default (Wire.marshal (mkOp 1 "PUT" "k" long_line 0)) EmptyString).
    vm_compute. reflexivity.
  - vm_compute. reflexivity.
  - vm_compute. discriminate.
  - reflexivity.
  - reflexivity.
Defined.
